(** * The scroll / cursor animation loop of the portfolio page

    A shallow embedding of the three page variants of the repository:

    - [Part000]  : unnamed/part_000  (inertia + skew + smoothed cursor),
    - [AppTsx]   : src/App.tsx       (inertia only, cursor written directly),
    - [Part001]  : unnamed/part_001  (responsive: horizontal engine gated
                                      by the 1024px breakpoint),

    together with the [Reveal] component they share.

    ** Numbers

    A JavaScript [number] is an IEEE-754 binary64 value.  The algebraic
    statements below are made over exact rationals ([Q]): [Math.max],
    [Math.min] and [Math.abs] are [Qmax], [Qmin] and [Qabs], and [/] is
    rational division, which agrees with the JavaScript quotient only for
    a nonzero divisor (statements that go through a division carry that
    side condition).  Where rounding decides a statement, module
    [Binary64] evaluates the very same expressions on the kernel's
    binary64 floats, and module [Double] gives the doubles as rounded
    rationals, for statements about all of them.

    ** DOM

    Everything an event handler reads from the DOM at the time it runs
    ([window.innerWidth], [ref.current], [scrollWidth],
    [getBoundingClientRect()]) is an explicit argument; a style that a
    frame writes is a field of the frame's result, [None] when the frame
    leaves that style untouched. *)

From Stdlib Require Import QArith Qminmax Qabs Qpower Qround Lqa.
From Stdlib Require Import List Bool ZArith Lia.
From Stdlib Require Import Floats.PrimFloat.
From Stdlib Require Floats.FloatOps Floats.SpecFloat.
From Stdlib Require String.
From Stdlib Require Import Permutation.
Import ListNotations.
Import String.StringSyntax.
Delimit Scope string_scope with string.

Local Open Scope Q_scope.

(** ** Utility: linear interpolation

<<
    const lerp = (start, end, factor) => start + (end - start) * factor;
>> *)
Definition lerp (start end_ factor : Q) : Q :=
  start + (end_ - start) * factor.

(** [clamp x lo hi]: [x] clamped into [[lo, hi]], read as CSS reads its
    [clamp()], [max(lo, min(x, hi))], so that the lower bound wins should
    the interval be empty.  On a non-empty interval it is the usual
    projection onto [[lo, hi]] (lemma [clamp_cases]). *)
Definition clamp (x lo hi : Q) : Q := Qmax lo (Qmin x hi).

(** Iterating a state transformer, oldest call first. *)
Fixpoint iterate {A : Type} (f : A -> A) (n : nat) (a : A) : A :=
  match n with
  | O => a
  | S k => iterate f k (f a)
  end.

(** ** The Reveal component

<<
    const [isVisible, setIsVisible] = useState(false);
    useEffect(() => {
      const observer = new IntersectionObserver(([entry]) => {
          if (entry.isIntersecting) {
            setIsVisible(true);
            observer.disconnect();
          }
        }, { threshold });
      if (ref.current) observer.observe(ref.current);
      return () => observer.disconnect();
    }, []);
>> *)
Module Reveal.

(** The part of an [IntersectionObserverEntry] the page can read. *)
Record Entry : Type := mkEntry {
  intersectionRatio : Q;
  isIntersecting : bool
}.

(** [isVisible] is the React state; [observing] tells whether the
    observer still has the element as a target. *)
Record State : Type := mkState {
  isVisible : bool;
  observing : bool
}.

(** [useState(false)], observer not attached yet. *)
Definition initial : State :=
  {| isVisible := false; observing := false |}.

(** The effect body: [if (ref.current) observer.observe(ref.current)]. *)
Definition mount (refAttached : bool) (s : State) : State :=
  {| isVisible := isVisible s; observing := refAttached |}.

(** The observer callback, [([entry]) => { ... }].  The host calls it with
    the batch of entries queued since the last call, oldest first; the
    parameter pattern binds the first entry of the batch and the body
    never looks at the others.  (The host does not call it with an empty
    batch; there [entry] would be undefined and the body would throw
    before it changes anything.) *)
Definition callback (entries : list Entry) (s : State) : State :=
  match entries with
  | entry :: _ =>
      if isIntersecting entry
      then {| isVisible := true; observing := false |}
      else s
  | [] => s
  end.

(** The host only notifies an observer that still observes the target. *)
Definition deliver (entries : list Entry) (s : State) : State :=
  if observing s then callback entries s else s.

(** The effect's cleanup: [observer.disconnect()]. *)
Definition unmount (s : State) : State :=
  {| isVisible := isVisible s; observing := false |}.

(** Host contract (the intersection primitive "keyed to a visibility
    threshold"): for an observer created with the single threshold
    [threshold], the entry taken at a sample of ratio [ratio] reports
    [isIntersecting] exactly when the ratio has reached the threshold. *)
Definition entryAt (threshold ratio : Q) : Entry :=
  {| intersectionRatio := ratio;
     isIntersecting := Qle_bool threshold ratio |}.

Definition threshold_AppTsx : Q := 0.7.
Definition threshold_part001 : Q := 0.2.

(** One notification: the samples taken since the last one, oldest
    first, each with its entry. *)
Definition notify (threshold : Q) (s : State) (ratios : list Q) : State :=
  deliver (map (entryAt threshold) ratios) s.

(** A sequence of notifications, oldest first. *)
Definition notifications (threshold : Q) (batches : list (list Q))
  (s : State) : State :=
  fold_left (notify threshold) batches s.

(** A sample that is notified on its own. *)
Definition sample (threshold : Q) (s : State) (ratio : Q) : State :=
  notify threshold s [ratio].

(** A sequence of samples, each notified on its own, oldest first. *)
Definition samples (threshold : Q) (ratios : list Q) (s : State) : State :=
  fold_left (sample threshold) ratios s.


(** The first sample of a batch reaches the threshold. *)
Definition headReaches (threshold : Q) (batch : list Q) : bool :=
  match batch with
  | r :: _ => Qle_bool threshold r
  | [] => false
  end.

(** Arbitrary batches of entries, for statements that must not depend on
    the host. *)
Definition deliveries (entries : list (list Entry)) (s : State) : State :=
  fold_left (fun s batch => deliver batch s) entries s.

End Reveal.

(** ** unnamed/part_000 *)
Module Part000.

(** [interface AnimationState]. *)
Record AnimationState : Type := mkAnimationState {
  currentX : Q;
  targetX : Q;
  maxScroll : Q;
  skew : Q
}.

(** [mouse.current] and [cursor.current]. *)
Record Point : Type := mkPoint { x : Q; y : Q }.

(** A [DOMRect] as far as the parallax step reads it. *)
Record Rect : Type := mkRect { left : Q; right : Q; width : Q }.

(** What a handler reads from the DOM when it runs.  [container] is
    [containerRef.current.scrollWidth] ([None]: the ref is null);
    [flowSlide] is [flowSlideRef.current.getBoundingClientRect()]. *)
Record Dom : Type := mkDom {
  innerWidth : Q;
  container : option Q;
  cursorEl : bool;
  flowSlide : option Rect;
  flowText : bool;
  progressThumb : bool
}.

(** The refs of the component. *)
Record Page : Type := mkPage {
  state : AnimationState;
  mouse : Point;
  cursor : Point
}.

Definition initialState : AnimationState :=
  {| currentX := 0; targetX := 0; maxScroll := 0; skew := 0 |}.

Definition initialPage : Page :=
  {| state := initialState;
     mouse := {| x := 0; y := 0 |};
     cursor := {| x := 0; y := 0 |} |}.

(** [onMouseMove]. *)
Definition onMouseMove (clientX clientY : Q) (p : Page) : Page :=
  {| state := state p;
     mouse := {| x := clientX; y := clientY |};
     cursor := cursor p |}.

(** [calculateLayout]:
<<
    if (containerRef.current) {
      const viewportWidth = window.innerWidth;
      const totalContainerWidth = containerRef.current.scrollWidth;
      state.current.maxScroll = totalContainerWidth - viewportWidth;
      setWindowWidth(viewportWidth);
    }
>>
    [setWindowWidth] sets a React state that nothing reads (it only asks
    for a re-render); it is no part of the animation state. *)
Definition calculateLayout (dom : Dom) (s : AnimationState)
  : AnimationState :=
  match container dom with
  | Some totalContainerWidth =>
      let viewportWidth := innerWidth dom in
      {| currentX := currentX s;
         targetX := targetX s;
         maxScroll := totalContainerWidth - viewportWidth;
         skew := skew s |}
  | None => s
  end.

(** [handleWheel]:
<<
    state.current.targetX += e.deltaY;
    state.current.targetX = Math.max(0,
      Math.min(state.current.targetX, state.current.maxScroll));
>> *)
Definition handleWheel (deltaY : Q) (s : AnimationState)
  : AnimationState :=
  let targetX1 := targetX s + deltaY in
  {| currentX := currentX s;
     targetX := Qmax 0 (Qmin targetX1 (maxScroll s));
     maxScroll := maxScroll s;
     skew := skew s |}.

(** The zoom of a frame, from the eased position and the viewport. *)
Definition zoomLevel (currentX innerWidth : Q) : Q :=
  let zoomProgress := Qmin (Qabs currentX / (innerWidth * 0.25)) 1 in
  1.5 - zoomProgress * 0.5.

(** Step D of a frame: the thumb's [translateX], when it is written. *)
Definition progressBar (thumb : bool) (currentX maxScroll : Q)
  : option Q :=
  if thumb && negb (Qle_bool maxScroll 0) then
    let scrollPercentage := Qmin (Qmax (currentX / maxScroll) 0) 1 in
    let thumbPos := scrollPercentage * 224 in
    Some thumbPos
  else None.

(** Step C of a frame: the parallax text's [translateX]. *)
Definition flowParallax (dom : Dom) : option Q :=
  match flowSlide dom, flowText dom with
  | Some slideRect, true =>
      let viewportWidth := innerWidth dom in
      if negb (Qle_bool (right slideRect) 0)
         && negb (Qle_bool viewportWidth (left slideRect))
      then
        let offset :=
          viewportWidth - (left slideRect + width slideRect / 2) in
        Some (- offset * 0.2)
      else None
  | _, _ => None
  end.

(** The styles one frame writes.  [containerTransform] holds the
    arguments of [translate3d(_px, 0, 0) scale(_) skewX(_deg)]. *)
Record Frame : Type := mkFrame {
  containerTransform : option (Q * Q * Q);
  cursorTransform : option (Q * Q);
  flowTextTransform : option Q;
  thumbTransform : option Q
}.

(** One call of [animate] (the body before it reschedules itself). *)
Definition animate (dom : Dom) (p : Page) : Page * Frame :=
  let s := state p in
  (* A. scroll physics *)
  let currentX1 := lerp (currentX s) (targetX s) 0.05 in
  let velocity := targetX s - currentX1 in
  let targetSkew := velocity * 0.001 in
  let skew1 := lerp (skew s) targetSkew 0.1 in
  let zoom := zoomLevel currentX1 (innerWidth dom) in
  (* B. cursor physics *)
  let cursor1 :=
    {| x := lerp (x (cursor p)) (x (mouse p)) 0.15;
       y := lerp (y (cursor p)) (y (mouse p)) 0.15 |} in
  ({| state := {| currentX := currentX1;
                  targetX := targetX s;
                  maxScroll := maxScroll s;
                  skew := skew1 |};
      mouse := mouse p;
      cursor := cursor1 |},
   {| containerTransform :=
        match container dom with
        | Some _ => Some (- currentX1, zoom, skew1)
        | None => None
        end;
      cursorTransform :=
        if cursorEl dom then Some (x cursor1, y cursor1) else None;
      flowTextTransform := flowParallax dom;
      thumbTransform :=
        progressBar (progressThumb dom) currentX1 (maxScroll s) |}).

(** The events of the page, each with the DOM as it is when the handler
    runs.  [Layout] is a call of [calculateLayout] (a resize event or one
    of the two timers). *)
Inductive Event : Type :=
| MouseMove (clientX clientY : Q)
| Layout (dom : Dom)
| Wheel (deltaY : Q)
| Tick (dom : Dom).

Definition withState (f : AnimationState -> AnimationState) (p : Page)
  : Page :=
  {| state := f (state p); mouse := mouse p; cursor := cursor p |}.

Definition step (p : Page) (e : Event) : Page :=
  match e with
  | MouseMove cx cy => onMouseMove cx cy p
  | Layout dom => withState (calculateLayout dom) p
  | Wheel deltaY => withState (handleWheel deltaY) p
  | Tick dom => fst (animate dom p)
  end.

Definition run (events : list Event) (p : Page) : Page :=
  fold_left step events p.

(** The pages the component can be in. *)
Inductive reachable : Page -> Prop :=
| reachable_initial : reachable initialPage
| reachable_step p e : reachable p -> reachable (step p e).

(** The animation state's invariant as the data model words it. *)
Definition scrollInvariant (s : AnimationState) : Prop :=
  0 <= targetX s /\ targetX s <= maxScroll s /\ 0 <= maxScroll s.

(** The targets a sequence of wheel events goes through. *)
Fixpoint wheelPath (deltas : list Q) (s : AnimationState) : list Q :=
  match deltas with
  | [] => []
  | d :: ds =>
      let s' := handleWheel d s in targetX s' :: wheelPath ds s'
  end.

End Part000.

(** ** src/App.tsx *)
Module AppTsx.

(** [interface AnimationState] (this variant has no skew). *)
Record AnimationState : Type := mkAnimationState {
  currentX : Q;
  targetX : Q;
  maxScroll : Q
}.

Record Rect : Type := mkRect { left : Q; right : Q; width : Q }.

Record Dom : Type := mkDom {
  innerWidth : Q;
  container : option Q;
  cursorEl : bool;
  flowSlide : option Rect;
  flowText : bool;
  progressThumb : bool
}.

Definition initialState : AnimationState :=
  {| currentX := 0; targetX := 0; maxScroll := 0 |}.

(** [moveCursor]: the cursor element follows the pointer at once; the
    result is the [translate(_px, _px)] it writes. *)
Definition moveCursor (dom : Dom) (clientX clientY : Q) : option (Q * Q) :=
  if cursorEl dom then Some (clientX, clientY) else None.

(** [calculateLayout], as in part_000. *)
Definition calculateLayout (dom : Dom) (s : AnimationState)
  : AnimationState :=
  match container dom with
  | Some totalContainerWidth =>
      let viewportWidth := innerWidth dom in
      {| currentX := currentX s;
         targetX := targetX s;
         maxScroll := totalContainerWidth - viewportWidth |}
  | None => s
  end.

(** [handleWheel], as in part_000. *)
Definition handleWheel (deltaY : Q) (s : AnimationState)
  : AnimationState :=
  let targetX1 := targetX s + deltaY in
  {| currentX := currentX s;
     targetX := Qmax 0 (Qmin targetX1 (maxScroll s));
     maxScroll := maxScroll s |}.

Definition zoomLevel (currentX innerWidth : Q) : Q :=
  let zoomProgress := Qmin (Qabs currentX / (innerWidth * 0.25)) 1 in
  1.5 - zoomProgress * 0.5.

Definition progressBar (thumb : bool) (currentX maxScroll : Q)
  : option Q :=
  if thumb && negb (Qle_bool maxScroll 0) then
    let scrollPercentage := Qmin (Qmax (currentX / maxScroll) 0) 1 in
    let thumbPos := scrollPercentage * 224 in
    Some thumbPos
  else None.

Definition flowParallax (dom : Dom) : option Q :=
  match flowSlide dom, flowText dom with
  | Some slideRect, true =>
      let viewportWidth := innerWidth dom in
      if negb (Qle_bool (right slideRect) 0)
         && negb (Qle_bool viewportWidth (left slideRect))
      then
        let offset :=
          viewportWidth - (left slideRect + width slideRect / 2) in
        Some (- offset * 0.25)
      else None
  | _, _ => None
  end.

(** [containerTransform]: the arguments of
    [translate3d(_px, 0, 0) scale(_)]. *)
Record Frame : Type := mkFrame {
  containerTransform : option (Q * Q);
  flowTextTransform : option Q;
  thumbTransform : option Q
}.

(** One call of [animate]:
<<
      state.current.currentX +=
        (state.current.targetX - state.current.currentX) * 0.08;
>> *)
Definition animate (dom : Dom) (s : AnimationState)
  : AnimationState * Frame :=
  let currentX1 := currentX s + (targetX s - currentX s) * 0.08 in
  let zoom := zoomLevel currentX1 (innerWidth dom) in
  ({| currentX := currentX1;
      targetX := targetX s;
      maxScroll := maxScroll s |},
   {| containerTransform :=
        match container dom with
        | Some _ => Some (- currentX1, zoom)
        | None => None
        end;
      flowTextTransform := flowParallax dom;
      thumbTransform :=
        progressBar (progressThumb dom) currentX1 (maxScroll s) |}).

Inductive Event : Type :=
| Layout (dom : Dom)
| Wheel (deltaY : Q)
| Tick (dom : Dom).

Definition step (s : AnimationState) (e : Event) : AnimationState :=
  match e with
  | Layout dom => calculateLayout dom s
  | Wheel deltaY => handleWheel deltaY s
  | Tick dom => fst (animate dom s)
  end.

Fixpoint wheelPath (deltas : list Q) (s : AnimationState) : list Q :=
  match deltas with
  | [] => []
  | d :: ds =>
      let s' := handleWheel d s in targetX s' :: wheelPath ds s'
  end.

End AppTsx.

(** ** unnamed/part_001 (responsive variant) *)
Module Part001.

Record AnimationState : Type := mkAnimationState {
  currentX : Q;
  targetX : Q;
  maxScroll : Q;
  skew : Q
}.

Record Point : Type := mkPoint { x : Q; y : Q }.

Record Rect : Type := mkRect { left : Q; right : Q; width : Q }.

Record Dom : Type := mkDom {
  innerWidth : Q;
  container : option Q;
  cursorEl : bool;
  flowSlide : option Rect;
  flowText : bool;
  progressThumb : bool
}.

Record Page : Type := mkPage {
  state : AnimationState;
  mouse : Point;
  cursor : Point
}.

Definition initialState : AnimationState :=
  {| currentX := 0; targetX := 0; maxScroll := 0; skew := 0 |}.

Definition initialPage : Page :=
  {| state := initialState;
     mouse := {| x := 0; y := 0 |};
     cursor := {| x := 0; y := 0 |} |}.

(** [window.innerWidth >= 1024]: the horizontal (desktop) mode. *)
Definition horizontal (innerWidth : Q) : bool := Qle_bool 1024 innerWidth.

Definition onMouseMove (clientX clientY : Q) (p : Page) : Page :=
  {| state := state p;
     mouse := {| x := clientX; y := clientY |};
     cursor := cursor p |}.

(** [calculateLayout]:
<<
      if (containerRef.current && window.innerWidth >= 1024) {
        state.current.maxScroll =
          containerRef.current.scrollWidth - window.innerWidth;
      }
>> *)
Definition calculateLayout (dom : Dom) (s : AnimationState)
  : AnimationState :=
  match container dom with
  | Some scrollWidth =>
      if horizontal (innerWidth dom) then
        {| currentX := currentX s;
           targetX := targetX s;
           maxScroll := scrollWidth - innerWidth dom;
           skew := skew s |}
      else s
  | None => s
  end.

(** [handleWheel]:
<<
      if (window.innerWidth < 1024) return;
      e.preventDefault();
      state.current.targetX += e.deltaY;
      state.current.targetX = Math.max(0,
        Math.min(state.current.targetX, state.current.maxScroll));
>> *)
Definition handleWheel (innerWidth deltaY : Q) (s : AnimationState)
  : AnimationState :=
  if negb (Qle_bool 1024 innerWidth) then s
  else
    let targetX1 := targetX s + deltaY in
    {| currentX := currentX s;
       targetX := Qmax 0 (Qmin targetX1 (maxScroll s));
       maxScroll := maxScroll s;
       skew := skew s |}.

Definition zoomLevel (currentX innerWidth : Q) : Q :=
  let zoomProgress := Qmin (Qabs currentX / (innerWidth * 0.25)) 1 in
  1.5 - zoomProgress * 0.5.

Definition progressBar (thumb : bool) (currentX maxScroll : Q)
  : option Q :=
  if thumb && negb (Qle_bool maxScroll 0) then
    let scrollPercentage := Qmin (Qmax (currentX / maxScroll) 0) 1 in
    Some (scrollPercentage * 224)
  else None.

Definition flowParallax (dom : Dom) : option Q :=
  match flowSlide dom, flowText dom with
  | Some slideRect, true =>
      let viewportWidth := innerWidth dom in
      if negb (Qle_bool (right slideRect) 0)
         && negb (Qle_bool viewportWidth (left slideRect))
      then
        let offset :=
          viewportWidth - (left slideRect + width slideRect / 2) in
        Some (- offset * 0.2)
      else None
  | _, _ => None
  end.

(** What a frame writes to [containerRef.current.style.transform]. *)
Inductive Transform : Type :=
| Transformed (translateX scale skewX : Q)
| TransformNone.

Record Frame : Type := mkFrame {
  containerTransform : option Transform;
  cursorTransform : option (Q * Q);
  flowTextTransform : option Q;
  thumbTransform : option Q
}.

(** One call of [animate]: the horizontal engine runs only at or above
    the breakpoint; below it the container's transform is reset. *)
Definition animate (dom : Dom) (p : Page) : Page * Frame :=
  let s := state p in
  let cursor1 :=
    {| x := lerp (x (cursor p)) (x (mouse p)) 0.25;
       y := lerp (y (cursor p)) (y (mouse p)) 0.25 |} in
  let cursorT :=
    if cursorEl dom then Some (x cursor1, y cursor1) else None in
  if horizontal (innerWidth dom) then
    let currentX1 := lerp (currentX s) (targetX s) 0.05 in
    let velocity := targetX s - currentX1 in
    let targetSkew := velocity * 0.001 in
    let skew1 := lerp (skew s) targetSkew 0.1 in
    let zoom := zoomLevel currentX1 (innerWidth dom) in
    ({| state := {| currentX := currentX1;
                    targetX := targetX s;
                    maxScroll := maxScroll s;
                    skew := skew1 |};
        mouse := mouse p;
        cursor := cursor1 |},
     {| containerTransform :=
          match container dom with
          | Some _ => Some (Transformed (- currentX1) zoom skew1)
          | None => None
          end;
        cursorTransform := cursorT;
        flowTextTransform := flowParallax dom;
        thumbTransform :=
          progressBar (progressThumb dom) currentX1 (maxScroll s) |})
  else
    ({| state := s; mouse := mouse p; cursor := cursor1 |},
     {| containerTransform :=
          match container dom with
          | Some _ => Some TransformNone
          | None => None
          end;
        cursorTransform := cursorT;
        flowTextTransform := flowParallax dom;
        thumbTransform := None |}).

(** Events; a wheel event comes with the viewport width of its time. *)
Inductive Event : Type :=
| MouseMove (clientX clientY : Q)
| Layout (dom : Dom)
| Wheel (innerWidth deltaY : Q)
| Tick (dom : Dom).

Definition withState (f : AnimationState -> AnimationState) (p : Page)
  : Page :=
  {| state := f (state p); mouse := mouse p; cursor := cursor p |}.

Definition step (p : Page) (e : Event) : Page :=
  match e with
  | MouseMove cx cy => onMouseMove cx cy p
  | Layout dom => withState (calculateLayout dom) p
  | Wheel w deltaY => withState (handleWheel w deltaY) p
  | Tick dom => fst (animate dom p)
  end.

Definition run (events : list Event) (p : Page) : Page :=
  fold_left step events p.

End Part001.

(** ** The same arithmetic on binary64

    [lerp] and the scroll easing of [animate] with JavaScript's own number
    type.  The literal [0.05] denotes the double nearest to 1/20, written
    here in hexadecimal. *)
Module Binary64.

Local Open Scope float_scope.

Definition lerp (start end_ factor : float) : float :=
  start + (end_ - start) * factor.

(** [0.05] as JavaScript reads it. *)
Definition scrollFactor : float := 0x1.999999999999ap-5.

(** The scroll easing of one frame: [lerp(currentX, targetX, 0.05)]. *)
Definition ease (targetX currentX : float) : float :=
  lerp currentX targetX scrollFactor.

(** [|targetX - currentX|]. *)
Definition distance (targetX currentX : float) : float :=
  abs (targetX - currentX).

End Binary64.

(** ** Binary64 as rounded rationals

    The doubles as the rationals they denote, for statements about every
    input.  An operation returns the double nearest to its exact result
    (IEEE 754 round to nearest, ties to even, with subnormals down to
    [2^-1074]), and nothing when that is beyond [Number.MAX_VALUE], where
    JavaScript yields an infinity.  [rnd q == q] says that [q] is a
    double. *)
Module Double.

(** The exponent of the least positive double, [2^-1074]. *)
Definition emin : Z := -1074.

(** [floor (log2 q)] for a positive rational. *)
Definition ilog2 (q : Q) : Z :=
  let e0 := (Z.log2 (Qnum q) - Z.log2 (Z.pos (Qden q)))%Z in
  if Qle_bool (2 ^ e0) q then e0 else (e0 - 1)%Z.

(** The exponent of the unit in the last place of a positive rational:
    53 significant bits, and no finer than [2^emin]. *)
Definition cexp (q : Q) : Z := Z.max (ilog2 q - 52) emin.

(** The integer nearest to [x]; of two equally near, the even one. *)
Definition rne (x : Q) : Z :=
  let n := Qfloor x in
  match Qcompare (x - inject_Z n) (1 # 2) with
  | Lt => n
  | Gt => (n + 1)%Z
  | Eq => if Z.even n then n else (n + 1)%Z
  end.

Definition roundAt (e : Z) (x : Q) : Q :=
  inject_Z (rne (x / 2 ^ e)) * 2 ^ e.

(** Round to nearest, ties to even, with an unbounded exponent range
    above. *)
Definition rnd (q : Q) : Q :=
  match Qcompare q 0 with
  | Eq => 0
  | Gt => roundAt (cexp q) q
  | Lt => - roundAt (cexp (- q)) (- q)
  end.

(** [Number.MAX_VALUE]. *)
Definition maxValue : Q := (2 ^ 53 - 1) * 2 ^ 971.

(** The result of an operation whose exact value is [q]: the nearest
    double, or nothing when that is beyond the finite range (JavaScript
    then yields an infinity). *)
Definition number (q : Q) : option Q :=
  let r := rnd q in
  if Qle_bool (Qabs r) maxValue then Some r else None.

Definition add (a b : Q) : option Q := number (a + b).
Definition sub (a b : Q) : option Q := number (a - b).
Definition mul (a b : Q) : option Q := number (a * b).

Definition lerp (start end_ factor : Q) : option Q :=
  match sub end_ start with
  | Some d =>
      match mul d factor with
      | Some m => add start m
      | None => None
      end
  | None => None
  end.

(** A magnitude up to which two numbers can be subtracted without
    leaving the finite range. *)
Definition safe : Q := 2 ^ 1022.

(** [n] frames of easing towards a target at rest, each executing
    [state.current.currentX = lerp(currentX, targetX, factor)], the first
    statement of [animate]. *)
Fixpoint ease (target factor : Q) (n : nat) (current : Q) : option Q :=
  match n with
  | O => Some current
  | S k =>
      match lerp current target factor with
      | Some current' => ease target factor k current'
      | None => None
      end
  end.

(** [0.05] as JavaScript reads it: the double nearest to 1/20. *)
Definition scrollFactor : Q := 3602879701896397 # 72057594037927936.

(** The value of a finite kernel float. *)
Definition toQ (x : float) : option Q :=
  match FloatOps.Prim2SF x with
  | SpecFloat.S754_zero _ => Some 0
  | SpecFloat.S754_finite s m e =>
      Some ((if s then -1 else 1) * inject_Z (Z.pos m) * 2 ^ e)
  | _ => None
  end.

Definition sameNumber (a b : option Q) : bool :=
  match a, b with
  | Some x, Some y => Qeq_bool x y
  | None, None => true
  | _, _ => false
  end.

(** Whether this module's [lerp] returns what [Binary64.lerp] returns. *)
Definition agrees (abf : float * float * float) : bool :=
  let '(a, b, f) := abf in
  match toQ a, toQ b, toQ f with
  | Some qa, Some qb, Some qf =>
      sameNumber (lerp qa qb qf) (toQ (Binary64.lerp a b f))
  | _, _, _ => false
  end.

End Double.

(** ** The cursor's hover classes

<<
    const hoverStart = () => {
      if (cursorRef.current) {
        cursorRef.current.classList.remove("w-5", "h-5");
        cursorRef.current.classList.add("w-8", "h-8", "bg-[#ffea02]/50");
      }
    };
    const hoverEnd = () => {
      if (cursorRef.current) {
        cursorRef.current.classList.remove("w-8", "h-8", "bg-[#ffea02]/50");
        cursorRef.current.classList.add("w-5", "h-5");
      }
    };
>>
    A [classList] is a DOM token list: an ordered set of tokens.  [add]
    appends a token unless it is already there, [remove] takes it out.  The
    cursor element is [None] while [cursorRef.current] is null. *)
Module Hover.

Import String.
Local Open Scope string_scope.

Definition ClassList : Type := list string.

Definition add1 (cl : ClassList) (token : string) : ClassList :=
  if in_dec string_dec token cl then cl else (cl ++ [token])%list.

Definition remove1 (cl : ClassList) (token : string) : ClassList :=
  List.remove string_dec token cl.

(** [classList.add(t1, t2, ...)]. *)
Definition add (tokens : list string) (cl : ClassList) : ClassList :=
  fold_left add1 tokens cl.

(** [classList.remove(t1, t2, ...)]. *)
Definition remove (tokens : list string) (cl : ClassList) : ClassList :=
  fold_left remove1 tokens cl.

(** The size classes of part_000 and App.tsx. *)
Definition small : list string := ["w-5"; "h-5"].
Definition large : list string := ["w-8"; "h-8"; "bg-[#ffea02]/50"].

(** The size classes part_001 toggles. *)
Definition small_lg : list string := ["lg:w-5"; "lg:h-5"].
Definition large_lg : list string := ["lg:w-8"; "lg:h-8"; "bg-[#ffea02]/50"].

(** part_000 and App.tsx. *)
Definition hoverStart (cursorRef : option ClassList) : option ClassList :=
  match cursorRef with
  | Some cl => Some (add large (remove small cl))
  | None => None
  end.

Definition hoverEnd (cursorRef : option ClassList) : option ClassList :=
  match cursorRef with
  | Some cl => Some (add small (remove large cl))
  | None => None
  end.

(** part_001. *)
Definition hoverStart_part001 (cursorRef : option ClassList)
  : option ClassList :=
  match cursorRef with
  | Some cl => Some (add large_lg (remove small_lg cl))
  | None => None
  end.

Definition hoverEnd_part001 (cursorRef : option ClassList)
  : option ClassList :=
  match cursorRef with
  | Some cl => Some (add small_lg (remove large_lg cl))
  | None => None
  end.

(** The [className] of the cursor element as the JSX renders it. *)
Definition cursorClassName_part000 : ClassList :=
  ["fixed"; "top-0"; "left-0"; "w-5"; "h-5"; "bg-[#0f0f0f]/20";
   "rounded-full"; "pointer-events-none"; "z-[9999]"].

Definition cursorClassName_AppTsx : ClassList :=
  ["fixed"; "top-0"; "left-0"; "w-5"; "h-5"; "bg-[#0f0f0f]/20";
   "rounded-full"; "pointer-events-none"; "z-[9999]";
   "transition-[width,height,background-color]"; "duration-300";
   "ease-out"].

Definition cursorClassName_part001 : ClassList :=
  ["fixed"; "top-0"; "left-0"; "w-5"; "h-5"; "bg-[#0f0f0f]/20";
   "rounded-full"; "pointer-events-none"; "z-[9999]"; "hidden";
   "lg:block"].

(** A hover: the pointer enters a target, then leaves it. *)
Definition hover (cursorRef : option ClassList) : option ClassList :=
  hoverEnd (hoverStart cursorRef).

Definition hover_part001 (cursorRef : option ClassList)
  : option ClassList :=
  hoverEnd_part001 (hoverStart_part001 cursorRef).

End Hover.

(** ** copyEmail

<<
    const copyEmail = (e) => {
      const btn = e.currentTarget;
      navigator.clipboard.writeText("pmh3853@naver.com").then(() => {
        const originalText = btn.innerText;
        btn.innerText = "Copied";
        btn.style.color = "#0f0f0f";
        setTimeout(() => {
          btn.innerText = "Email";
          btn.style.color = "#0f0f0f";
        }, 2000);
      });
    };
>>
    (part_000 and App.tsx; part_001 is the same without the two colour
    assignments and without [originalText]).  The promise of
    [writeText] and the timer are the host's: a click leaves a write
    pending, a pending write is fulfilled or rejected, a fulfilled write
    leaves a timer pending, a pending timer fires. *)
Module Clipboard.

Import String.
Local Open Scope string_scope.

Record Button : Type := mkButton {
  innerText : string;
  color : string
}.

Record State : Type := mkState {
  btn : Button;
  pendingWrites : nat;
  pendingTimers : nat
}.

Inductive Event : Type :=
| Click
| Fulfilled
| Rejected
| TimerFired.

(** The button as rendered, with nothing in flight. *)
Definition rendered (b : Button) : State :=
  {| btn := b; pendingWrites := 0; pendingTimers := 0 |}.

(** The [then] callback. *)
Definition onFulfilled (b : Button) : Button :=
  {| innerText := "Copied"; color := "#0f0f0f" |}.

(** The timer callback. *)
Definition onTimeout (b : Button) : Button :=
  {| innerText := "Email"; color := "#0f0f0f" |}.

(** A click starts a clipboard write; a fulfilled write runs the [then]
    callback, which relabels the button and starts the 2000ms timer.  The
    promise has no rejection handler: a rejected write changes nothing.
    A write settles, and a timer fires, only while one is pending. *)
Definition step (s : State) (e : Event) : State :=
  match e with
  | Click =>
      {| btn := btn s; pendingWrites := S (pendingWrites s);
         pendingTimers := pendingTimers s |}
  | Fulfilled =>
      match pendingWrites s with
      | O => s
      | S n =>
          {| btn := onFulfilled (btn s); pendingWrites := n;
             pendingTimers := S (pendingTimers s) |}
      end
  | Rejected =>
      match pendingWrites s with
      | O => s
      | S n =>
          {| btn := btn s; pendingWrites := n;
             pendingTimers := pendingTimers s |}
      end
  | TimerFired =>
      match pendingTimers s with
      | O => s
      | S n =>
          {| btn := onTimeout (btn s); pendingWrites := pendingWrites s;
             pendingTimers := n |}
      end
  end.

Definition run (events : list Event) (s : State) : State :=
  fold_left step events s.

End Clipboard.

(** ** Mounting and unmounting

    The listeners, timers and frame request the effects of [App] leave
    with the host.  A listener is a target, an event type and a callback;
    [addEventListener] ignores a listener that is already registered,
    [removeEventListener] takes it out.  The callbacks are the closures of
    one run of the effect; [foreign] stands for any other code's.
    [targets] is what [document.querySelectorAll(".hover-target")] returns
    when [attachHoverEvents] runs. *)
Module Lifecycle.

Inductive EventTarget : Type :=
| Window
| Element (id : nat).

Inductive EventType : Type :=
| mousemove | resize | wheel | mouseenter | mouseleave.

Inductive Callback : Type :=
| onMouseMove
| calculateLayout
| handleWheel
| hoverStart
| hoverEnd
| checkLayout
| foreign (n : nat).

Record Listener : Type := mkListener {
  target : EventTarget;
  type : EventType;
  callback : Callback
}.

Inductive TimerCallback : Type :=
| timerAttachHoverEvents
| timerCalculateLayout
| timerSetIntroLoaded.

Record Host : Type := mkHost {
  listeners : list Listener;
  timers : list (TimerCallback * nat);
  frameRequested : bool
}.

Definition Listener_eq_dec (a b : Listener) : {a = b} + {a <> b}.
Proof. repeat decide equality. Defined.

Definition Timer_eq_dec (a b : TimerCallback * nat) : {a = b} + {a <> b}.
Proof. repeat decide equality. Defined.

Definition isForeign (l : Listener) : bool :=
  match callback l with
  | foreign _ => true
  | _ => false
  end.

Definition addEventListener (l : Listener) (h : Host) : Host :=
  {| listeners :=
       if in_dec Listener_eq_dec l (listeners h)
       then listeners h else listeners h ++ [l];
     timers := timers h;
     frameRequested := frameRequested h |}.

Definition removeEventListener (l : Listener) (h : Host) : Host :=
  {| listeners := List.remove Listener_eq_dec l (listeners h);
     timers := timers h;
     frameRequested := frameRequested h |}.

Definition setTimeout (cb : TimerCallback) (ms : nat) (h : Host) : Host :=
  {| listeners := listeners h;
     timers := timers h ++ [(cb, ms)];
     frameRequested := frameRequested h |}.

Definition requestAnimationFrame (h : Host) : Host :=
  {| listeners := listeners h; timers := timers h;
     frameRequested := true |}.

Definition cancelAnimationFrame (h : Host) : Host :=
  {| listeners := listeners h; timers := timers h;
     frameRequested := false |}.

Definition onEnter (el : nat) : Listener :=
  {| target := Element el; type := mouseenter; callback := hoverStart |}.

Definition onLeave (el : nat) : Listener :=
  {| target := Element el; type := mouseleave; callback := hoverEnd |}.

(** [attachHoverEvents]: the [forEach] over the targets. *)
Definition attachHoverEvents (targets : list nat) (h : Host) : Host :=
  fold_left
    (fun h el => addEventListener (onLeave el) (addEventListener (onEnter el) h))
    targets h.

(** The function [attachHoverEvents] returns. *)
Definition detachHoverEvents (targets : list nat) (h : Host) : Host :=
  fold_left
    (fun h el =>
       removeEventListener (onLeave el) (removeEventListener (onEnter el) h))
    targets h.

Definition onWindow (t : EventType) (cb : Callback) : Listener :=
  {| target := Window; type := t; callback := cb |}.

(** part_000: [useLayoutEffect], then [useEffect]; [animate()] ends by
    requesting the next frame. *)
Definition mount_part000 (h : Host) : Host :=
  let h := setTimeout timerSetIntroLoaded 100 h in
  let h := addEventListener (onWindow mousemove onMouseMove) h in
  let h := setTimeout timerAttachHoverEvents 500 h in
  let h := addEventListener (onWindow resize calculateLayout) h in
  let h := setTimeout timerCalculateLayout 100 h in
  let h := setTimeout timerCalculateLayout 500 h in
  let h := addEventListener (onWindow wheel handleWheel) h in
  requestAnimationFrame h.

(** part_000: the effect's cleanup. *)
Definition unmount_part000 (h : Host) : Host :=
  let h := removeEventListener (onWindow mousemove onMouseMove) h in
  let h := removeEventListener (onWindow resize calculateLayout) h in
  let h := removeEventListener (onWindow wheel handleWheel) h in
  cancelAnimationFrame h.

Fixpoint clearFirst (t : TimerCallback * nat)
  (pending : list (TimerCallback * nat)) : list (TimerCallback * nat) :=
  match pending with
  | [] => []
  | t' :: rest =>
      if Timer_eq_dec t t' then rest else t' :: clearFirst t rest
  end.

(** App.tsx: hover listeners are attached at once, and
    [detachHover] is kept for the cleanup. *)
Definition mount_AppTsx (targets : list nat) (h : Host) : Host :=
  let h := setTimeout timerSetIntroLoaded 100 h in
  let h := addEventListener (onWindow mousemove onMouseMove) h in
  let h := attachHoverEvents targets h in
  let h := addEventListener (onWindow resize calculateLayout) h in
  let h := setTimeout timerCalculateLayout 100 h in
  let h := setTimeout timerCalculateLayout 500 h in
  let h := addEventListener (onWindow wheel handleWheel) h in
  requestAnimationFrame h.

Definition unmount_AppTsx (targets : list nat) (h : Host) : Host :=
  let h := removeEventListener (onWindow mousemove onMouseMove) h in
  let h := removeEventListener (onWindow resize calculateLayout) h in
  let h := removeEventListener (onWindow wheel handleWheel) h in
  let h := cancelAnimationFrame h in
  detachHoverEvents targets h.

(** part_001: the layout effect also listens for [resize] with
    [checkLayout] and removes that listener in its own cleanup. *)
Definition mount_part001 (h : Host) : Host :=
  let h := addEventListener (onWindow resize checkLayout) h in
  let h := setTimeout timerSetIntroLoaded 100 h in
  let h := addEventListener (onWindow mousemove onMouseMove) h in
  let h := setTimeout timerAttachHoverEvents 500 h in
  let h := addEventListener (onWindow resize calculateLayout) h in
  let h := setTimeout timerCalculateLayout 500 h in
  let h := addEventListener (onWindow wheel handleWheel) h in
  requestAnimationFrame h.

Definition unmount_part001 (h : Host) : Host :=
  let h := removeEventListener (onWindow resize checkLayout) h in
  let h := removeEventListener (onWindow mousemove onMouseMove) h in
  let h := removeEventListener (onWindow resize calculateLayout) h in
  let h := removeEventListener (onWindow wheel handleWheel) h in
  cancelAnimationFrame h.

(** The document of part_000 and part_001: the host, and the elements of
    class [hover-target] that are in it.  Every such element is rendered
    by [<App/>] itself (the buttons and links of its slides), so the
    document holds them while the component is mounted and none of them
    once it is unmounted. *)
Record Document : Type := mkDocument {
  host : Host;
  rendered : option (list nat)
}.

(** [document.querySelectorAll(".hover-target")]. *)
Definition querySelectorAll_hoverTarget (d : Document) : list nat :=
  match rendered d with
  | Some els => els
  | None => []
  end.

Definition render_part000 (els : list nat) (d : Document) : Document :=
  {| host := mount_part000 (host d); rendered := Some els |}.

Definition remove_part000 (d : Document) : Document :=
  {| host := unmount_part000 (host d); rendered := None |}.

Definition render_part001 (els : list nat) (d : Document) : Document :=
  {| host := mount_part001 (host d); rendered := Some els |}.

Definition remove_part001 (d : Document) : Document :=
  {| host := unmount_part001 (host d); rendered := None |}.

(** A pending timer fires: it leaves the list, and its callback runs.
    Only [attachHoverEvents] touches the host: it queries the document
    at that moment, and what it returns is dropped.  A timer that is not
    pending does not fire. *)
Definition fire (cb : TimerCallback) (ms : nat) (d : Document)
  : Document :=
  let h := host d in
  if in_dec Timer_eq_dec (cb, ms) (timers h) then
    let h :=
      {| listeners := listeners h;
         timers := clearFirst (cb, ms) (timers h);
         frameRequested := frameRequested h |} in
    {| host :=
         match cb with
         | timerAttachHoverEvents =>
             attachHoverEvents (querySelectorAll_hoverTarget d) h
         | _ => h
         end;
       rendered := rendered d |}
  else d.

End Lifecycle.

(** ** Viewport

    A point of the viewport [[0, W] x [0, H]], and an event whose pointer
    position, if it has one, is such a point. *)
Definition Part000_inViewport (W H : Q) (pt : Part000.Point) : Prop :=
  0 <= Part000.x pt /\ Part000.x pt <= W /\
  0 <= Part000.y pt /\ Part000.y pt <= H.

Definition Part000_pointerInViewport (W H : Q) (e : Part000.Event) : Prop :=
  match e with
  | Part000.MouseMove clientX clientY =>
      0 <= clientX /\ clientX <= W /\ 0 <= clientY /\ clientY <= H
  | _ => True
  end.

(** An event of part_001 that happens while the viewport is narrower than
    the 1024px breakpoint. *)
Definition Part001_belowBreakpoint (e : Part001.Event) : Prop :=
  match e with
  | Part001.MouseMove _ _ => True
  | Part001.Layout dom => Part001.innerWidth dom < 1024
  | Part001.Wheel innerWidth _ => innerWidth < 1024
  | Part001.Tick dom => Part001.innerWidth dom < 1024
  end.

(** * Properties *)

(** ** Order facts on [Q] used throughout *)

Lemma Qle_bool_false (a b : Q) : Qle_bool a b = false -> b < a.
Proof.
  intros H. apply Qnot_le_lt. intros Hle.
  apply Qle_bool_iff in Hle. congruence.
Qed.

Lemma Qle_bool_true (a b : Q) : Qle_bool a b = true -> a <= b.
Proof. apply Qle_bool_iff. Qed.

(** Replaces every [Qmax], [Qmin] by a fresh variable constrained by its
    specification, then calls linear arithmetic. *)
Ltac minmax_lra :=
  repeat match goal with
  | |- context [Qmax ?a ?b] =>
      let H := fresh "Hmax" in
      let m := fresh "m" in
      pose proof (Q.max_spec a b) as H;
      set (m := Qmax a b) in *; clearbody m
  | |- context [Qmin ?a ?b] =>
      let H := fresh "Hmin" in
      let m := fresh "m" in
      pose proof (Q.min_spec a b) as H;
      set (m := Qmin a b) in *; clearbody m
  | _ : context [Qmax ?a ?b] |- _ =>
      let H := fresh "Hmax" in
      let m := fresh "m" in
      pose proof (Q.max_spec a b) as H;
      set (m := Qmax a b) in *; clearbody m
  | _ : context [Qmin ?a ?b] |- _ =>
      let H := fresh "Hmin" in
      let m := fresh "m" in
      pose proof (Q.min_spec a b) as H;
      set (m := Qmin a b) in *; clearbody m
  end;
  lra.

Lemma clamp_range (x lo hi : Q) :
  lo <= hi -> lo <= clamp x lo hi /\ clamp x lo hi <= hi.
Proof. intros H. unfold clamp. split; minmax_lra. Qed.

Lemma clamp_cases (x lo hi : Q) :
  lo <= hi ->
  (x < lo -> clamp x lo hi == lo) /\
  (lo <= x -> x <= hi -> clamp x lo hi == x) /\
  (hi < x -> clamp x lo hi == hi).
Proof. intros H. unfold clamp. repeat split; intros; minmax_lra. Qed.

Lemma clamp_lower (x lo hi : Q) : lo <= clamp x lo hi.
Proof. unfold clamp. minmax_lra. Qed.

Lemma clamp_empty (x lo hi : Q) : hi < lo -> clamp x lo hi == lo.
Proof. intros H. unfold clamp. minmax_lra. Qed.

Lemma clamp_upper (x lo hi : Q) : clamp x lo hi <= Qmax lo hi.
Proof.
  unfold clamp. minmax_lra.
Qed.

(** ** Wheel handling *)

Lemma Part000_handleWheel_target (d : Q) (s : Part000.AnimationState) :
  Part000.targetX (Part000.handleWheel d s)
  = clamp (Part000.targetX s + d) 0 (Part000.maxScroll s).
Proof. reflexivity. Qed.

Lemma AppTsx_handleWheel_target (d : Q) (s : AppTsx.AnimationState) :
  AppTsx.targetX (AppTsx.handleWheel d s)
  = clamp (AppTsx.targetX s + d) 0 (AppTsx.maxScroll s).
Proof. reflexivity. Qed.

Lemma Part001_handleWheel_target (w d : Q) (s : Part001.AnimationState) :
  Part001.targetX (Part001.handleWheel w d s)
  = if Part001.horizontal w
    then clamp (Part001.targetX s + d) 0 (Part001.maxScroll s)
    else Part001.targetX s.
Proof.
  unfold Part001.handleWheel, Part001.horizontal.
  destruct (Qle_bool 1024 w); reflexivity.
Qed.

(** C3: a wheel event of vertical delta [d] sets [targetX] to
    [clamp(previous + d, 0, maxScroll)] (part_000 and App.tsx): the sum
    itself when it lies in [[0, maxScroll]], the nearer end of the
    interval otherwise; from target 0 with [maxScroll = 500] the deltas
    100, 600, -50 give the targets 100, 500, 450. *)
Theorem C3_handleWheel_clamps_target :
  (forall d s,
      Part000.targetX (Part000.handleWheel d s)
      = clamp (Part000.targetX s + d) 0 (Part000.maxScroll s)) /\
  (forall d s,
      AppTsx.targetX (AppTsx.handleWheel d s)
      = clamp (AppTsx.targetX s + d) 0 (AppTsx.maxScroll s)) /\
  (forall d s,
      0 <= Part000.maxScroll s ->
      let t := Part000.targetX s + d in
      let t' := Part000.targetX (Part000.handleWheel d s) in
      (t < 0 -> t' == 0) /\
      (0 <= t -> t <= Part000.maxScroll s -> t' == t) /\
      (Part000.maxScroll s < t -> t' == Part000.maxScroll s)) /\
  (forall d s,
      0 <= AppTsx.maxScroll s ->
      let t := AppTsx.targetX s + d in
      let t' := AppTsx.targetX (AppTsx.handleWheel d s) in
      (t < 0 -> t' == 0) /\
      (0 <= t -> t <= AppTsx.maxScroll s -> t' == t) /\
      (AppTsx.maxScroll s < t -> t' == AppTsx.maxScroll s)) /\
  (forall c k,
      Part000.wheelPath [100; 600; -50]
        {| Part000.currentX := c; Part000.targetX := 0;
           Part000.maxScroll := 500; Part000.skew := k |}
      = [100; 500; 450]) /\
  (forall c,
      AppTsx.wheelPath [100; 600; -50]
        {| AppTsx.currentX := c; AppTsx.targetX := 0;
           AppTsx.maxScroll := 500 |}
      = [100; 500; 450]).
Proof.
  split; [exact Part000_handleWheel_target|].
  split; [exact AppTsx_handleWheel_target|].
  split.
  { intros d s Hm t t'. subst t t'.
    rewrite Part000_handleWheel_target. now apply clamp_cases. }
  split.
  { intros d s Hm t t'. subst t t'.
    rewrite AppTsx_handleWheel_target. now apply clamp_cases. }
  split; intros; reflexivity.
Qed.

(** The second event of the C3 run, on its own: 100 + 600 exceeds the
    bound 500 and is cut back to it. *)
Lemma C3_witness :
  Part000.targetX
    (Part000.handleWheel 600
       {| Part000.currentX := 0; Part000.targetX := 100;
          Part000.maxScroll := 500; Part000.skew := 0 |}) == 500.
Proof.
  apply (proj1 (proj2 (proj2 C3_handleWheel_clamps_target)) 600
           {| Part000.currentX := 0; Part000.targetX := 100;
              Part000.maxScroll := 500; Part000.skew := 0 |});
    simpl; lra.
Defined.

(** C10 (amended): with a negative [maxScroll], every wheel event the
    handler processes sets [targetX] to exactly 0 whatever its delta; the
    responsive variant processes a wheel event only at 1024px or wider and
    otherwise leaves [targetX] as it is. *)
Theorem C10_negative_bound_pins_target
  (d w : Q) (s0 : Part000.AnimationState) (sA : AppTsx.AnimationState)
  (s1 : Part001.AnimationState) :
  Part000.maxScroll s0 < 0 ->
  AppTsx.maxScroll sA < 0 ->
  Part001.maxScroll s1 < 0 ->
  Part000.targetX (Part000.handleWheel d s0) == 0 /\
  AppTsx.targetX (AppTsx.handleWheel d sA) == 0 /\
  Part001.targetX (Part001.handleWheel w d s1)
  == (if Part001.horizontal w then 0 else Part001.targetX s1).
Proof.
  intros H0 HA H1.
  rewrite Part000_handleWheel_target, AppTsx_handleWheel_target,
    Part001_handleWheel_target.
  repeat split; try now apply clamp_empty.
  destruct (Part001.horizontal w); [now apply clamp_empty | reflexivity].
Qed.

Lemma C10_witness :
  Part000.targetX
    (Part000.handleWheel 70
       {| Part000.currentX := 0; Part000.targetX := 0;
          Part000.maxScroll := -15; Part000.skew := 0 |}) == 0.
Proof.
  refine (proj1 (C10_negative_bound_pins_target 70 1200
     {| Part000.currentX := 0; Part000.targetX := 0;
        Part000.maxScroll := -15; Part000.skew := 0 |}
     {| AppTsx.currentX := 0; AppTsx.targetX := 0;
        AppTsx.maxScroll := -15 |}
     {| Part001.currentX := 0; Part001.targetX := 0;
        Part001.maxScroll := -15; Part001.skew := 0 |} _ _ _));
    simpl; lra.
Defined.

(** C10 as stated fails in the responsive variant.  The page is first
    laid out 1200px wide over 3000px of content, scrolled by 300, laid out
    again when the content has shrunk to 1100px, and then narrowed to
    800px: [maxScroll] is negative, and the next wheel event leaves
    [targetX] at 300. *)
Lemma C10_counterexample_below_breakpoint :
  let dom w sw :=
    {| Part001.innerWidth := w; Part001.container := Some sw;
       Part001.cursorEl := true; Part001.flowSlide := None;
       Part001.flowText := true; Part001.progressThumb := true |} in
  let p :=
    Part001.run
      [Part001.Layout (dom 1200 3000); Part001.Wheel 1200 300;
       Part001.Layout (dom 1200 1100); Part001.Layout (dom 800 1100)]
      Part001.initialPage in
  Part001.maxScroll (Part001.state p) < 0 /\
  Part001.targetX (Part001.state (Part001.step p (Part001.Wheel 800 50)))
  == 300 /\
  ~ Part001.targetX (Part001.state (Part001.step p (Part001.Wheel 800 50)))
    == 0.
Proof.
  vm_compute. repeat split; discriminate.
Qed.

(** ** Layout measurement *)

Lemma Part000_calculateLayout_maxScroll dom s :
  Part000.maxScroll (Part000.calculateLayout dom s)
  = match Part000.container dom with
    | Some contentWidth => contentWidth - Part000.innerWidth dom
    | None => Part000.maxScroll s
    end.
Proof.
  unfold Part000.calculateLayout.
  destruct (Part000.container dom); reflexivity.
Qed.

Lemma AppTsx_calculateLayout_maxScroll dom s :
  AppTsx.maxScroll (AppTsx.calculateLayout dom s)
  = match AppTsx.container dom with
    | Some contentWidth => contentWidth - AppTsx.innerWidth dom
    | None => AppTsx.maxScroll s
    end.
Proof.
  unfold AppTsx.calculateLayout.
  destruct (AppTsx.container dom); reflexivity.
Qed.

Lemma Part001_calculateLayout_maxScroll dom s :
  Part001.maxScroll (Part001.calculateLayout dom s)
  = match Part001.container dom with
    | Some contentWidth =>
        if Part001.horizontal (Part001.innerWidth dom)
        then contentWidth - Part001.innerWidth dom
        else Part001.maxScroll s
    | None => Part001.maxScroll s
    end.
Proof.
  unfold Part001.calculateLayout.
  destruct (Part001.container dom);
    [destruct (Part001.horizontal _)|]; reflexivity.
Qed.

(** C1 (amended): a layout measurement that finds the container (and, in
    the responsive variant, a viewport of 1024px or more) sets [maxScroll]
    to [contentWidth - viewportWidth] with no clamping, so the result is
    negative exactly when the content is narrower than the viewport; any
    other measurement leaves [maxScroll] as it was. *)
Theorem C1_calculateLayout_sets_difference :
  (forall dom s,
      Part000.maxScroll (Part000.calculateLayout dom s)
      = match Part000.container dom with
        | Some contentWidth => contentWidth - Part000.innerWidth dom
        | None => Part000.maxScroll s
        end) /\
  (forall dom s,
      AppTsx.maxScroll (AppTsx.calculateLayout dom s)
      = match AppTsx.container dom with
        | Some contentWidth => contentWidth - AppTsx.innerWidth dom
        | None => AppTsx.maxScroll s
        end) /\
  (forall dom s,
      Part001.maxScroll (Part001.calculateLayout dom s)
      = match Part001.container dom with
        | Some contentWidth =>
            if Part001.horizontal (Part001.innerWidth dom)
            then contentWidth - Part001.innerWidth dom
            else Part001.maxScroll s
        | None => Part001.maxScroll s
        end) /\
  (forall dom s contentWidth,
      Part000.container dom = Some contentWidth ->
      (Part000.maxScroll (Part000.calculateLayout dom s) < 0
       <-> contentWidth < Part000.innerWidth dom)) /\
  (forall dom s contentWidth,
      AppTsx.container dom = Some contentWidth ->
      (AppTsx.maxScroll (AppTsx.calculateLayout dom s) < 0
       <-> contentWidth < AppTsx.innerWidth dom)) /\
  (forall dom s contentWidth,
      Part001.container dom = Some contentWidth ->
      1024 <= Part001.innerWidth dom ->
      (Part001.maxScroll (Part001.calculateLayout dom s) < 0
       <-> contentWidth < Part001.innerWidth dom)).
Proof.
  split; [exact Part000_calculateLayout_maxScroll|].
  split; [exact AppTsx_calculateLayout_maxScroll|].
  split; [exact Part001_calculateLayout_maxScroll|].
  split; [|split].
  - intros dom s cw H.
    rewrite Part000_calculateLayout_maxScroll, H. split; lra.
  - intros dom s cw H.
    rewrite AppTsx_calculateLayout_maxScroll, H. split; lra.
  - intros dom s cw H Hw.
    rewrite Part001_calculateLayout_maxScroll, H.
    unfold Part001.horizontal.
    apply Qle_bool_iff in Hw. rewrite Hw. split; lra.
Qed.

(** A 1200px viewport over 800px of content. *)
Lemma C1_witness :
  Part000.maxScroll
    (Part000.calculateLayout
       {| Part000.innerWidth := 1200; Part000.container := Some 800;
          Part000.cursorEl := true; Part000.flowSlide := None;
          Part000.flowText := true; Part000.progressThumb := true |}
       Part000.initialState) < 0.
Proof.
  apply (proj1 (proj2 (proj2 (proj2 C1_calculateLayout_sets_difference)))
           {| Part000.innerWidth := 1200; Part000.container := Some 800;
              Part000.cursorEl := true; Part000.flowSlide := None;
              Part000.flowText := true; Part000.progressThumb := true |}
           Part000.initialState 800 eq_refl).
  simpl. lra.
Defined.

(** C1 as stated fails: measuring 800px of content in a 1200px viewport
    stores -400, not [max(0, -400) = 0]. *)
Lemma C1_counterexample_narrow_content :
  let s :=
    Part000.calculateLayout
      {| Part000.innerWidth := 1200; Part000.container := Some 800;
         Part000.cursorEl := true; Part000.flowSlide := None;
         Part000.flowText := true; Part000.progressThumb := true |}
      Part000.initialState in
  Part000.maxScroll s == -400 /\
  Part000.maxScroll s < 0 /\
  ~ Part000.maxScroll s == Qmax 0 (800 - 1200).
Proof.
  vm_compute. repeat split; discriminate.
Qed.

(** C8: [calculateLayout] writes [maxScroll] and nothing else: [targetX],
    [currentX] and [skew] are those of the state it was called on (part_000
    and the responsive variant; App.tsx, whose state has no skew, likewise),
    and the pointer and cursor coordinates of the page are untouched. *)
Theorem C8_calculateLayout_frame :
  (forall dom s,
      let s' := Part000.calculateLayout dom s in
      Part000.targetX s' = Part000.targetX s /\
      Part000.currentX s' = Part000.currentX s /\
      Part000.skew s' = Part000.skew s) /\
  (forall dom s,
      let s' := Part001.calculateLayout dom s in
      Part001.targetX s' = Part001.targetX s /\
      Part001.currentX s' = Part001.currentX s /\
      Part001.skew s' = Part001.skew s) /\
  (forall dom s,
      let s' := AppTsx.calculateLayout dom s in
      AppTsx.targetX s' = AppTsx.targetX s /\
      AppTsx.currentX s' = AppTsx.currentX s) /\
  (forall dom p,
      let p' := Part000.step p (Part000.Layout dom) in
      Part000.mouse p' = Part000.mouse p /\
      Part000.cursor p' = Part000.cursor p) /\
  (forall dom p,
      let p' := Part001.step p (Part001.Layout dom) in
      Part001.mouse p' = Part001.mouse p /\
      Part001.cursor p' = Part001.cursor p).
Proof.
  repeat split.
  all: try (unfold Part000.calculateLayout;
            destruct (Part000.container dom); reflexivity).
  all: try (unfold AppTsx.calculateLayout;
            destruct (AppTsx.container dom); reflexivity).
  all: unfold Part001.calculateLayout;
    destruct (Part001.container dom);
    [destruct (Part001.horizontal _)|]; reflexivity.
Qed.

(** ** The scroll invariant over the executions of part_000 *)

Lemma Part000_run_reachable events p :
  Part000.reachable p -> Part000.reachable (Part000.run events p).
Proof.
  revert p. induction events as [|e events IH]; intros p Hp.
  - exact Hp.
  - simpl. apply IH. now constructor.
Qed.

Lemma Part000_calculateLayout_target dom s :
  Part000.targetX (Part000.calculateLayout dom s) = Part000.targetX s.
Proof.
  unfold Part000.calculateLayout.
  destruct (Part000.container dom); reflexivity.
Qed.

(** A frame reads [targetX] and [maxScroll] and writes neither. *)
Lemma Part000_animate_bounds dom p :
  let s' := Part000.state (fst (Part000.animate dom p)) in
  Part000.targetX s' = Part000.targetX (Part000.state p) /\
  Part000.maxScroll s' = Part000.maxScroll (Part000.state p).
Proof. split; reflexivity. Qed.

Lemma Part000_target_nonneg_step p e :
  0 <= Part000.targetX (Part000.state p) ->
  0 <= Part000.targetX (Part000.state (Part000.step p e)).
Proof.
  intros H. destruct e as [cx cy | dom | d | dom]; simpl.
  - exact H.
  - now rewrite Part000_calculateLayout_target.
  - apply clamp_lower.
  - exact H.
Qed.

Lemma Part000_target_nonneg p :
  Part000.reachable p -> 0 <= Part000.targetX (Part000.state p).
Proof.
  induction 1 as [|p e Hp IH].
  - simpl. lra.
  - now apply Part000_target_nonneg_step.
Qed.

Lemma Part000_handleWheel_invariant d s :
  0 <= Part000.maxScroll s ->
  Part000.scrollInvariant (Part000.handleWheel d s).
Proof.
  intros Hm. unfold Part000.scrollInvariant.
  rewrite Part000_handleWheel_target. simpl Part000.maxScroll.
  pose proof (clamp_range (Part000.targetX s + d) 0 (Part000.maxScroll s) Hm).
  tauto.
Qed.

(** C2 (amended): [0 <= targetX] holds in every reachable state of the
    page.  A wheel event leaves [0 <= targetX <= max(0, maxScroll)], hence
    the whole invariant [0 <= targetX <= maxScroll], [maxScroll >= 0] when
    it is handled under a non-negative [maxScroll]; an animation tick and a
    pointer move change neither [targetX] nor [maxScroll] and so preserve
    the invariant.  (A layout measurement does not re-clamp [targetX].) *)
Theorem C2_scroll_invariant :
  (forall p, Part000.reachable p -> 0 <= Part000.targetX (Part000.state p)) /\
  (forall d s,
      let s' := Part000.handleWheel d s in
      0 <= Part000.targetX s' /\
      Part000.targetX s' <= Qmax 0 (Part000.maxScroll s')) /\
  (forall d s,
      0 <= Part000.maxScroll s ->
      Part000.scrollInvariant (Part000.handleWheel d s)) /\
  (forall dom p,
      Part000.scrollInvariant (Part000.state p) ->
      Part000.scrollInvariant
        (Part000.state (Part000.step p (Part000.Tick dom)))) /\
  (forall cx cy p,
      Part000.scrollInvariant (Part000.state p) ->
      Part000.scrollInvariant
        (Part000.state (Part000.step p (Part000.MouseMove cx cy)))).
Proof.
  split; [exact Part000_target_nonneg|].
  split.
  { intros d s s'. subst s'. rewrite Part000_handleWheel_target.
    simpl Part000.maxScroll. split; [apply clamp_lower | apply clamp_upper]. }
  split; [exact Part000_handleWheel_invariant|].
  split; intros; assumption.
Qed.

(** Scrolling by 600 inside a range of 1000. *)
Lemma C2_witness :
  Part000.scrollInvariant
    (Part000.handleWheel 600
       {| Part000.currentX := 0; Part000.targetX := 0;
          Part000.maxScroll := 1000; Part000.skew := 0 |}).
Proof.
  apply (proj1 (proj2 (proj2 C2_scroll_invariant))).
  simpl. lra.
Defined.

(** C2 as stated fails: layout remeasurement does not preserve the
    invariant.  With 2000px of content in a 1000px viewport the page is
    scrolled to 600; widening the viewport to 1500px lowers [maxScroll] to
    500, below [targetX]; in a 2500px viewport [maxScroll] becomes -500. *)
Lemma C2_counterexample_layout_breaks_invariant :
  let dom w :=
    {| Part000.innerWidth := w; Part000.container := Some 2000;
       Part000.cursorEl := true; Part000.flowSlide := None;
       Part000.flowText := true; Part000.progressThumb := true |} in
  let p :=
    Part000.run [Part000.Layout (dom 1000); Part000.Wheel 600]
      Part000.initialPage in
  Part000.reachable p /\
  Part000.scrollInvariant (Part000.state p) /\
  ~ Part000.scrollInvariant
      (Part000.state (Part000.step p (Part000.Layout (dom 1500)))) /\
  ~ 0 <= Part000.maxScroll
           (Part000.state (Part000.step p (Part000.Layout (dom 2500)))).
Proof.
  cbv zeta. split; [|split; [|split]].
  - apply Part000_run_reachable. constructor.
  - vm_compute. repeat split; discriminate.
  - vm_compute. intros (_ & H & _). now apply H.
  - vm_compute. intros H. now apply H.
Qed.

(** ** Reveal *)



(** What a notification does to an observing component depends on the
    first sample of its batch alone. *)
Lemma Reveal_notify_head thr batch s :
  Reveal.observing s = true ->
  Reveal.notify thr s batch
  = if Reveal.headReaches thr batch
    then {| Reveal.isVisible := true; Reveal.observing := false |}
    else s.
Proof.
  intros Ho. unfold Reveal.notify, Reveal.deliver. rewrite Ho.
  destruct batch as [|r rest]; reflexivity.
Qed.

Lemma Reveal_notify_disconnected thr batch s :
  Reveal.observing s = false -> Reveal.notify thr s batch = s.
Proof.
  intros H. unfold Reveal.notify, Reveal.deliver. now rewrite H.
Qed.

(** Once disconnected, the component is deaf to the host. *)
Lemma Reveal_notifications_disconnected thr batches s :
  Reveal.observing s = false -> Reveal.notifications thr batches s = s.
Proof.
  intros H. unfold Reveal.notifications.
  induction batches as [|b batches IH]; simpl; [reflexivity|].
  now rewrite (Reveal_notify_disconnected thr b s H).
Qed.

Lemma Reveal_samples_disconnected thr ratios s :
  Reveal.observing s = false -> Reveal.samples thr ratios s = s.
Proof.
  intros H. unfold Reveal.samples.
  induction ratios as [|r ratios IH]; simpl.
  - reflexivity.
  - replace (Reveal.sample thr s r) with s; [exact IH|].
    unfold Reveal.sample. now rewrite Reveal_notify_disconnected.
Qed.







(** ** Zoom *)

Lemma zoom_quotient_zero (cx d : Q) : cx == 0 -> Qabs cx / d == 0.
Proof.
  intros H. rewrite H. unfold Qdiv. simpl Qabs. ring.
Qed.

Lemma zoom_quotient_ge_one (cx w : Q) :
  0 < w -> 0.25 * w <= cx -> 1 <= Qabs cx / (w * 0.25).
Proof.
  intros Hw H.
  apply Qle_shift_div_l; [lra|].
  rewrite Qabs_pos; lra.
Qed.

Lemma Part000_zoomLevel_formula (cx w : Q) :
  Part000.zoomLevel cx w
  == 1.5 - 0.5 * Qmin (Qabs cx / (0.25 * w)) 1.
Proof.
  unfold Part000.zoomLevel.
  assert (E : Qabs cx / (w * 0.25) == Qabs cx / (0.25 * w)).
  { apply Qdiv_comp; [reflexivity | ring]. }
  destruct (Q.min_spec (Qabs cx / (w * 0.25)) 1) as [[H1 ->] | [H1 ->]];
    destruct (Q.min_spec (Qabs cx / (0.25 * w)) 1) as [[H2 ->] | [H2 ->]];
    lra.
Qed.

Lemma Part000_zoomLevel_range (cx w : Q) :
  0 < w ->
  1.0 <= Part000.zoomLevel cx w /\ Part000.zoomLevel cx w <= 1.5.
Proof.
  intros Hw. unfold Part000.zoomLevel.
  assert (0 <= Qabs cx / (w * 0.25)).
  { apply Qle_shift_div_l; [lra|]. pose proof (Qabs_nonneg cx). lra. }
  split; minmax_lra.
Qed.

Lemma AppTsx_zoomLevel_same (cx w : Q) :
  AppTsx.zoomLevel cx w = Part000.zoomLevel cx w.
Proof. reflexivity. Qed.

(** C6: in a viewport of positive width, the zoom a frame writes is
    [1.5 - 0.5 * min(|currentX| / (0.25 * viewportWidth), 1)] of the
    position the frame has just eased to, and of nothing else (part_000
    and App.tsx); it is 1.5 at [currentX = 0] and 1.0 for every
    [currentX >= 0.25 * viewportWidth]. *)
Theorem C6_zoom_is_function_of_position (w : Q) :
  0 < w ->
  (forall cx,
      Part000.zoomLevel cx w
      == 1.5 - 0.5 * Qmin (Qabs cx / (0.25 * w)) 1) /\
  (forall cx, AppTsx.zoomLevel cx w = Part000.zoomLevel cx w) /\
  (forall cx, cx == 0 -> Part000.zoomLevel cx w == 1.5) /\
  (forall cx, 0.25 * w <= cx -> Part000.zoomLevel cx w == 1.0) /\
  (forall dom p,
      Part000.innerWidth dom = w ->
      let cx := Part000.currentX (Part000.state (fst (Part000.animate dom p))) in
      let sk := Part000.skew (Part000.state (fst (Part000.animate dom p))) in
      Part000.containerTransform (snd (Part000.animate dom p))
      = match Part000.container dom with
        | Some _ => Some (- cx, Part000.zoomLevel cx w, sk)
        | None => None
        end) /\
  (forall dom s,
      AppTsx.innerWidth dom = w ->
      let cx := AppTsx.currentX (fst (AppTsx.animate dom s)) in
      AppTsx.containerTransform (snd (AppTsx.animate dom s))
      = match AppTsx.container dom with
        | Some _ => Some (- cx, AppTsx.zoomLevel cx w)
        | None => None
        end).
Proof.
  intros Hw.
  split; [intros; apply Part000_zoomLevel_formula|].
  split; [reflexivity|].
  split.
  { intros cx H0. unfold Part000.zoomLevel.
    pose proof (zoom_quotient_zero cx (w * 0.25) H0) as E.
    destruct (Q.min_spec (Qabs cx / (w * 0.25)) 1) as [[H1 ->] | [H1 ->]];
      lra. }
  split.
  { intros cx Hcx. unfold Part000.zoomLevel.
    pose proof (zoom_quotient_ge_one cx w Hw Hcx) as E.
    destruct (Q.min_spec (Qabs cx / (w * 0.25)) 1) as [[H1 ->] | [H1 ->]];
      lra. }
  split.
  - intros dom p <-. reflexivity.
  - intros dom s <-. reflexivity.
Qed.

(** A 1600px viewport: the zoom is 1.0 from 400px on. *)
Lemma C6_witness : Part000.zoomLevel 400 1600 == 1.0.
Proof.
  assert (Hw : 0 < 1600) by lra.
  apply (proj1 (proj2 (proj2 (proj2
           (C6_zoom_is_function_of_position 1600 Hw)))) 400).
  lra.
Defined.

(** ** Progress bar *)

Lemma progress_clamp (q : Q) :
  Qmin (Qmax q 0) 1 * 224 == clamp q 0 1 * 224.
Proof. unfold clamp. minmax_lra. Qed.

Lemma Part000_progressBar_some thumb cx ms t :
  Part000.progressBar thumb cx ms = Some t ->
  thumb = true /\ 0 < ms /\ t == clamp (cx / ms) 0 1 * 224.
Proof.
  unfold Part000.progressBar. intros H.
  destruct thumb; simpl in H; [|discriminate].
  destruct (Qle_bool ms 0) eqn:E; simpl in H; [discriminate|].
  injection H as <-.
  repeat split; [now apply Qle_bool_false | apply progress_clamp].
Qed.

Lemma Part000_progressBar_guarded cx ms :
  0 < ms ->
  Part000.progressBar true cx ms
  = Some (Qmin (Qmax (cx / ms) 0) 1 * 224).
Proof.
  intros H. unfold Part000.progressBar.
  destruct (Qle_bool ms 0) eqn:E; [|reflexivity].
  apply Qle_bool_iff in E. lra.
Qed.

Lemma Part001_progressBar_same thumb cx ms :
  Part001.progressBar thumb cx ms = Part000.progressBar thumb cx ms.
Proof. reflexivity. Qed.

(** C7: a frame writes the thumb's position only when [maxScroll > 0] (and
    the thumb is attached; in the responsive variant also only in
    horizontal mode), so the quotient [currentX / maxScroll] is only formed
    with a positive divisor; the position written is
    [clamp(currentX / maxScroll, 0, 1) * 224], and with the thumb attached
    and [maxScroll > 0] (in the responsive variant at 1024px or wider) the
    frame does write it.  A frame whose position is 250 under
    [maxScroll = 500] writes 112. *)
Theorem C7_progress_thumb_guarded :
  (forall dom p t,
      Part000.thumbTransform (snd (Part000.animate dom p)) = Some t ->
      let cx := Part000.currentX (Part000.state (fst (Part000.animate dom p))) in
      let ms := Part000.maxScroll (Part000.state p) in
      0 < ms /\ t == clamp (cx / ms) 0 1 * 224) /\
  (forall dom p t,
      Part001.thumbTransform (snd (Part001.animate dom p)) = Some t ->
      let cx := Part001.currentX (Part001.state (fst (Part001.animate dom p))) in
      let ms := Part001.maxScroll (Part001.state p) in
      0 < ms /\ t == clamp (cx / ms) 0 1 * 224) /\
  (forall dom p,
      Part000.maxScroll (Part000.state p) <= 0 ->
      Part000.thumbTransform (snd (Part000.animate dom p)) = None) /\
  (forall dom p,
      Part001.maxScroll (Part001.state p) <= 0 ->
      Part001.thumbTransform (snd (Part001.animate dom p)) = None) /\
  (forall cx ms,
      0 < ms ->
      exists t, Part000.progressBar true cx ms = Some t /\
                t == clamp (cx / ms) 0 1 * 224) /\
  (exists t, Part000.progressBar true 250 500 = Some t /\ t == 112) /\
  (forall dom p,
      Part000.progressThumb dom = true ->
      0 < Part000.maxScroll (Part000.state p) ->
      let cx := Part000.currentX (Part000.state (fst (Part000.animate dom p))) in
      let ms := Part000.maxScroll (Part000.state p) in
      exists t,
        Part000.thumbTransform (snd (Part000.animate dom p)) = Some t /\
        t == clamp (cx / ms) 0 1 * 224) /\
  (forall dom p,
      Part001.progressThumb dom = true ->
      1024 <= Part001.innerWidth dom ->
      0 < Part001.maxScroll (Part001.state p) ->
      let cx := Part001.currentX (Part001.state (fst (Part001.animate dom p))) in
      let ms := Part001.maxScroll (Part001.state p) in
      exists t,
        Part001.thumbTransform (snd (Part001.animate dom p)) = Some t /\
        t == clamp (cx / ms) 0 1 * 224) /\
  (forall dom p,
      Part000.progressThumb dom = true ->
      Part000.currentX (Part000.state (fst (Part000.animate dom p))) == 250 ->
      Part000.maxScroll (Part000.state p) == 500 ->
      exists t,
        Part000.thumbTransform (snd (Part000.animate dom p)) = Some t /\
        t == 112) /\
  (forall dom p,
      Part001.progressThumb dom = true ->
      1024 <= Part001.innerWidth dom ->
      Part001.currentX (Part001.state (fst (Part001.animate dom p))) == 250 ->
      Part001.maxScroll (Part001.state p) == 500 ->
      exists t,
        Part001.thumbTransform (snd (Part001.animate dom p)) = Some t /\
        t == 112).
Proof.
  assert (W0 : forall dom p,
    Part000.progressThumb dom = true ->
    0 < Part000.maxScroll (Part000.state p) ->
    exists t,
      Part000.thumbTransform (snd (Part000.animate dom p)) = Some t /\
      t == clamp
             (Part000.currentX (Part000.state (fst (Part000.animate dom p)))
              / Part000.maxScroll (Part000.state p)) 0 1 * 224).
  { intros dom p Hth Hms.
    unfold Part000.animate.
    cbn [snd fst Part000.thumbTransform Part000.state Part000.currentX].
    rewrite Hth, (Part000_progressBar_guarded _ _ Hms).
    eexists. split; [reflexivity | apply progress_clamp]. }
  assert (W1 : forall dom p,
    Part001.progressThumb dom = true ->
    1024 <= Part001.innerWidth dom ->
    0 < Part001.maxScroll (Part001.state p) ->
    exists t,
      Part001.thumbTransform (snd (Part001.animate dom p)) = Some t /\
      t == clamp
             (Part001.currentX (Part001.state (fst (Part001.animate dom p)))
              / Part001.maxScroll (Part001.state p)) 0 1 * 224).
  { intros dom p Hth Hw Hms.
    unfold Part001.animate, Part001.horizontal.
    apply Qle_bool_iff in Hw. rewrite Hw.
    cbn [snd fst Part001.thumbTransform Part001.state Part001.currentX].
    rewrite Hth, Part001_progressBar_same,
      (Part000_progressBar_guarded _ _ Hms).
    eexists. split; [reflexivity | apply progress_clamp]. }
  assert (Hhalf : forall cx ms t,
    cx == 250 -> ms == 500 -> t == clamp (cx / ms) 0 1 * 224 -> t == 112).
  { intros cx ms t Hc Hm Ht.
    assert (Hq : cx / ms == 1 # 2) by (rewrite Hc, Hm; reflexivity).
    rewrite Ht. unfold clamp. set (q := cx / ms) in *. minmax_lra. }
  split.
  { intros dom p t H. simpl in H.
    apply Part000_progressBar_some in H.
    destruct H as (_ & Hms & Ht). split; [exact Hms | exact Ht]. }
  split.
  { intros dom p t H. unfold Part001.animate in *.
    destruct (Part001.horizontal (Part001.innerWidth dom));
      simpl in H; [|discriminate].
    rewrite Part001_progressBar_same in H.
    apply Part000_progressBar_some in H.
    destruct H as (_ & Hms & Ht). split; [exact Hms | exact Ht]. }
  split.
  { intros dom p H. simpl. unfold Part000.progressBar.
    apply Qle_bool_iff in H. rewrite H.
    now destruct (Part000.progressThumb dom). }
  split.
  { intros dom p H. unfold Part001.animate.
    destruct (Part001.horizontal (Part001.innerWidth dom)); simpl;
      [|reflexivity].
    unfold Part001.progressBar.
    apply Qle_bool_iff in H. rewrite H.
    now destruct (Part001.progressThumb dom). }
  split.
  { intros cx ms H. eexists. split.
    - now apply Part000_progressBar_guarded.
    - apply progress_clamp. }
  split.
  { eexists. split; [reflexivity|]. vm_compute. reflexivity. }
  split; [exact W0|]. split; [exact W1|].
  split.
  - intros dom p Hth Hc Hm.
    assert (Hms : 0 < Part000.maxScroll (Part000.state p)) by lra.
    destruct (W0 dom p Hth Hms) as (t & Ht & Hv).
    exists t. split; [exact Ht|]. exact (Hhalf _ _ _ Hc Hm Hv).
  - intros dom p Hth Hw Hc Hm.
    assert (Hms : 0 < Part001.maxScroll (Part001.state p)) by lra.
    destruct (W1 dom p Hth Hw Hms) as (t & Ht & Hv).
    exists t. split; [exact Ht|]. exact (Hhalf _ _ _ Hc Hm Hv).
Qed.

(** A frame of part_000 on a page at rest at 250 of 500 pixels: the thumb
    is written halfway along the track. *)
Lemma C7_witness :
  exists t,
    Part000.thumbTransform
      (snd (Part000.animate
              {| Part000.innerWidth := 1600; Part000.container := Some 2100;
                 Part000.cursorEl := true; Part000.flowSlide := None;
                 Part000.flowText := true; Part000.progressThumb := true |}
              {| Part000.state :=
                   {| Part000.currentX := 250; Part000.targetX := 250;
                      Part000.maxScroll := 500; Part000.skew := 0 |};
                 Part000.mouse := {| Part000.x := 0; Part000.y := 0 |};
                 Part000.cursor := {| Part000.x := 0; Part000.y := 0 |} |}))
    = Some t /\ t == 112.
Proof.
  apply (proj1 (proj2 (proj2 (proj2 (proj2 (proj2 (proj2 (proj2 (proj2
           C7_progress_thumb_guarded))))))))).
  - reflexivity.
  - reflexivity.
  - reflexivity.
Defined.

(** ** Easing in exact arithmetic *)

Lemma Qpower_S (q : Q) (n : nat) :
  q ^ Z.of_nat (S n) == q * q ^ Z.of_nat n.
Proof.
  rewrite Nat2Z.inj_succ. unfold Z.succ.
  rewrite Qpower_plus' by lia. rewrite Qpower_1_r. ring.
Qed.

(** One step of easing multiplies the gap to the target by [1 - factor]. *)
Lemma lerp_gap (c t f : Q) : t - lerp c t f == (1 - f) * (t - c).
Proof. unfold lerp. ring. Qed.

Lemma iterate_succ_r {A : Type} (g : A -> A) (n : nat) (a : A) :
  iterate g (S n) a = g (iterate g n a).
Proof.
  revert a. induction n as [|n IH]; intros a.
  - reflexivity.
  - change (iterate g (S (S n)) a) with (iterate g (S n) (g a)).
    rewrite IH. reflexivity.
Qed.

Lemma iterate_lerp_gap (f t c0 : Q) (n : nat) :
  t - iterate (fun c => lerp c t f) n c0
  == (1 - f) ^ Z.of_nat n * (t - c0).
Proof.
  induction n as [|n IH].
  - simpl. ring.
  - rewrite iterate_succ_r, lerp_gap, IH, Qpower_S. ring.
Qed.

Lemma gap_shrinks (f g : Q) :
  0 < f -> f < 1 -> ~ g == 0 -> Qabs ((1 - f) * g) < Qabs g.
Proof.
  intros H0 H1 Hg.
  rewrite Qabs_Qmult, (Qabs_pos (1 - f)) by lra.
  assert (0 < Qabs g).
  { apply Qabs_case; intros; [|assert (~ - g == 0) by lra]; lra. }
  nra.
Qed.

(** Frames with no other event in between: what [n] ticks do to the
    scroll position and to the cursor of part_000. *)
Lemma Part000_ticks doms p :
  let p' := Part000.run (map Part000.Tick doms) p in
  Part000.targetX (Part000.state p') = Part000.targetX (Part000.state p) /\
  Part000.mouse p' = Part000.mouse p /\
  Part000.currentX (Part000.state p')
  = iterate (fun c => lerp c (Part000.targetX (Part000.state p)) 0.05)
      (length doms) (Part000.currentX (Part000.state p)) /\
  Part000.x (Part000.cursor p')
  = iterate (fun c => lerp c (Part000.x (Part000.mouse p)) 0.15)
      (length doms) (Part000.x (Part000.cursor p)).
Proof.
  revert p. induction doms as [|dom doms IH]; intros p.
  - repeat split.
  - specialize (IH (Part000.step p (Part000.Tick dom))).
    cbv zeta in *. destruct IH as (Ht & Hm & Hc & Hx).
    change (Part000.run (map Part000.Tick (dom :: doms)) p)
      with (Part000.run (map Part000.Tick doms)
              (Part000.step p (Part000.Tick dom))).
    rewrite Ht, Hm, Hc, Hx. repeat split.
Qed.

(** ** Easing on doubles *)

(** *** Powers of two *)

Lemma pow2_pos e : 0 < 2 ^ e.
Proof. apply Qpower_0_lt. reflexivity. Qed.

Lemma pow2_le a b : (a <= b)%Z -> 2 ^ a <= 2 ^ b.
Proof. intros H. apply Qpower_le_compat_l; [exact H | discriminate]. Qed.

Lemma pow2_lt a b : (a < b)%Z -> 2 ^ a < 2 ^ b.
Proof. intros H. apply Qpower_lt_compat_l; [exact H | reflexivity]. Qed.

Lemma pow2_lt_inv a b : 2 ^ a < 2 ^ b -> (a < b)%Z.
Proof. intros H. apply (Qpower_lt_compat_l_inv 2); [exact H | reflexivity]. Qed.

Lemma pow2_plus a b : 2 ^ (a + b) == 2 ^ a * 2 ^ b.
Proof. apply Qpower_plus. discriminate. Qed.

Lemma pow2_succ a : 2 ^ (a + 1) == 2 * 2 ^ a.
Proof. rewrite pow2_plus. change (2 ^ 1) with 2. ring. Qed.

Lemma pow2_Z k : (0 <= k)%Z -> 2 ^ k == inject_Z (2 ^ k).
Proof. intros H. rewrite Zpower_Qpower by exact H. reflexivity. Qed.

(** *** The binary logarithm *)

Lemma Double_ilog2_spec q :
  0 < q -> 2 ^ Double.ilog2 q <= q /\ q < 2 ^ (Double.ilog2 q + 1).
Proof.
  intros Hq. unfold Double.ilog2.
  destruct q as [n d]. cbn [Qnum Qden].
  assert (Hn : (0 < n)%Z).
  { unfold Qlt in Hq. simpl in Hq. lia. }
  set (a := Z.log2 n). set (b := Z.log2 (Z.pos d)).
  destruct (Z.log2_spec n Hn) as [Ha1 Ha2]. fold a in Ha1, Ha2.
  destruct (Z.log2_spec (Z.pos d) eq_refl) as [Hb1 Hb2]. fold b in Hb1, Hb2.
  assert (Ha0 : (0 <= a)%Z) by apply Z.log2_nonneg.
  assert (Hb0 : (0 <= b)%Z) by apply Z.log2_nonneg.
  set (q := n # d) in *.
  set (N := inject_Z n). set (D := inject_Z (Z.pos d)).
  assert (HqD : q * D == N).
  { unfold q, N, D. rewrite (Qmake_Qdiv n d). field. discriminate. }
  assert (HD : 0 < D) by reflexivity.
  assert (HA1 : 2 ^ a <= N).
  { rewrite pow2_Z by exact Ha0. unfold N. rewrite <- Zle_Qle. exact Ha1. }
  assert (HA2 : N < 2 * 2 ^ a).
  { rewrite <- pow2_succ, pow2_Z by lia. unfold N. rewrite <- Zlt_Qlt.
    exact Ha2. }
  assert (HB1 : 2 ^ b <= D).
  { rewrite pow2_Z by exact Hb0. unfold D. rewrite <- Zle_Qle. exact Hb1. }
  assert (HB2 : D < 2 * 2 ^ b).
  { rewrite <- pow2_succ, pow2_Z by lia. unfold D. rewrite <- Zlt_Qlt.
    exact Hb2. }
  pose proof (pow2_pos a) as HA. pose proof (pow2_pos b) as HB.
  pose proof (pow2_pos (a - b)) as HX.
  assert (HXB : 2 ^ (a - b) * 2 ^ b == 2 ^ a).
  { rewrite <- pow2_plus. replace (a - b + b)%Z with a by lia. reflexivity. }
  destruct (Qle_bool (2 ^ (a - b)) q) eqn:E.
  - apply Qle_bool_iff in E. split; [exact E|].
    rewrite pow2_succ.
    set (X := 2 ^ (a - b)) in *. set (A := 2 ^ a) in *. set (B := 2 ^ b) in *.
    apply Qnot_le_lt. intros Hc. nra.
  - apply Qle_bool_false in E.
    replace (a - b - 1 + 1)%Z with (a - b)%Z by lia. split; [|exact E].
    assert (HY : 2 * 2 ^ (a - b - 1) == 2 ^ (a - b)).
    { rewrite <- pow2_succ. replace (a - b - 1 + 1)%Z with (a - b)%Z by lia.
      reflexivity. }
    pose proof (pow2_pos (a - b - 1)) as HY0.
    set (Y := 2 ^ (a - b - 1)) in *.
    set (X := 2 ^ (a - b)) in *. set (A := 2 ^ a) in *. set (B := 2 ^ b) in *.
    apply Qnot_lt_le. intros Hc. nra.
Qed.

Lemma Double_ilog2_unique q k :
  2 ^ k <= q -> q < 2 ^ (k + 1) -> Double.ilog2 q = k.
Proof.
  intros H1 H2.
  assert (Hq : 0 < q) by (pose proof (pow2_pos k); lra).
  destruct (Double_ilog2_spec q Hq) as [H3 H4].
  assert (k < Double.ilog2 q + 1)%Z by (apply pow2_lt_inv; lra).
  assert (Double.ilog2 q < k + 1)%Z by (apply pow2_lt_inv; lra).
  lia.
Qed.

Lemma Double_ilog2_mono x y : 0 < x -> x <= y -> (Double.ilog2 x <= Double.ilog2 y)%Z.
Proof.
  intros Hx Hxy.
  destruct (Double_ilog2_spec x Hx) as [H1 _].
  destruct (Double_ilog2_spec y) as [_ H2]; [lra|].
  assert (Double.ilog2 x < Double.ilog2 y + 1)%Z by (apply pow2_lt_inv; lra).
  lia.
Qed.

Lemma Double_cexp_mono x y : 0 < x -> x <= y -> (Double.cexp x <= Double.cexp y)%Z.
Proof.
  intros Hx Hxy. unfold Double.cexp.
  pose proof (Double_ilog2_mono x y Hx Hxy). lia.
Qed.

(** *** Rounding to an integer *)

Lemma Double_rne_bounds x : (Qfloor x <= Double.rne x <= Qfloor x + 1)%Z.
Proof.
  unfold Double.rne.
  destruct (Qcompare _ _); [destruct (Z.even _)| |]; lia.
Qed.

Lemma Qcompare_cases a b :
  (Qcompare a b = Lt /\ a < b) \/
  (Qcompare a b = Eq /\ a == b) \/
  (Qcompare a b = Gt /\ b < a).
Proof.
  destruct (Qcompare a b) eqn:E.
  - right. left. split; [reflexivity | now apply Qeq_alt].
  - left. split; [reflexivity | now apply Qlt_alt].
  - right. right. split; [reflexivity | now apply Qgt_alt].
Qed.

Lemma Double_rne_mono x y : x <= y -> (Double.rne x <= Double.rne y)%Z.
Proof.
  intros Hxy.
  pose proof (Qfloor_resp_le x y Hxy) as Hf.
  pose proof (Double_rne_bounds x) as Bx. pose proof (Double_rne_bounds y) as By.
  destruct (Z.eq_dec (Qfloor x) (Qfloor y)) as [E | NE]; [|lia].
  clear Bx By. unfold Double.rne. rewrite <- E.
  destruct (Qcompare_cases (x - inject_Z (Qfloor x)) (1 # 2))
    as [[-> Cx] | [[-> Cx] | [-> Cx]]];
    destruct (Qcompare_cases (y - inject_Z (Qfloor x)) (1 # 2))
      as [[-> Cy] | [[-> Cy] | [-> Cy]]];
    try (destruct (Z.even (Qfloor x))); try lia; exfalso; lra.
Qed.

Lemma Double_rne_comp x y : x == y -> Double.rne x = Double.rne y.
Proof.
  intros H.
  assert (Double.rne x <= Double.rne y)%Z by (apply Double_rne_mono; lra).
  assert (Double.rne y <= Double.rne x)%Z by (apply Double_rne_mono; lra).
  lia.
Qed.

Lemma Double_rne_Z k : Double.rne (inject_Z k) = k.
Proof.
  unfold Double.rne. rewrite Qfloor_Z.
  destruct (Qcompare_cases (inject_Z k - inject_Z k) (1 # 2))
    as [[-> _] | [[_ H] | [_ H]]]; [reflexivity | exfalso; lra ..].
Qed.

Lemma Double_rne_half : Double.rne (1 # 2) = 0%Z.
Proof. reflexivity. Qed.

(** *** Rounding on a grid *)

Lemma Double_roundAt_mono e x y :
  x <= y -> Double.roundAt e x <= Double.roundAt e y.
Proof.
  intros H. unfold Double.roundAt.
  pose proof (pow2_pos e) as He.
  apply Qmult_le_compat_r; [|lra].
  rewrite <- Zle_Qle. apply Double_rne_mono.
  apply Qmult_le_compat_r; [exact H|].
  apply Qlt_le_weak, Qinv_lt_0_compat, He.
Qed.

Lemma Double_roundAt_comp e x y :
  x == y -> Double.roundAt e x == Double.roundAt e y.
Proof.
  intros H. apply Qle_antisym; apply Double_roundAt_mono; lra.
Qed.

Lemma Double_roundAt_grid e k :
  Double.roundAt e (inject_Z k * 2 ^ e) == inject_Z k * 2 ^ e.
Proof.
  unfold Double.roundAt.
  pose proof (pow2_pos e) as He.
  rewrite (Double_rne_comp _ (inject_Z k)), Double_rne_Z; [reflexivity|].
  field. lra.
Qed.

(** A multiple of [2^g] is a multiple of [2^e] for [e <= g]. *)
Lemma Double_roundAt_coarser e g k :
  (e <= g)%Z ->
  Double.roundAt e (inject_Z k * 2 ^ g) == inject_Z k * 2 ^ g.
Proof.
  intros H.
  assert (E : inject_Z k * 2 ^ g == inject_Z (k * 2 ^ (g - e)) * 2 ^ e).
  { rewrite inject_Z_mult, <- pow2_Z by lia.
    rewrite <- Qmult_assoc, <- pow2_plus.
    replace (g - e + e)%Z with g by lia. reflexivity. }
  rewrite (Double_roundAt_comp _ _ _ E), Double_roundAt_grid. symmetry. exact E.
Qed.

Lemma Double_roundAt_pow2 e l : (e <= l)%Z -> Double.roundAt e (2 ^ l) == 2 ^ l.
Proof.
  intros H.
  assert (E : 2 ^ l == inject_Z 1 * 2 ^ l) by (change (inject_Z 1) with 1; ring).
  rewrite (Double_roundAt_comp _ _ _ E), Double_roundAt_coarser by exact H.
  symmetry. exact E.
Qed.

Lemma Double_roundAt_0 e : Double.roundAt e 0 == 0.
Proof.
  assert (E : 0 == inject_Z 0 * 2 ^ e) by (change (inject_Z 0) with 0; ring).
  rewrite (Double_roundAt_comp _ _ _ E), Double_roundAt_grid. symmetry. exact E.
Qed.

Lemma Double_roundAt_nonneg e x : 0 <= x -> 0 <= Double.roundAt e x.
Proof.
  intros H. rewrite <- (Double_roundAt_0 e). apply Double_roundAt_mono, H.
Qed.

(** Half of the grid's step rounds to 0, the even neighbour. *)
Lemma Double_roundAt_half e x : 0 <= x -> x <= 2 ^ (e - 1) -> Double.roundAt e x == 0.
Proof.
  intros H0 H1. apply Qle_antisym; [|apply Double_roundAt_nonneg, H0].
  assert (E : Double.roundAt e (2 ^ (e - 1)) == 0).
  { unfold Double.roundAt.
    rewrite (Double_rne_comp _ (1 # 2)), Double_rne_half; [change (inject_Z 0) with 0; ring|].
    assert (Hs : 2 ^ e == 2 * 2 ^ (e - 1)).
    { rewrite <- pow2_succ. replace (e - 1 + 1)%Z with e by lia. reflexivity. }
    pose proof (pow2_pos (e - 1)). rewrite Hs. field. lra. }
  rewrite <- E. apply Double_roundAt_mono, H1.
Qed.

(** *** Rounding to a double *)

Lemma Double_rnd_pos q : 0 < q -> Double.rnd q = Double.roundAt (Double.cexp q) q.
Proof.
  intros H. unfold Double.rnd.
  destruct (Qcompare_cases q 0) as [[_ C] | [[_ C] | [-> _]]];
    [exfalso; lra .. | reflexivity].
Qed.

Lemma Double_rnd_neg q :
  q < 0 -> Double.rnd q = - Double.roundAt (Double.cexp (- q)) (- q).
Proof.
  intros H. unfold Double.rnd.
  destruct (Qcompare_cases q 0) as [[-> _] | [[_ C] | [_ C]]];
    [reflexivity | exfalso; lra ..].
Qed.

Lemma Double_rnd_zero q : q == 0 -> Double.rnd q = 0.
Proof.
  intros H. unfold Double.rnd.
  destruct (Qcompare_cases q 0) as [[_ C] | [[-> _] | [_ C]]];
    [exfalso; lra | reflexivity | exfalso; lra].
Qed.

Lemma Double_rnd_pos_nonneg q : 0 < q -> 0 <= Double.rnd q.
Proof.
  intros H. rewrite Double_rnd_pos by exact H. apply Double_roundAt_nonneg. lra.
Qed.

Lemma Double_rnd_pos_mono x y : 0 < x -> x <= y -> Double.rnd x <= Double.rnd y.
Proof.
  intros Hx Hxy. rewrite !Double_rnd_pos by lra.
  pose proof (Double_cexp_mono x y Hx Hxy) as Hc.
  destruct (Z.eq_dec (Double.cexp x) (Double.cexp y)) as [E | NE].
  - rewrite E. apply Double_roundAt_mono, Hxy.
  - set (l := Double.ilog2 y).
    assert (Hl : (Double.ilog2 x < l)%Z).
    { pose proof (Double_ilog2_mono x y Hx Hxy). unfold Double.cexp in *. lia. }
    assert (He : (Double.cexp y <= l)%Z) by (unfold Double.cexp in *; lia).
    destruct (Double_ilog2_spec x Hx) as [_ Hx2].
    destruct (Double_ilog2_spec y) as [Hy1 _]; [lra|]. fold l in Hy1.
    assert (Hxl : x <= 2 ^ l).
    { apply Qlt_le_weak. eapply Qlt_le_trans; [exact Hx2|].
      apply pow2_le. lia. }
    apply Qle_trans with (2 ^ l).
    + rewrite <- (Double_roundAt_pow2 (Double.cexp x) l) by lia.
      apply Double_roundAt_mono, Hxl.
    + rewrite <- (Double_roundAt_pow2 (Double.cexp y) l) by lia.
      apply Double_roundAt_mono, Hy1.
Qed.

Lemma Double_rnd_pos_comp x y : 0 < x -> x == y -> Double.rnd x == Double.rnd y.
Proof.
  intros Hx H. apply Qle_antisym; apply Double_rnd_pos_mono; lra.
Qed.

Lemma Double_rnd_opp q : Double.rnd (- q) == - Double.rnd q.
Proof.
  destruct (Q_dec q 0) as [[H | H] | H].
  - rewrite (Double_rnd_neg q H), <- Double_rnd_pos by lra. ring.
  - rewrite (Double_rnd_neg (- q)) by lra.
    rewrite <- (Double_rnd_pos (- - q)) by lra.
    rewrite (Double_rnd_pos_comp (- - q) q) by (try lra; ring). reflexivity.
  - rewrite (Double_rnd_zero q H), (Double_rnd_zero (- q)) by lra. reflexivity.
Qed.

Lemma Double_rnd_mono x y : x <= y -> Double.rnd x <= Double.rnd y.
Proof.
  intros Hxy.
  destruct (Q_dec y 0) as [[Hy | Hy] | Hy].
  - (* both negative *)
    assert (H : Double.rnd (- y) <= Double.rnd (- x))
      by (apply Double_rnd_pos_mono; lra).
    rewrite !Double_rnd_opp in H. lra.
  - destruct (Qlt_le_dec 0 x) as [Hx | Hx].
    + now apply Double_rnd_pos_mono.
    + apply Qle_trans with 0; [|now apply Double_rnd_pos_nonneg].
      destruct (Qlt_le_dec x 0) as [Hx' | Hx'].
      * pose proof (Double_rnd_pos_nonneg (- x)) as H. rewrite Double_rnd_opp in H. lra.
      * rewrite Double_rnd_zero by lra. lra.
  - rewrite (Double_rnd_zero y Hy).
    destruct (Qlt_le_dec x 0) as [Hx' | Hx'].
    + pose proof (Double_rnd_pos_nonneg (- x)) as H. rewrite Double_rnd_opp in H. lra.
    + rewrite Double_rnd_zero by lra. lra.
Qed.

Lemma Double_rnd_comp x y : x == y -> Double.rnd x == Double.rnd y.
Proof.
  intros H. apply Qle_antisym; apply Double_rnd_mono; lra.
Qed.

Lemma Double_rnd_0 : Double.rnd 0 == 0.
Proof. reflexivity. Qed.

(** A positive multiple of [2^g] at least as coarse as its own unit in the
    last place is a double. *)
Lemma Double_rnd_grid y g k :
  0 < y -> y == inject_Z k * 2 ^ g -> (Double.cexp y <= g)%Z ->
  Double.rnd y == y.
Proof.
  intros Hy E Hg. rewrite Double_rnd_pos by exact Hy.
  rewrite (Double_roundAt_comp _ _ _ E), Double_roundAt_coarser by exact Hg.
  symmetry. exact E.
Qed.

Lemma Double_rnd_pow2 l : (Double.emin <= l)%Z -> Double.rnd (2 ^ l) == 2 ^ l.
Proof.
  intros H. pose proof (pow2_pos l) as Hp.
  apply (Double_rnd_grid _ l 1); [exact Hp | change (inject_Z 1) with 1; ring |].
  unfold Double.cexp.
  rewrite (Double_ilog2_unique (2 ^ l) l); [lia | lra | apply pow2_lt; lia].
Qed.

Lemma Double_rnd_idem_pos x : 0 < x -> Double.rnd (Double.rnd x) == Double.rnd x.
Proof.
  intros Hx.
  pose proof (Double_rnd_pos_nonneg x Hx) as Hy0.
  destruct (Qlt_le_dec 0 (Double.rnd x)) as [Hy | Hy];
    [|rewrite (Double_rnd_zero (Double.rnd x)) by lra; lra].
  destruct (Double_ilog2_spec x Hx) as [H1 H2].
  set (l := Double.ilog2 x) in *. set (e := Double.cexp x).
  assert (Ey : Double.rnd x == inject_Z (Double.rne (x / 2 ^ e)) * 2 ^ e).
  { rewrite Double_rnd_pos by exact Hx. reflexivity. }
  destruct (Z_le_gt_dec e (l + 1)) as [Hle | Hgt].
  - assert (Hup : Double.rnd x <= 2 ^ (l + 1)).
    { rewrite Double_rnd_pos by exact Hx.
      rewrite <- (Double_roundAt_pow2 e (l + 1)) by exact Hle.
      apply Double_roundAt_mono. lra. }
    destruct (Qlt_le_dec (Double.rnd x) (2 ^ (l + 1))) as [Hlt | Hge].
    + apply (Double_rnd_grid _ e _ Hy Ey).
      assert (Double.ilog2 (Double.rnd x) < l + 1)%Z.
      { destruct (Double_ilog2_spec _ Hy) as [Hy1 _]. apply pow2_lt_inv. lra. }
      unfold e, Double.cexp. fold l. lia.
    + assert (E : Double.rnd x == 2 ^ (l + 1)) by lra.
      rewrite (Double_rnd_comp _ _ E), E. apply Double_rnd_pow2.
      unfold e, Double.cexp in Hle. lia.
  - exfalso.
    assert (Double.rnd x == 0); [|lra].
    rewrite Double_rnd_pos by exact Hx. apply Double_roundAt_half; [lra|].
    apply Qle_trans with (2 ^ (l + 1)); [lra | apply pow2_le; fold e; lia].
Qed.

Lemma Double_rnd_idem x : Double.rnd (Double.rnd x) == Double.rnd x.
Proof.
  destruct (Q_dec x 0) as [[H | H] | H].
  - assert (E : Double.rnd x == - Double.rnd (- x))
      by (rewrite Double_rnd_opp; ring).
    rewrite (Double_rnd_comp _ _ E), Double_rnd_opp, Double_rnd_idem_pos by lra.
    symmetry. exact E.
  - now apply Double_rnd_idem_pos.
  - rewrite (Double_rnd_zero x H). reflexivity.
Qed.

(** *** Doubles as multiples of their unit in the last place *)

Lemma Double_grid d :
  0 < d -> Double.rnd d == d ->
  d == inject_Z (Double.rne (d / 2 ^ Double.cexp d)) * 2 ^ Double.cexp d.
Proof.
  intros Hd H. rewrite Double_rnd_pos in H by exact Hd. symmetry. exact H.
Qed.

(** Every double is a multiple of [2^emin]. *)
Lemma Double_emin_multiple c :
  Double.rnd c == c -> exists k, c == inject_Z k * 2 ^ Double.emin.
Proof.
  assert (P : forall d, 0 < d -> Double.rnd d == d ->
                        exists k, d == inject_Z k * 2 ^ Double.emin).
  { intros d Hd H. pose proof (Double_grid d Hd H) as E.
    set (e := Double.cexp d) in *. set (M := Double.rne (d / 2 ^ e)) in *.
    assert (He : (Double.emin <= e)%Z) by (unfold e, Double.cexp; lia).
    exists (M * 2 ^ (e - Double.emin))%Z.
    rewrite inject_Z_mult, <- pow2_Z by lia.
    rewrite <- Qmult_assoc, <- pow2_plus.
    replace (e - Double.emin + Double.emin)%Z with e by lia. exact E. }
  intros H. destruct (Q_dec c 0) as [[Hc | Hc] | Hc].
  - destruct (P (- c)) as [k Hk]; [lra | rewrite Double_rnd_opp; lra |].
    exists (- k)%Z. rewrite inject_Z_opp. lra.
  - now apply P.
  - exists 0%Z. change (inject_Z 0) with 0. lra.
Qed.

(** Below [2^(emin+53)] every multiple of [2^emin] is a double. *)
Lemma Double_small_multiple_exact x k :
  0 < x -> x == inject_Z k * 2 ^ Double.emin ->
  x < 2 ^ (Double.emin + 53) -> Double.rnd x == x.
Proof.
  intros Hx E Hs. apply (Double_rnd_grid x Double.emin k Hx E).
  destruct (Double_ilog2_spec x Hx) as [H1 _].
  assert (Double.ilog2 x < Double.emin + 53)%Z by (apply pow2_lt_inv; lra).
  unfold Double.cexp. lia.
Qed.

Lemma Double_rne_below z k : z < inject_Z k + (1 # 2) -> (Double.rne z <= k)%Z.
Proof.
  intros H.
  pose proof (Qfloor_le z) as Hf. pose proof (Double_rne_bounds z) as Hb.
  assert (Hk : (Qfloor z < k + 1)%Z).
  { rewrite Zlt_Qlt, inject_Z_plus. change (inject_Z 1) with 1. lra. }
  destruct (Z.eq_dec (Qfloor z) k) as [E | NE]; [|lia].
  unfold Double.rne. rewrite E.
  destruct (Qcompare_cases (z - inject_Z k) (1 # 2))
    as [[-> _] | [[_ C] | [_ C]]]; [lia | exfalso; lra ..].
Qed.

(** Scaling a normal double down by [1 - 2^-53] or more rounds strictly
    below it. *)
Lemma Double_rnd_scaled_below d y :
  Double.rnd d == d -> 2 ^ (Double.emin + 53) <= d ->
  0 <= y -> y <= d * (1 - 2 ^ (-53)) ->
  Double.rnd y < d.
Proof.
  intros Hdd Hn Hy0 Hy.
  pose proof (pow2_pos (Double.emin + 53)) as Hp0.
  assert (Hd : 0 < d) by lra.
  destruct (Double_ilog2_spec d Hd) as [H1 H2].
  set (l := Double.ilog2 d) in *.
  assert (Hl : (Double.emin + 53 <= l)%Z).
  { assert (Double.emin + 53 < l + 1)%Z by (apply pow2_lt_inv; lra). lia. }
  assert (He : Double.cexp d = (l - 52)%Z) by (unfold Double.cexp; fold l; lia).
  pose proof (pow2_pos l) as Hpl.
  assert (Hu : 2 ^ (-53) == 1 # 9007199254740992) by reflexivity.
  destruct (Qlt_le_dec (2 ^ l) d) as [Hgt | Hle].
  - (* the significand exceeds 2^52 *)
    pose proof (Double_grid d Hd Hdd) as E. rewrite He in E.
    set (M := Double.rne (d / 2 ^ (l - 52))) in *.
    pose proof (pow2_pos (l - 52)) as Hpe.
    assert (Hl52 : 2 ^ l == 2 ^ 52 * 2 ^ (l - 52)).
    { rewrite <- pow2_plus. replace (52 + (l - 52))%Z with l by lia.
      reflexivity. }
    destruct (Qlt_le_dec y (2 ^ l)) as [Hyl | Hyl].
    + apply Qle_lt_trans with (2 ^ l); [|exact Hgt].
      rewrite <- (Double_rnd_pow2 l) by lia. apply Double_rnd_mono. lra.
    + assert (Hyd : y < d) by (rewrite Hu in Hy; nra).
      assert (Hy1 : 0 < y) by lra.
      assert (Hly : Double.ilog2 y = l) by (apply Double_ilog2_unique; lra).
      rewrite Double_rnd_pos by exact Hy1. unfold Double.cexp. rewrite Hly.
      replace (Z.max (l - 52) Double.emin) with (l - 52)%Z by lia.
      unfold Double.roundAt.
      assert (Hr : (Double.rne (y / 2 ^ (l - 52)) <= M - 1)%Z).
      { apply Double_rne_below. replace (M - 1)%Z with (M + -1)%Z by lia.
        rewrite inject_Z_plus. change (inject_Z (-1)) with (-1).
        apply Qlt_shift_div_r; [exact Hpe|].
        assert (HM : 2 ^ 52 < inject_Z M).
        { apply Qnot_le_lt. intros Hc.
          assert (inject_Z M * 2 ^ (l - 52) <= 2 ^ 52 * 2 ^ (l - 52))
            by (apply Qmult_le_compat_r; lra).
          lra. }
        change (2 ^ 52) with 4503599627370496 in HM.
        rewrite Hu in Hy. rewrite E in Hy.
        set (P := 2 ^ (l - 52)) in *. set (m := inject_Z M) in *.
        nra. }
      apply Qlt_le_trans with (inject_Z M * 2 ^ (l - 52)); [|lra].
      apply Qmult_lt_compat_r; [exact Hpe|].
      rewrite <- Zlt_Qlt. lia.
  - (* d is a power of two *)
    assert (Ed : d == 2 ^ l) by lra.
    set (p := inject_Z (2 ^ 53 - 1) * 2 ^ (l - 53)).
    pose proof (pow2_pos (l - 53)) as Hpe.
    assert (Hl53 : 2 ^ l == 2 ^ 53 * 2 ^ (l - 53)).
    { rewrite <- pow2_plus. replace (53 + (l - 53))%Z with l by lia.
      reflexivity. }
    assert (Hl1 : 2 ^ (l - 1) == 2 ^ 52 * 2 ^ (l - 53)).
    { rewrite <- pow2_plus. replace (52 + (l - 53))%Z with (l - 1)%Z by lia.
      reflexivity. }
    assert (Hpv : p == (2 ^ 53 - 1) * 2 ^ (l - 53)) by reflexivity.
    change (2 ^ 53) with 9007199254740992 in Hl53, Hpv.
    change (2 ^ 52) with 4503599627370496 in Hl1.
    assert (Hp : 0 < p) by (rewrite Hpv; nra).
    assert (Hpd : Double.rnd p == p).
    { apply (Double_rnd_grid p (l - 53) (2 ^ 53 - 1) Hp); [reflexivity|].
      unfold Double.cexp.
      rewrite (Double_ilog2_unique p (l - 1)); [lia | rewrite Hl1, Hpv; nra |].
      replace (l - 1 + 1)%Z with l by lia. rewrite Hl53, Hpv. nra. }
    apply Qle_lt_trans with p.
    + rewrite <- Hpd. apply Double_rnd_mono.
      rewrite Hu, Ed, Hl53 in Hy. rewrite Hpv.
      set (P := 2 ^ (l - 53)) in *. nra.
    + rewrite Ed, Hl53, Hpv. nra.
Qed.

(** A double below 1 is at most [1 - 2^-53]. *)
Lemma Double_below_one f :
  Double.rnd f == f -> f < 1 -> f <= 1 - 2 ^ (-53).
Proof.
  intros Hf H1. apply Qnot_lt_le. intros Hc.
  assert (Hu : 2 ^ (-53) == 1 # 9007199254740992) by reflexivity.
  assert (H0 : 0 < f) by (rewrite Hu in Hc; lra).
  assert (Hl : Double.ilog2 f = (-1)%Z).
  { apply Double_ilog2_unique.
    - change (2 ^ (-1)) with (1 # 2). rewrite Hu in Hc. lra.
    - change (2 ^ (-1 + 1)) with 1. exact H1. }
  pose proof (Double_grid f H0 Hf) as E.
  unfold Double.cexp in E. rewrite Hl in E.
  change (Z.max (-1 - 52) Double.emin) with (-53)%Z in E.
  set (M := Double.rne (f / 2 ^ (-53))) in *.
  rewrite Hu in E, Hc.
  assert (HM1 : inject_Z (2 ^ 53 - 1) < inject_Z M).
  { change (inject_Z (2 ^ 53 - 1)) with 9007199254740991. lra. }
  assert (HM2 : inject_Z M < inject_Z (2 ^ 53)).
  { change (inject_Z (2 ^ 53)) with 9007199254740992. lra. }
  rewrite <- Zlt_Qlt in HM1, HM2. lia.
Qed.

Lemma Double_safe_facts :
  2 * Double.safe == 2 ^ 1023 /\
  Double.rnd (2 ^ 1023) == 2 ^ 1023 /\
  2 ^ 1023 <= Double.maxValue /\
  0 < Double.safe.
Proof.
  split; [|split; [|split]].
  - unfold Double.safe. rewrite <- pow2_succ. reflexivity.
  - apply Double_rnd_pow2. unfold Double.emin. lia.
  - apply Qle_bool_iff. vm_compute. reflexivity.
  - apply pow2_pos.
Qed.

(** The three roundings of [lerp], for a position at or below the
    target. *)
Lemma Double_lerp_core_up c t f :
  Double.rnd c == c -> Double.rnd t == t ->
  0 <= f -> f <= 1 - 2 ^ (-53) -> c <= t ->
  let d := Double.rnd (t - c) in
  let m := Double.rnd (d * f) in
  let n := Double.rnd (c + m) in
  (0 <= d /\ d <= Double.rnd (t - c)) /\ (0 <= m /\ m <= d) /\
  (c <= n /\ n <= t).
Proof.
  intros Hc Ht Hf0 Hf1 Hct d m n.
  assert (Hu : 2 ^ (-53) == 1 # 9007199254740992) by reflexivity.
  assert (Hx : 0 <= t - c) by lra.
  assert (Hd0 : 0 <= d).
  { unfold d. rewrite <- Double_rnd_0. apply Double_rnd_mono, Hx. }
  assert (Hdd : Double.rnd d == d) by apply Double_rnd_idem.
  assert (Hm0 : 0 <= m).
  { unfold m. rewrite <- Double_rnd_0. apply Double_rnd_mono. nra. }
  assert (Hmd : m <= d).
  { apply Qle_trans with (Double.rnd d); [|lra].
    unfold m. apply Double_rnd_mono. rewrite Hu in Hf1. nra. }
  assert (Hmm : Double.rnd m == m) by apply Double_rnd_idem.
  assert (Hmx : m <= t - c).
  { destruct (Qlt_le_dec (t - c) d) as [Hup | Hdown]; [|lra].
    (* [t - c] was rounded up: it is beyond the range where every
       multiple of [2^emin] is a double. *)
    destruct (Double_emin_multiple c Hc) as [kc Ekc].
    destruct (Double_emin_multiple t Ht) as [kt Ekt].
    assert (Ex : t - c == inject_Z (kt - kc) * 2 ^ Double.emin).
    { unfold Z.sub. rewrite inject_Z_plus, inject_Z_opp. lra. }
    assert (Hxpos : 0 < t - c).
    { apply Qnot_le_lt. intros Hc0.
      assert (E0 : t - c == 0) by lra.
      unfold d in Hup. rewrite (Double_rnd_zero _ E0) in Hup. lra. }
    assert (Hbig : 2 ^ (Double.emin + 53) <= t - c).
    { apply Qnot_lt_le. intros Hs.
      pose proof (Double_small_multiple_exact _ _ Hxpos Ex Hs) as Hex.
      fold d in Hex. lra. }
    assert (Hdbig : 2 ^ (Double.emin + 53) <= d).
    { unfold d. rewrite <- (Double_rnd_pow2 (Double.emin + 53))
        by (unfold Double.emin; lia).
      apply Double_rnd_mono, Hbig. }
    assert (Hlt : m < d).
    { unfold m. apply Double_rnd_scaled_below; trivial; nra. }
    apply Qnot_lt_le. intros Hc0.
    assert (Double.rnd (t - c) <= Double.rnd m) by (apply Double_rnd_mono; lra).
    fold d in H. lra. }
  split; [split; [exact Hd0 | unfold d; lra]|].
  split; [split; assumption|].
  split.
  - apply Qle_trans with (Double.rnd c); [lra|].
    unfold n. apply Double_rnd_mono. lra.
  - apply Qle_trans with (Double.rnd t); [|lra].
    unfold n. apply Double_rnd_mono. lra.
Qed.

(** The same for a position at or above the target. *)
Lemma Double_lerp_core_down c t f :
  Double.rnd c == c -> Double.rnd t == t ->
  0 <= f -> f <= 1 - 2 ^ (-53) -> t <= c ->
  let d := Double.rnd (t - c) in
  let m := Double.rnd (d * f) in
  let n := Double.rnd (c + m) in
  (d <= 0 /\ Double.rnd (t - c) <= d) /\ (m <= 0 /\ d <= m) /\
  (t <= n /\ n <= c).
Proof.
  intros Hc Ht Hf0 Hf1 Hct d m n.
  assert (Hc' : Double.rnd (- c) == - c) by (rewrite Double_rnd_opp, Hc; reflexivity).
  assert (Ht' : Double.rnd (- t) == - t) by (rewrite Double_rnd_opp, Ht; reflexivity).
  assert (Hct' : - c <= - t) by lra.
  pose proof (Double_lerp_core_up (- c) (- t) f Hc' Ht' Hf0 Hf1 Hct') as H.
  cbv zeta in H.
  assert (Ed : Double.rnd (- t - - c) == - d).
  { unfold d. rewrite <- Double_rnd_opp. apply Double_rnd_comp. ring. }
  assert (Em : Double.rnd (Double.rnd (- t - - c) * f) == - m).
  { unfold m. rewrite <- Double_rnd_opp. apply Double_rnd_comp. rewrite Ed. ring. }
  assert (En : Double.rnd (- c + Double.rnd (Double.rnd (- t - - c) * f))
               == - n).
  { unfold n. rewrite <- Double_rnd_opp. apply Double_rnd_comp. rewrite Em. ring. }
  rewrite En, Em, Ed in H.
  destruct H as ((H1 & H2) & (H3 & H4) & H5 & H6).
  repeat split; try lra. unfold d. lra.
Qed.

Lemma Double_number_some q :
  Qabs (Double.rnd q) <= Double.maxValue ->
  Double.number q = Some (Double.rnd q).
Proof.
  intros H. unfold Double.number. apply Qle_bool_iff in H.
  cbv zeta. rewrite H. reflexivity.
Qed.

Lemma Double_rnd_within q B :
  Double.rnd B == B -> - B <= q -> q <= B ->
  - B <= Double.rnd q /\ Double.rnd q <= B.
Proof.
  intros HB H1 H2. split.
  - assert (E : Double.rnd (- B) == - B) by (rewrite Double_rnd_opp, HB; reflexivity).
    rewrite <- E. apply Double_rnd_mono, H1.
  - rewrite <- HB. apply Double_rnd_mono, H2.
Qed.

(** One call of [lerp] on doubles. *)
Lemma Double_lerp_towards c t f :
  Double.rnd c == c -> Double.rnd t == t -> Double.rnd f == f ->
  Qabs c <= Double.safe -> Qabs t <= Double.safe ->
  0 <= f -> f < 1 ->
  exists n,
    Double.lerp c t f = Some n /\
    Double.rnd n == n /\ Qabs n <= Double.safe /\
    (c <= t -> c <= n /\ n <= t) /\
    (t <= c -> t <= n /\ n <= c).
Proof.
  intros Hc Ht Hf Bc Bt Hf0 Hf1.
  pose proof (Double_below_one f Hf Hf1) as Hf2.
  destruct Double_safe_facts as (S1 & S2 & S3 & S4).
  apply Qabs_Qle_condition in Bc. apply Qabs_Qle_condition in Bt.
  set (d := Double.rnd (t - c)).
  set (m := Double.rnd (d * f)).
  set (n := Double.rnd (c + m)).
  assert (Hd : - 2 ^ 1023 <= d /\ d <= 2 ^ 1023).
  { unfold d. apply Double_rnd_within; [exact S2 | lra | lra]. }
  assert (Hcore : (- 2 ^ 1023 <= m /\ m <= 2 ^ 1023) /\
                  (c <= t -> c <= n /\ n <= t) /\
                  (t <= c -> t <= n /\ n <= c)).
  { destruct (Qlt_le_dec t c) as [Hlt | Hle].
    - pose proof (Double_lerp_core_down c t f Hc Ht Hf0 Hf2 (Qlt_le_weak _ _ Hlt))
        as H. cbv zeta in H. fold d m n in H.
      destruct H as ((H1 & H2) & (H3 & H4) & H5 & H6).
      split; [lra|]. split; intros; split; lra.
    - pose proof (Double_lerp_core_up c t f Hc Ht Hf0 Hf2 Hle) as H.
      cbv zeta in H. fold d m n in H.
      destruct H as ((H1 & H2) & (H3 & H4) & H5 & H6).
      split; [lra|]. split; intros; split; lra. }
  destruct Hcore as (Hm & Hup & Hdown).
  assert (Hn : - Double.safe <= n /\ n <= Double.safe).
  { destruct (Qlt_le_dec t c) as [Hlt | Hle].
    - destruct (Hdown (Qlt_le_weak _ _ Hlt)). lra.
    - destruct (Hup Hle). lra. }
  exists n. split.
  - unfold Double.lerp, Double.sub, Double.mul, Double.add.
    rewrite (Double_number_some (t - c))
      by (fold d; apply Qabs_Qle_condition; lra).
    fold d. rewrite (Double_number_some (d * f))
      by (fold m; apply Qabs_Qle_condition; lra).
    fold m. rewrite (Double_number_some (c + m))
      by (fold n; apply Qabs_Qle_condition; lra).
    reflexivity.
  - split; [apply Double_rnd_idem|]. split; [apply Qabs_Qle_condition; lra|].
    split; assumption.
Qed.

Lemma Double_ease_succ_r t f n c :
  Double.ease t f (S n) c
  = match Double.ease t f n c with
    | Some a => Double.lerp a t f
    | None => None
    end.
Proof.
  revert c. induction n as [|n IH]; intros c.
  - simpl. now destruct (Double.lerp c t f).
  - change (Double.ease t f (S (S n)) c)
      with (match Double.lerp c t f with
            | Some c' => Double.ease t f (S n) c'
            | None => None
            end).
    destruct (Double.lerp c t f) as [c'|] eqn:E.
    + rewrite IH. simpl. rewrite E. reflexivity.
    + simpl. rewrite E. reflexivity.
Qed.

(** Any number of frames on doubles: the position is a double between
    the start and the target. *)
Lemma Double_ease_between t f n c :
  Double.rnd c == c -> Double.rnd t == t -> Double.rnd f == f ->
  Qabs c <= Double.safe -> Qabs t <= Double.safe ->
  0 <= f -> f < 1 ->
  exists a,
    Double.ease t f n c = Some a /\
    Double.rnd a == a /\ Qabs a <= Double.safe /\
    (c <= t -> c <= a /\ a <= t) /\
    (t <= c -> t <= a /\ a <= c).
Proof.
  intros Hc Ht Hf Bc Bt Hf0 Hf1.
  induction n as [|n IH].
  - exists c. simpl. repeat split; trivial; lra.
  - destruct IH as (a & Ea & Ha & Ba & Hup & Hdown).
    destruct (Double_lerp_towards a t f Ha Ht Hf Ba Bt Hf0 Hf1)
      as (b & Eb & Hb & Bb & Hup' & Hdown').
    exists b. rewrite Double_ease_succ_r, Ea.
    split; [exact Eb|]. split; [exact Hb|]. split; [exact Bb|].
    split; intros H.
    + destruct (Hup H). destruct Hup'; lra.
    + destruct (Hdown H). destruct Hdown'; lra.
Qed.

(** [Double.lerp] returns what the kernel's binary64 arithmetic returns:
    on the scroll easing at its start and where it stalls, on results that
    round up, past the target at factor 1, in the subnormal range and
    beyond the finite range. *)
Lemma Double_agrees_with_binary64 :
  forallb Double.agrees
    [(0%float, 0x1.9000000000000p+6%float, 0x1.999999999999ap-5%float);
     (0x1.8fffffffffff6p+6%float, 0x1.9000000000000p+6%float, 0x1.999999999999ap-5%float);
     (0x1.0000000000000p+0%float, 0x1.0000000000001p+0%float, 0x1.999999999999ap-5%float);
     (0x1.f40cccccccccdp+9%float, 0x1.3333333333333p-2%float, 0x1.0000000000000p+0%float);
     (0x1.1c37937e08000p+53%float, 0x1.0000000000000p+0%float, 0x1.0000000000000p+0%float);
     (0x1.999999999999ap-4%float, 0x1.999999999999ap-3%float, 0x1.0000000000000p-1%float);
     ((-0x1.e000000000000p+1)%float, 0x1.4000000000000p+1%float, 0x1.3333333333333p-3%float);
     (0x1.f400000000000p+7%float, (-0x1.1000000000000p+4)%float, 0x1.47ae147ae147bp-4%float);
     (0x0.0000000000001p-1022%float, 0x0.0000000000003p-1022%float, 0x1.3333333333333p-3%float);
     (0x1.0000000000000p-1022%float, 0x0.0000000001fa0p-1022%float, 0x1.0000000000000p-2%float);
     (0x1.7e43c8800759cp+996%float, (-0x1.7e43c8800759cp+996)%float, 0x1.0000000000000p-2%float);
     (0x1.fffffffffffffp+1023%float, (-0x1.fffffffffffffp+1023)%float, 0x1.0000000000000p-2%float);
     (0x1.0000000000000p+0%float, 0x1.8000000000000p+1%float, 0x1.fffffffffffffp-1%float);
     (0x1.e240c9fbe76c9p+16%float, 0x1.e240c9fbe76cap+16%float, 0x1.999999999999ap-4%float)]
  = true /\
  Double.sameNumber (Double.toQ Binary64.scrollFactor)
    (Some Double.scrollFactor) = true.
Proof. split; vm_compute; reflexivity. Qed.

(** C5 (amended): for a fixed target [t], any start [c0] and a factor in
    (0,1).  In exact arithmetic the positions [c n] after [n] ticks satisfy
    [t - c n = (1 - f)^n * (t - c0)]: the distance to the target strictly
    decreases at every tick while it is nonzero, and the sign of
    [t - c n] is that of [t - c0] throughout (no overshoot); the scroll
    position of part_000 follows this sequence with [f = 0.05] as long as
    only frames run.  On doubles (start and target of magnitude at most
    [2^1022], the factor a double) every tick returns a double between the
    position before it and the target: the distance to the target never
    increases and the position never passes the target, and once on the
    target it stays there. *)
Theorem C5_easing_approaches_target (f t c0 : Q) (n : nat) :
  0 < f -> f < 1 ->
  let c k := iterate (fun c => lerp c t f) k c0 in
  t - c n == (1 - f) ^ Z.of_nat n * (t - c0) /\
  (~ c n == t -> Qabs (t - c (S n)) < Qabs (t - c n)) /\
  (0 < t - c0 -> 0 < t - c n) /\
  (t - c0 < 0 -> t - c n < 0) /\
  (c0 == t -> c n == t) /\
  (forall doms p,
      Part000.currentX
        (Part000.state (Part000.run (map Part000.Tick doms) p))
      = iterate (fun c => lerp c (Part000.targetX (Part000.state p)) 0.05)
          (length doms) (Part000.currentX (Part000.state p))) /\
  (Double.rnd f == f -> Double.rnd t == t -> Double.rnd c0 == c0 ->
   Qabs t <= Double.safe -> Qabs c0 <= Double.safe ->
   exists a b,
     Double.ease t f n c0 = Some a /\
     Double.lerp a t f = Some b /\
     Double.ease t f (S n) c0 = Some b /\
     Double.rnd b == b /\
     Qabs (t - b) <= Qabs (t - a) /\
     (c0 <= t -> c0 <= a /\ a <= b /\ b <= t) /\
     (t <= c0 -> t <= b /\ b <= a /\ a <= c0) /\
     (a == t -> b == t)).
Proof.
  intros H0 H1 c.
  assert (Hgap : t - c n == (1 - f) ^ Z.of_nat n * (t - c0))
    by apply iterate_lerp_gap.
  assert (Hk : 0 < (1 - f) ^ Z.of_nat n) by (apply Qpower_0_lt; lra).
  split; [exact Hgap|].
  split.
  { intros Hne. unfold c at 1. rewrite iterate_succ_r, lerp_gap.
    apply gap_shrinks; trivial. fold (c n). lra. }
  split; [intros; rewrite Hgap; nra|].
  split; [intros; rewrite Hgap; nra|].
  split.
  { intros He.
    assert (t - c n == 0) by (rewrite Hgap; rewrite He; ring). lra. }
  split; [intros doms p; apply Part000_ticks|].
  intros Hf Ht Hc Bt Bc.
  assert (Hf0 : 0 <= f) by lra.
  destruct (Double_ease_between t f n c0 Hc Ht Hf Bc Bt Hf0 H1)
    as (a & Ea & Ha & Ba & Hup & Hdown).
  destruct (Double_lerp_towards a t f Ha Ht Hf Ba Bt Hf0 H1)
    as (b & Eb & Hb & Bb & Hup' & Hdown').
  exists a, b.
  split; [exact Ea|]. split; [exact Eb|].
  split; [rewrite Double_ease_succ_r, Ea; exact Eb|].
  split; [exact Hb|].
  split.
  { destruct (Qlt_le_dec t a) as [L | L].
    - destruct (Hdown' (Qlt_le_weak _ _ L)).
      rewrite (Qabs_neg (t - b)), (Qabs_neg (t - a)) by lra. lra.
    - destruct (Hup' L).
      rewrite (Qabs_pos (t - b)), (Qabs_pos (t - a)) by lra. lra. }
  split.
  { intros H. destruct (Hup H). destruct Hup'; lra. }
  split.
  { intros H. destruct (Hdown H). destruct Hdown'; lra. }
  intros E. destruct Hup'; [lra|]. destruct Hdown'; lra.
Qed.

(** Easing from 0 towards 100 with the scroll factor of part_000: after
    three ticks the position is still short of the target, in exact
    arithmetic and on doubles, where the fourth tick brings it no farther
    from the target. *)
Lemma C5_witness :
  0 < 100 - iterate (fun c => lerp c 100 Double.scrollFactor) 3 0 /\
  exists a b,
    Double.ease 100 Double.scrollFactor 3 0 = Some a /\
    Double.ease 100 Double.scrollFactor 4 0 = Some b /\
    0 <= a /\ a <= b /\ b <= 100.
Proof.
  assert (H0 : 0 < Double.scrollFactor) by reflexivity.
  assert (H1 : Double.scrollFactor < 1) by reflexivity.
  destruct (C5_easing_approaches_target Double.scrollFactor 100 0 3 H0 H1)
    as (_ & _ & Hpos & _ & _ & _ & HD).
  split; [apply Hpos; reflexivity|].
  destruct HD as (a & b & Ea & _ & Eb & _ & _ & Hup & _).
  - apply Qeq_bool_iff. vm_compute. reflexivity.
  - apply Qeq_bool_iff. vm_compute. reflexivity.
  - reflexivity.
  - apply Qle_bool_iff. vm_compute. reflexivity.
  - apply Qle_bool_iff. vm_compute. reflexivity.
  - exists a, b. split; [exact Ea|]. split; [exact Eb|].
    apply Hup. discriminate.
Defined.

(** C5 as stated fails on JavaScript numbers.  Easing from 0 towards 100
    with factor 0.05, the position after 700 frames differs from the
    target, and the next frame returns the same position: the distance is
    nonzero and does not decrease, then or in any of the next 1300 frames.
    The smallest instance: from 1 towards the next double above 1, a frame
    returns 1. *)
Lemma C5_counterexample_binary64_stall :
  let target := 100%float in
  let cur := iterate (Binary64.ease target) 700 0%float in
  Binary64.ease target cur = cur /\
  PrimFloat.eqb cur target = false /\
  PrimFloat.ltb (Binary64.distance target (Binary64.ease target cur))
    (Binary64.distance target cur) = false /\
  iterate (Binary64.ease target) 2000 0%float = cur /\
  Binary64.ease 0x1.0000000000001p+0%float 1%float = 1%float.
Proof.
  vm_compute. repeat split.
Qed.

(** ** Cursor convergence *)






(** * Further properties of the code *)

(** ** The scroll position never goes negative *)

Lemma lerp_nonneg (c t f : Q) :
  0 <= f -> f <= 1 -> 0 <= c -> 0 <= t -> 0 <= lerp c t f.
Proof. intros. unfold lerp. nra. Qed.

Lemma Part000_scroll_nonneg_step p e :
  0 <= Part000.currentX (Part000.state p) /\
  0 <= Part000.targetX (Part000.state p) ->
  0 <= Part000.currentX (Part000.state (Part000.step p e)) /\
  0 <= Part000.targetX (Part000.state (Part000.step p e)).
Proof.
  intros [Hc Ht]. split; [|now apply Part000_target_nonneg_step].
  destruct e as [cx cy | dom | d | dom]; simpl; trivial.
  - unfold Part000.calculateLayout.
    destruct (Part000.container dom); exact Hc.
  - apply lerp_nonneg; trivial; lra.
Qed.

Lemma AppTsx_scroll_nonneg_step s e :
  0 <= AppTsx.currentX s /\ 0 <= AppTsx.targetX s ->
  0 <= AppTsx.currentX (AppTsx.step s e) /\
  0 <= AppTsx.targetX (AppTsx.step s e).
Proof.
  intros [Hc Ht]. destruct e as [dom | d | dom]; simpl.
  - unfold AppTsx.calculateLayout.
    destruct (AppTsx.container dom); split; assumption.
  - split; [exact Hc | apply (clamp_lower (AppTsx.targetX s + d) 0)].
  - split; [lra | exact Ht].
Qed.

Lemma Part001_scroll_nonneg_step p e :
  0 <= Part001.currentX (Part001.state p) /\
  0 <= Part001.targetX (Part001.state p) ->
  0 <= Part001.currentX (Part001.state (Part001.step p e)) /\
  0 <= Part001.targetX (Part001.state (Part001.step p e)).
Proof.
  intros [Hc Ht]. destruct e as [cx cy | dom | w d | dom]; simpl.
  - split; assumption.
  - unfold Part001.calculateLayout.
    destruct (Part001.container dom);
      [destruct (Part001.horizontal _)|]; split; assumption.
  - unfold Part001.handleWheel.
    destruct (Qle_bool 1024 w); simpl; split; trivial.
    apply (clamp_lower (Part001.targetX (Part001.state p) + d) 0).
  - unfold Part001.animate.
    destruct (Part001.horizontal _); simpl; split; trivial.
    apply lerp_nonneg; trivial; lra.
Qed.

(** X2: in all three variants, whatever events arrive in whatever order,
    [currentX] and [targetX] are never negative: the page is never
    translated to the right of its resting place, and the [Math.abs] of
    the zoom computation never changes its argument. *)
Theorem X2_scroll_never_negative :
  (forall events,
      let s := Part000.state (Part000.run events Part000.initialPage) in
      0 <= Part000.currentX s /\ 0 <= Part000.targetX s /\
      Qabs (Part000.currentX s) == Part000.currentX s) /\
  (forall events,
      let s := fold_left AppTsx.step events AppTsx.initialState in
      0 <= AppTsx.currentX s /\ 0 <= AppTsx.targetX s /\
      Qabs (AppTsx.currentX s) == AppTsx.currentX s) /\
  (forall events,
      let s := Part001.state (Part001.run events Part001.initialPage) in
      0 <= Part001.currentX s /\ 0 <= Part001.targetX s /\
      Qabs (Part001.currentX s) == Part001.currentX s).
Proof.
  split; [|split].
  - intros events.
    assert (H : forall p,
               0 <= Part000.currentX (Part000.state p) /\
               0 <= Part000.targetX (Part000.state p) ->
               0 <= Part000.currentX (Part000.state (Part000.run events p)) /\
               0 <= Part000.targetX (Part000.state (Part000.run events p))).
    { induction events as [|e events IH]; intros p Hp; [exact Hp|].
      apply IH. now apply Part000_scroll_nonneg_step. }
    destruct (H Part000.initialPage) as [Hc Ht]; [simpl; lra|].
    cbv zeta. repeat split; trivial. now apply Qabs_pos.
  - intros events.
    assert (H : forall s,
               0 <= AppTsx.currentX s /\ 0 <= AppTsx.targetX s ->
               0 <= AppTsx.currentX (fold_left AppTsx.step events s) /\
               0 <= AppTsx.targetX (fold_left AppTsx.step events s)).
    { induction events as [|e events IH]; intros s Hs; [exact Hs|].
      apply IH. now apply AppTsx_scroll_nonneg_step. }
    destruct (H AppTsx.initialState) as [Hc Ht]; [simpl; lra|].
    cbv zeta. repeat split; trivial. now apply Qabs_pos.
  - intros events.
    assert (H : forall p,
               0 <= Part001.currentX (Part001.state p) /\
               0 <= Part001.targetX (Part001.state p) ->
               0 <= Part001.currentX (Part001.state (Part001.run events p)) /\
               0 <= Part001.targetX (Part001.state (Part001.run events p))).
    { induction events as [|e events IH]; intros p Hp; [exact Hp|].
      apply IH. now apply Part001_scroll_nonneg_step. }
    destruct (H Part001.initialPage) as [Hc Ht]; [simpl; lra|].
    cbv zeta. repeat split; trivial. now apply Qabs_pos.
Qed.

(** ** What a frame writes stays in range *)

Lemma zoomLevel_antitone (c1 c2 w : Q) :
  0 < w -> Qabs c1 <= Qabs c2 ->
  Part000.zoomLevel c2 w <= Part000.zoomLevel c1 w.
Proof.
  intros Hw Hc. unfold Part000.zoomLevel.
  assert (Hq : Qabs c1 / (w * 0.25) <= Qabs c2 / (w * 0.25)).
  { unfold Qdiv. apply Qmult_le_compat_r; [exact Hc|].
    apply Qlt_le_weak, Qinv_lt_0_compat. lra. }
  minmax_lra.
Qed.

(** X3: in a viewport of positive width the scale a frame writes is
    always between 1.0 and 1.5, in all three variants, and it never grows
    when the page is scrolled farther from its start. *)
Theorem X3_zoom_within_range :
  (forall dom p tx z k,
      0 < Part000.innerWidth dom ->
      Part000.containerTransform (snd (Part000.animate dom p))
      = Some (tx, z, k) ->
      1.0 <= z /\ z <= 1.5) /\
  (forall dom s tx z,
      0 < AppTsx.innerWidth dom ->
      AppTsx.containerTransform (snd (AppTsx.animate dom s)) = Some (tx, z) ->
      1.0 <= z /\ z <= 1.5) /\
  (forall dom p tx z k,
      Part001.containerTransform (snd (Part001.animate dom p))
      = Some (Part001.Transformed tx z k) ->
      1.0 <= z /\ z <= 1.5) /\
  (forall c1 c2 w,
      0 < w -> Qabs c1 <= Qabs c2 ->
      Part000.zoomLevel c2 w <= Part000.zoomLevel c1 w).
Proof.
  split; [|split; [|split]].
  - intros dom p tx z k Hw H. simpl in H.
    destruct (Part000.container dom); [|discriminate].
    injection H as _ <- _. now apply Part000_zoomLevel_range.
  - intros dom s tx z Hw H. simpl in H.
    destruct (AppTsx.container dom); [|discriminate].
    injection H as _ <-.
    apply (Part000_zoomLevel_range _ (AppTsx.innerWidth dom) Hw).
  - intros dom p tx z k H. unfold Part001.animate in H.
    destruct (Part001.horizontal (Part001.innerWidth dom)) eqn:E;
      simpl in H; destruct (Part001.container dom); try discriminate.
    injection H as _ <- _.
    apply Qle_bool_iff in E.
    apply (Part000_zoomLevel_range _ (Part001.innerWidth dom)). lra.
  - exact zoomLevel_antitone.
Qed.

Lemma X3_witness :
  Part000.zoomLevel 300 1600 <= Part000.zoomLevel 100 1600.
Proof.
  apply (proj2 (proj2 (proj2 X3_zoom_within_range))).
  - lra.
  - vm_compute. discriminate.
Defined.

Lemma Part000_progressBar_track thumb cx ms t :
  Part000.progressBar thumb cx ms = Some t ->
  (0 <= t /\ t <= 224) /\
  (0 <= cx -> cx <= ms -> t == cx / ms * 224) /\
  (cx <= 0 -> t == 0) /\
  (ms <= cx -> t == 224).
Proof.
  intros H.
  apply Part000_progressBar_some in H. destruct H as (_ & Hms & Ht).
  pose proof (clamp_range (cx / ms) 0 1) as Hr.
  pose proof (clamp_cases (cx / ms) 0 1) as Hc.
  assert (H01 : 0 <= 1) by lra.
  specialize (Hr H01). specialize (Hc H01).
  destruct Hc as (Hlo & Hin & Hhi).
  split; [lra|].
  split; [|split].
  - intros H0 H1.
    assert (0 <= cx / ms) by (apply Qle_shift_div_l; lra).
    assert (cx / ms <= 1) by (apply Qle_shift_div_r; lra).
    rewrite Ht, Hin by assumption. reflexivity.
  - intros H0.
    assert (Hq : cx / ms <= 0) by (apply Qle_shift_div_r; lra).
    rewrite Ht. unfold clamp in *. clear Hlo Hin Hhi Hr. minmax_lra.
  - intros H1.
    assert (Hq : 1 <= cx / ms) by (apply Qle_shift_div_l; lra).
    rewrite Ht. unfold clamp in *. clear Hlo Hin Hhi Hr. minmax_lra.
Qed.

(** X4: whenever a frame of any of the three variants moves the progress
    thumb, it puts it between 0 and 224 pixels along the track: at the
    share of [maxScroll] the frame's position has reached while that
    position is inside [[0, maxScroll]], at 0 for a position below and at
    224 for a position above that range. *)
Theorem X4_thumb_within_track :
  (forall dom p t,
      Part000.thumbTransform (snd (Part000.animate dom p)) = Some t ->
      let cx := Part000.currentX (Part000.state (fst (Part000.animate dom p))) in
      let ms := Part000.maxScroll (Part000.state p) in
      (0 <= t /\ t <= 224) /\
      (0 <= cx -> cx <= ms -> t == cx / ms * 224) /\
      (cx <= 0 -> t == 0) /\
      (ms <= cx -> t == 224)) /\
  (forall dom s t,
      AppTsx.thumbTransform (snd (AppTsx.animate dom s)) = Some t ->
      let cx := AppTsx.currentX (fst (AppTsx.animate dom s)) in
      let ms := AppTsx.maxScroll s in
      (0 <= t /\ t <= 224) /\
      (0 <= cx -> cx <= ms -> t == cx / ms * 224) /\
      (cx <= 0 -> t == 0) /\
      (ms <= cx -> t == 224)) /\
  (forall dom p t,
      Part001.thumbTransform (snd (Part001.animate dom p)) = Some t ->
      let cx := Part001.currentX (Part001.state (fst (Part001.animate dom p))) in
      let ms := Part001.maxScroll (Part001.state p) in
      (0 <= t /\ t <= 224) /\
      (0 <= cx -> cx <= ms -> t == cx / ms * 224) /\
      (cx <= 0 -> t == 0) /\
      (ms <= cx -> t == 224)).
Proof.
  split; [|split].
  - intros dom p t H. cbv zeta. unfold Part000.animate in *.
    cbn [snd fst Part000.thumbTransform Part000.state Part000.currentX] in *.
    exact (Part000_progressBar_track _ _ _ _ H).
  - intros dom s t H. cbv zeta. unfold AppTsx.animate in *.
    cbn [snd fst AppTsx.thumbTransform AppTsx.currentX] in *.
    exact (Part000_progressBar_track _ _ _ _ H).
  - intros dom p t H. cbv zeta. unfold Part001.animate in *.
    destruct (Part001.horizontal (Part001.innerWidth dom));
      cbn [snd fst Part001.thumbTransform Part001.state Part001.currentX]
        in *; [|discriminate].
    exact (Part000_progressBar_track _ _ _ _ H).
Qed.

(** A frame of App.tsx on a page at rest at 125 of 500 pixels. *)
Lemma X4_witness :
  exists t,
    AppTsx.thumbTransform
      (snd (AppTsx.animate
              {| AppTsx.innerWidth := 1600; AppTsx.container := Some 2100;
                 AppTsx.cursorEl := true; AppTsx.flowSlide := None;
                 AppTsx.flowText := true; AppTsx.progressThumb := true |}
              {| AppTsx.currentX := 125; AppTsx.targetX := 125;
                 AppTsx.maxScroll := 500 |}))
    = Some t /\ 0 <= t /\ t <= 224.
Proof.
  eexists. split; [reflexivity|].
  refine (proj1 (proj1 (proj2 X4_thumb_within_track)
    {| AppTsx.innerWidth := 1600; AppTsx.container := Some 2100;
       AppTsx.cursorEl := true; AppTsx.flowSlide := None;
       AppTsx.flowText := true; AppTsx.progressThumb := true |}
    {| AppTsx.currentX := 125; AppTsx.targetX := 125;
       AppTsx.maxScroll := 500 |} _ _)).
  reflexivity.
Defined.

(** ** Skew *)

Lemma Part000_tick_skew_bound dom p B :
  Qabs (Part000.skew (Part000.state p)) <= B /\
  Qabs (Part000.targetX (Part000.state p)
        - Part000.currentX (Part000.state p)) * 0.001 <= B ->
  let p' := Part000.step p (Part000.Tick dom) in
  Qabs (Part000.skew (Part000.state p')) <= B /\
  Qabs (Part000.targetX (Part000.state p')
        - Part000.currentX (Part000.state p')) * 0.001 <= B.
Proof.
  intros [Hs Hg]. cbv zeta. unfold Part000.step, Part000.animate.
  cbn [fst Part000.state Part000.skew Part000.targetX Part000.currentX].
  set (t := Part000.targetX (Part000.state p)) in *.
  set (c := Part000.currentX (Part000.state p)) in *.
  set (k := Part000.skew (Part000.state p)) in *.
  assert (Hg' : Qabs (t - c) <= 1000 * B) by lra.
  apply Qabs_Qle_condition in Hs. apply Qabs_Qle_condition in Hg'.
  split.
  - apply Qabs_Qle_condition. unfold lerp. split; lra.
  - assert (Qabs (t - lerp c t 0.05) <= 1000 * B); [|lra].
    apply Qabs_Qle_condition. unfold lerp. split; lra.
Qed.

(** X5: over any number of frames with the target at rest, the skew never
    exceeds in size the larger of its starting value and a thousandth of
    the starting distance to the target; from rest (skew 0) a jump of
    [g] pixels never tilts the page by more than [g / 1000] degrees. *)
Theorem X5_skew_bounded (doms : list Part000.Dom) (p : Part000.Page) (B : Q) :
  Qabs (Part000.skew (Part000.state p)) <= B ->
  Qabs (Part000.targetX (Part000.state p)
        - Part000.currentX (Part000.state p)) * 0.001 <= B ->
  Qabs (Part000.skew
          (Part000.state (Part000.run (map Part000.Tick doms) p))) <= B.
Proof.
  intros Hs Hg.
  assert (H : Qabs (Part000.skew (Part000.state p)) <= B /\
              Qabs (Part000.targetX (Part000.state p)
                    - Part000.currentX (Part000.state p)) * 0.001 <= B)
    by (split; assumption).
  clear Hs Hg. revert p H.
  induction doms as [|dom doms IH]; intros p H.
  - exact (proj1 H).
  - change (Part000.run (map Part000.Tick (dom :: doms)) p)
      with (Part000.run (map Part000.Tick doms)
              (Part000.step p (Part000.Tick dom))).
    apply IH. now apply Part000_tick_skew_bound.
Qed.

(** A wheel event of 800 on a page at rest, then ten frames: the skew
    stays within 0.8 degrees. *)
Lemma X5_witness :
  let dom :=
    {| Part000.innerWidth := 1600; Part000.container := Some 4000;
       Part000.cursorEl := true; Part000.flowSlide := None;
       Part000.flowText := true; Part000.progressThumb := true |} in
  let p :=
    Part000.run [Part000.Layout dom; Part000.Wheel 800]
      Part000.initialPage in
  Qabs (Part000.skew
          (Part000.state (Part000.run (map Part000.Tick (repeat dom 10)) p)))
  <= 0.8.
Proof.
  cbv zeta. apply X5_skew_bounded; vm_compute; discriminate.
Defined.

(** ** The cursor stays in the viewport *)

Lemma lerp_within (lo hi c m f : Q) :
  0 <= f -> f <= 1 -> lo <= c -> c <= hi -> lo <= m -> m <= hi ->
  lo <= lerp c m f /\ lerp c m f <= hi.
Proof. intros. unfold lerp. split; nra. Qed.

Lemma Part000_cursor_step W H p e :
  Part000_pointerInViewport W H e ->
  Part000_inViewport W H (Part000.mouse p) /\
  Part000_inViewport W H (Part000.cursor p) ->
  Part000_inViewport W H (Part000.mouse (Part000.step p e)) /\
  Part000_inViewport W H (Part000.cursor (Part000.step p e)).
Proof.
  intros He [Hm Hc].
  destruct e as [cx cy | dom | d | dom]; simpl; try (split; assumption).
  split; [exact Hm|].
  destruct Hm as (m1 & m2 & m3 & m4), Hc as (c1 & c2 & c3 & c4).
  assert (F0 : 0 <= 0.15) by lra. assert (F1 : 0.15 <= 1) by lra.
  pose proof (lerp_within 0 W _ _ 0.15 F0 F1 c1 c2 m1 m2).
  pose proof (lerp_within 0 H _ _ 0.15 F0 F1 c3 c4 m3 m4).
  unfold Part000_inViewport. cbn [Part000.x Part000.y]. tauto.
Qed.

(** X6: as long as every pointer position reported to [onMouseMove] lies
    in the viewport [[0, W] x [0, H]], the smoothed cursor of part_000 lies
    in it too, after any sequence of pointer moves, wheel events, layout
    measurements and frames. *)
Theorem X6_cursor_stays_in_viewport (W H : Q) (events : list Part000.Event) :
  0 <= W -> 0 <= H ->
  Forall (Part000_pointerInViewport W H) events ->
  Part000_inViewport W H
    (Part000.cursor (Part000.run events Part000.initialPage)).
Proof.
  intros HW HH Hev.
  assert (Hgen : forall p,
    Part000_inViewport W H (Part000.mouse p) /\
    Part000_inViewport W H (Part000.cursor p) ->
    Part000_inViewport W H (Part000.mouse (Part000.run events p)) /\
    Part000_inViewport W H (Part000.cursor (Part000.run events p))).
  { induction Hev as [|e events He _ IH]; intros p Hp; [exact Hp|].
    simpl. apply IH. now apply Part000_cursor_step. }
  apply Hgen. unfold Part000_inViewport. simpl. repeat split; lra.
Qed.

Lemma X6_witness :
  Part000_inViewport 1600 900
    (Part000.cursor
       (Part000.run
          [Part000.MouseMove 800 450;
           Part000.Tick
             {| Part000.innerWidth := 1600; Part000.container := Some 4000;
                Part000.cursorEl := true; Part000.flowSlide := None;
                Part000.flowText := true; Part000.progressThumb := true |}]
          Part000.initialPage)).
Proof.
  apply X6_cursor_stays_in_viewport; [lra | lra |].
  repeat constructor; simpl; lra.
Defined.

(** ** The responsive variant below its breakpoint *)

Lemma Part001_horizontal_false w : w < 1024 -> Part001.horizontal w = false.
Proof.
  intros H. unfold Part001.horizontal.
  destruct (Qle_bool 1024 w) eqn:E; [|reflexivity].
  apply Qle_bool_iff in E. lra.
Qed.

Lemma Part001_step_below p e :
  Part001_belowBreakpoint e ->
  Part001.state (Part001.step p e) = Part001.state p.
Proof.
  intros H. destruct e as [cx cy | dom | w d | dom]; simpl in *.
  - reflexivity.
  - unfold Part001.calculateLayout.
    rewrite (Part001_horizontal_false _ H).
    now destruct (Part001.container dom).
  - unfold Part001.handleWheel.
    pose proof (Part001_horizontal_false _ H) as E.
    unfold Part001.horizontal in E. now rewrite E.
  - unfold Part001.animate. now rewrite (Part001_horizontal_false _ H).
Qed.

(** X7: while the viewport of part_001 is narrower than 1024px, no
    sequence of wheel events, layout measurements, pointer moves and frames
    changes the animation state; a frame then resets the container's
    transform to [none], does not touch the progress thumb, and still
    eases the cursor towards the pointer. *)
Theorem X7_vertical_mode_freezes_scroll :
  (forall events p,
      Forall Part001_belowBreakpoint events ->
      Part001.state (Part001.run events p) = Part001.state p) /\
  (forall dom p,
      Part001.innerWidth dom < 1024 ->
      let f := snd (Part001.animate dom p) in
      let p' := fst (Part001.animate dom p) in
      Part001.containerTransform f
      = match Part001.container dom with
        | Some _ => Some Part001.TransformNone
        | None => None
        end /\
      Part001.thumbTransform f = None /\
      Part001.x (Part001.cursor p')
      = lerp (Part001.x (Part001.cursor p)) (Part001.x (Part001.mouse p)) 0.25 /\
      Part001.y (Part001.cursor p')
      = lerp (Part001.y (Part001.cursor p)) (Part001.y (Part001.mouse p)) 0.25).
Proof.
  split.
  - intros events p Hev. revert p.
    induction Hev as [|e events He _ IH]; intros p; [reflexivity|].
    simpl. rewrite IH. now apply Part001_step_below.
  - intros dom p H. cbv zeta. unfold Part001.animate.
    rewrite (Part001_horizontal_false _ H). repeat split.
Qed.

(** Scrolled to 300 on a wide screen, then narrowed to 800px: wheel events
    and frames leave the state alone. *)
Lemma X7_witness :
  let dom w :=
    {| Part001.innerWidth := w; Part001.container := Some 3000;
       Part001.cursorEl := true; Part001.flowSlide := None;
       Part001.flowText := true; Part001.progressThumb := true |} in
  let p :=
    Part001.run [Part001.Layout (dom 1200); Part001.Wheel 1200 300]
      Part001.initialPage in
  Part001.state
    (Part001.run [Part001.Wheel 800 50; Part001.Tick (dom 800)] p)
  = Part001.state p.
Proof.
  cbv zeta. apply (proj1 X7_vertical_mode_freezes_scroll).
  repeat constructor; simpl; lra.
Defined.

(** ** Cursor of the responsive variant *)

Lemma Part001_ticks_cursor doms p :
  let p' := Part001.run (map Part001.Tick doms) p in
  Part001.mouse p' = Part001.mouse p /\
  Part001.x (Part001.cursor p')
  = iterate (fun c => lerp c (Part001.x (Part001.mouse p)) 0.25)
      (length doms) (Part001.x (Part001.cursor p)) /\
  Part001.y (Part001.cursor p')
  = iterate (fun c => lerp c (Part001.y (Part001.mouse p)) 0.25)
      (length doms) (Part001.y (Part001.cursor p)).
Proof.
  revert p. induction doms as [|dom doms IH]; intros p.
  - repeat split.
  - specialize (IH (Part001.step p (Part001.Tick dom))).
    cbv zeta in *. destruct IH as (Hm & Hx & Hy).
    change (Part001.run (map Part001.Tick (dom :: doms)) p)
      with (Part001.run (map Part001.Tick doms)
              (Part001.step p (Part001.Tick dom))).
    rewrite Hm, Hx, Hy.
    unfold Part001.step, Part001.animate.
    destruct (Part001.horizontal (Part001.innerWidth dom)); repeat split.
Qed.

(** X8: in part_001 the cursor eases towards a resting pointer at every
    frame, whatever the viewport width of the frame (both modes): after
    [n] frames the horizontal gap is [0.75^n] times what it was, so a gap
    of 500px is below 1px after 22 frames and not after 21. *)
Theorem X8_part001_cursor_converges (doms : list Part001.Dom)
  (p : Part001.Page) :
  let p' := Part001.run (map Part001.Tick doms) p in
  let gap q := Part001.x (Part001.mouse q) - Part001.x (Part001.cursor q) in
  gap p' == 0.75 ^ Z.of_nat (length doms) * gap p /\
  (Qabs (gap p) == 500 -> length doms = 22%nat -> Qabs (gap p') < 1) /\
  (Qabs (gap p) == 500 -> length doms = 21%nat -> 1 <= Qabs (gap p')).
Proof.
  cbv zeta.
  destruct (Part001_ticks_cursor doms p) as (Hm & Hx & _).
  assert (Hgap :
    Part001.x (Part001.mouse (Part001.run (map Part001.Tick doms) p))
    - Part001.x (Part001.cursor (Part001.run (map Part001.Tick doms) p))
    == 0.75 ^ Z.of_nat (length doms)
       * (Part001.x (Part001.mouse p) - Part001.x (Part001.cursor p))).
  { rewrite Hm, Hx, iterate_lerp_gap.
    apply Qmult_comp; [|reflexivity].
    apply Qpower_comp; reflexivity. }
  split; [exact Hgap|].
  assert (Habs : forall g,
    Qabs g == 500 ->
    Qabs (0.75 ^ Z.of_nat (length doms) * g)
    == 500 * 0.75 ^ Z.of_nat (length doms)).
  { intros g Hg.
    rewrite Qabs_Qmult, Qabs_pos, Hg by (apply Qpower_0_le; lra). ring. }
  split; intros Hg Hlen; rewrite Hgap, (Habs _ Hg), Hlen.
  - vm_compute. reflexivity.
  - vm_compute. discriminate.
Qed.

(** ** Scroll easing of App.tsx *)

Lemma AppTsx_ticks doms s :
  let s' := fold_left AppTsx.step (map AppTsx.Tick doms) s in
  AppTsx.targetX s' = AppTsx.targetX s /\
  AppTsx.maxScroll s' = AppTsx.maxScroll s /\
  AppTsx.currentX s'
  = iterate (fun c => lerp c (AppTsx.targetX s) 0.08)
      (length doms) (AppTsx.currentX s).
Proof.
  revert s. induction doms as [|dom doms IH]; intros s.
  - repeat split.
  - specialize (IH (AppTsx.step s (AppTsx.Tick dom))).
    cbv zeta in *. destruct IH as (Ht & Hm & Hc).
    change (fold_left AppTsx.step (map AppTsx.Tick (dom :: doms)) s)
      with (fold_left AppTsx.step (map AppTsx.Tick doms)
              (AppTsx.step s (AppTsx.Tick dom))).
    rewrite Ht, Hm, Hc. repeat split.
Qed.

Lemma Qpower_base_le (a b : Q) (n : nat) :
  0 <= a -> a <= b -> a ^ Z.of_nat n <= b ^ Z.of_nat n.
Proof.
  intros Ha Hab. induction n as [|n IH].
  - simpl. lra.
  - rewrite !Qpower_S.
    assert (0 <= a ^ Z.of_nat n) by (apply Qpower_0_le; lra).
    nra.
Qed.

(** X9: the inline easing of App.tsx, [currentX += (targetX - currentX) *
    0.08], leaves [targetX] and [maxScroll] alone and multiplies the gap to
    the target by 0.92 per frame; after the same number of frames from the
    same gap App.tsx is at least as close to its target as part_000, which
    eases with 0.05. *)
Theorem X9_AppTsx_easing (doms : list AppTsx.Dom) (s : AppTsx.AnimationState) :
  let s' := fold_left AppTsx.step (map AppTsx.Tick doms) s in
  let n := Z.of_nat (length doms) in
  AppTsx.targetX s' = AppTsx.targetX s /\
  AppTsx.maxScroll s' = AppTsx.maxScroll s /\
  AppTsx.targetX s' - AppTsx.currentX s'
  == 0.92 ^ n * (AppTsx.targetX s - AppTsx.currentX s) /\
  (forall doms0 p,
      length doms0 = length doms ->
      Part000.targetX (Part000.state p) - Part000.currentX (Part000.state p)
      == AppTsx.targetX s - AppTsx.currentX s ->
      let p' := Part000.run (map Part000.Tick doms0) p in
      Qabs (AppTsx.targetX s' - AppTsx.currentX s')
      <= Qabs (Part000.targetX (Part000.state p')
               - Part000.currentX (Part000.state p'))).
Proof.
  cbv zeta. destruct (AppTsx_ticks doms s) as (Ht & Hm & Hc).
  assert (Hgap :
    AppTsx.targetX (fold_left AppTsx.step (map AppTsx.Tick doms) s)
    - AppTsx.currentX (fold_left AppTsx.step (map AppTsx.Tick doms) s)
    == 0.92 ^ Z.of_nat (length doms)
       * (AppTsx.targetX s - AppTsx.currentX s)).
  { rewrite Ht, Hc, iterate_lerp_gap.
    apply Qmult_comp; [|reflexivity].
    apply Qpower_comp; reflexivity. }
  split; [exact Ht|]. split; [exact Hm|]. split; [exact Hgap|].
  intros doms0 p Hlen Hsame.
  destruct (Part000_ticks doms0 p) as (Ht0 & _ & Hc0 & _).
  assert (Hgap0 :
    Part000.targetX (Part000.state (Part000.run (map Part000.Tick doms0) p))
    - Part000.currentX
        (Part000.state (Part000.run (map Part000.Tick doms0) p))
    == (1 - 0.05) ^ Z.of_nat (length doms0)
       * (Part000.targetX (Part000.state p)
          - Part000.currentX (Part000.state p)))
    by (rewrite Ht0, Hc0; apply iterate_lerp_gap).
  rewrite Hgap, Hgap0, Hsame, Hlen.
  rewrite !Qabs_Qmult.
  rewrite (Qabs_pos (0.92 ^ Z.of_nat (length doms))),
    (Qabs_pos ((1 - 0.05) ^ Z.of_nat (length doms)))
    by (apply Qpower_0_le; lra).
  apply Qmult_le_compat_r; [|apply Qabs_nonneg].
  apply Qpower_base_le; lra.
Qed.

(** Both pages 1000px short of their target, five frames later. *)
Lemma X9_witness :
  let domA :=
    {| AppTsx.innerWidth := 1600; AppTsx.container := Some 4000;
       AppTsx.cursorEl := true; AppTsx.flowSlide := None;
       AppTsx.flowText := true; AppTsx.progressThumb := true |} in
  let dom0 :=
    {| Part000.innerWidth := 1600; Part000.container := Some 4000;
       Part000.cursorEl := true; Part000.flowSlide := None;
       Part000.flowText := true; Part000.progressThumb := true |} in
  let s := AppTsx.handleWheel 1000
             (AppTsx.calculateLayout domA AppTsx.initialState) in
  let p := Part000.run [Part000.Layout dom0; Part000.Wheel 1000]
             Part000.initialPage in
  let s' := fold_left AppTsx.step (map AppTsx.Tick (repeat domA 5)) s in
  let p' := Part000.run (map Part000.Tick (repeat dom0 5)) p in
  Qabs (AppTsx.targetX s' - AppTsx.currentX s')
  <= Qabs (Part000.targetX (Part000.state p')
           - Part000.currentX (Part000.state p')).
Proof.
  cbv zeta.
  refine (proj2 (proj2 (proj2 (X9_AppTsx_easing _ _))) _ _ _ _);
    reflexivity.
Defined.

Lemma X8_witness :
  let dom w :=
    {| Part001.innerWidth := w; Part001.container := Some 3000;
       Part001.cursorEl := true; Part001.flowSlide := None;
       Part001.flowText := true; Part001.progressThumb := true |} in
  let p := Part001.onMouseMove 500 0 Part001.initialPage in
  let p' :=
    Part001.run
      (map Part001.Tick (repeat (dom 800) 11 ++ repeat (dom 1400) 11)) p in
  Qabs (Part001.x (Part001.mouse p') - Part001.x (Part001.cursor p')) < 1.
Proof.
  cbv zeta.
  refine (proj1 (proj2 (X8_part001_cursor_converges _ _)) _ _);
    reflexivity.
Defined.

(** ** More on wheel handling *)

(** X10: on a state whose target is inside [[0, maxScroll]], a wheel
    event never moves the target against the direction of its delta nor
    out of the range, and at either end of the range further scrolling
    outwards changes nothing (part_000 and App.tsx).  The same holds when
    the sum [targetX + deltaY] is rounded to a double: the target moves
    with the delta or stays. *)
Theorem X10_wheel_moves_with_delta :
  (forall d s,
      0 <= Part000.targetX s -> Part000.targetX s <= Part000.maxScroll s ->
      let t := Part000.targetX s in
      let t' := Part000.targetX (Part000.handleWheel d s) in
      (0 <= d -> t <= t' /\ t' <= Part000.maxScroll s) /\
      (d <= 0 -> 0 <= t' /\ t' <= t) /\
      (t == Part000.maxScroll s -> 0 <= d -> t' == t) /\
      (t == 0 -> d <= 0 -> t' == 0)) /\
  (forall d s,
      0 <= AppTsx.targetX s -> AppTsx.targetX s <= AppTsx.maxScroll s ->
      let t := AppTsx.targetX s in
      let t' := AppTsx.targetX (AppTsx.handleWheel d s) in
      (0 <= d -> t <= t' /\ t' <= AppTsx.maxScroll s) /\
      (d <= 0 -> 0 <= t' /\ t' <= t) /\
      (t == AppTsx.maxScroll s -> 0 <= d -> t' == t) /\
      (t == 0 -> d <= 0 -> t' == 0)) /\
  (forall t d m sum,
      Double.rnd t == t -> 0 <= t -> t <= m ->
      Double.add t d = Some sum ->
      let t' := Qmax 0 (Qmin sum m) in
      (0 <= d -> t <= t' /\ t' <= m) /\
      (d <= 0 -> 0 <= t' /\ t' <= t)).
Proof.
  assert (H : forall t d m,
    0 <= t -> t <= m ->
    (0 <= d -> t <= Qmax 0 (Qmin (t + d) m) /\ Qmax 0 (Qmin (t + d) m) <= m) /\
    (d <= 0 -> 0 <= Qmax 0 (Qmin (t + d) m) /\ Qmax 0 (Qmin (t + d) m) <= t) /\
    (t == m -> 0 <= d -> Qmax 0 (Qmin (t + d) m) == t) /\
    (t == 0 -> d <= 0 -> Qmax 0 (Qmin (t + d) m) == 0)).
  { intros t d m H0 H1.
    repeat split; intros; minmax_lra. }
  split; [|split].
  - intros d s H0 H1. apply H; assumption.
  - intros d s H0 H1. apply H; assumption.
  - intros t d m sum Ht H0 H1 Hsum t'.
    unfold Double.add, Double.number in Hsum. cbv zeta in Hsum.
    destruct (Qle_bool _ _); [|discriminate].
    injection Hsum as Hsum.
    assert (Hup : 0 <= d -> t <= sum).
    { intros Hd. rewrite <- Hsum.
      apply Qle_trans with (Double.rnd t); [lra|].
      apply Double_rnd_mono. lra. }
    assert (Hdown : d <= 0 -> sum <= t).
    { intros Hd. rewrite <- Hsum.
      apply Qle_trans with (Double.rnd t); [|lra].
      apply Double_rnd_mono. lra. }
    subst t'. split; intros Hd.
    + specialize (Hup Hd). split; minmax_lra.
    + specialize (Hdown Hd). split; minmax_lra.
Qed.

Lemma X10_witness :
  let s := {| Part000.currentX := 0; Part000.targetX := 100;
              Part000.maxScroll := 500; Part000.skew := 0 |} in
  100 <= Part000.targetX (Part000.handleWheel 600 s) /\
  Part000.targetX (Part000.handleWheel 600 s) <= 500.
Proof.
  cbv zeta.
  refine (proj1 (proj1 X10_wheel_moves_with_delta 600
     {| Part000.currentX := 0; Part000.targetX := 100;
        Part000.maxScroll := 500; Part000.skew := 0 |} _ _) _);
    simpl; lra.
Defined.

(** ** Hover classes of the cursor *)

Lemma Hover_add1_In cl x t :
  In t (Hover.add1 cl x) <-> In t cl \/ t = x.
Proof.
  unfold Hover.add1.
  destruct (in_dec String.string_dec x cl) as [Hx | Hx].
  - split; [now left | intros [H | ->]; assumption].
  - rewrite in_app_iff. simpl. intuition.
Qed.

Lemma Hover_remove1_In cl x t :
  In t (Hover.remove1 cl x) <-> In t cl /\ t <> x.
Proof.
  unfold Hover.remove1. split.
  - apply in_remove.
  - intros [H1 H2]. now apply in_in_remove.
Qed.

Lemma Hover_add_In tokens cl t :
  In t (Hover.add tokens cl) <-> In t cl \/ In t tokens.
Proof.
  unfold Hover.add. revert cl.
  induction tokens as [|x tokens IH]; intros cl; simpl.
  - tauto.
  - rewrite IH, Hover_add1_In. intuition.
Qed.

Lemma Hover_remove_In tokens cl t :
  In t (Hover.remove tokens cl) <-> In t cl /\ ~ In t tokens.
Proof.
  unfold Hover.remove. revert cl.
  induction tokens as [|x tokens IH]; intros cl; simpl.
  - tauto.
  - rewrite IH, Hover_remove1_In. intuition.
Qed.

Lemma Hover_add1_NoDup cl x : NoDup cl -> NoDup (Hover.add1 cl x).
Proof.
  intros H. unfold Hover.add1.
  destruct (in_dec String.string_dec x cl) as [Hx | Hx]; [exact H|].
  apply NoDup_app; [exact H | repeat constructor; intros [] |].
  intros a Ha [<- | []]. contradiction.
Qed.

Lemma Hover_remove1_NoDup cl x : NoDup cl -> NoDup (Hover.remove1 cl x).
Proof.
  intros H. unfold Hover.remove1.
  induction H as [|a l Ha Hl IH]; simpl; [constructor|].
  destruct (String.string_dec x a); [exact IH|].
  constructor; [|exact IH].
  intros Hin. apply in_remove in Hin. tauto.
Qed.

Lemma Hover_add_NoDup tokens cl : NoDup cl -> NoDup (Hover.add tokens cl).
Proof.
  unfold Hover.add. revert cl.
  induction tokens as [|x tokens IH]; intros cl H; simpl; [exact H|].
  apply IH. now apply Hover_add1_NoDup.
Qed.

Lemma Hover_remove_NoDup tokens cl :
  NoDup cl -> NoDup (Hover.remove tokens cl).
Proof.
  unfold Hover.remove. revert cl.
  induction tokens as [|x tokens IH]; intros cl H; simpl; [exact H|].
  apply IH. now apply Hover_remove1_NoDup.
Qed.

(** X12: in part_000 and App.tsx, with the cursor element attached,
    [hoverStart] leaves a class list that holds the three hover classes and
    neither [w-5] nor [h-5], [hoverEnd] one that holds [w-5] and [h-5] and
    none of the hover classes; every other class is kept by both, and no
    class is ever listed twice.  A hover (enter, then leave) therefore
    gives back the classes the element had if it had the small size and no
    hover class, as it is rendered.  With the ref null both do nothing. *)
Theorem X12_hover_swaps_size_classes :
  Hover.hoverStart None = None /\
  Hover.hoverEnd None = None /\
  (forall cl, exists cl',
      Hover.hoverStart (Some cl) = Some cl' /\
      (forall t, In t cl' <->
                 (In t cl /\ ~ In t Hover.small) \/ In t Hover.large) /\
      (NoDup cl -> NoDup cl')) /\
  (forall cl, exists cl',
      Hover.hoverEnd (Some cl) = Some cl' /\
      (forall t, In t cl' <->
                 (In t cl /\ ~ In t Hover.large) \/ In t Hover.small) /\
      (NoDup cl -> NoDup cl')) /\
  (forall cl,
      (forall t, In t Hover.small -> In t cl) ->
      (forall t, In t Hover.large -> ~ In t cl) ->
      exists cl',
        Hover.hover (Some cl) = Some cl' /\
        (forall t, In t cl' <-> In t cl)) /\
  (exists cl',
      Hover.hover (Some Hover.cursorClassName_part000) = Some cl' /\
      Permutation cl' Hover.cursorClassName_part000) /\
  (exists cl',
      Hover.hover (Some Hover.cursorClassName_AppTsx) = Some cl' /\
      Permutation cl' Hover.cursorClassName_AppTsx).
Proof.
  split; [reflexivity|]. split; [reflexivity|].
  assert (Hstart : forall cl t,
    In t (Hover.add Hover.large (Hover.remove Hover.small cl)) <->
    (In t cl /\ ~ In t Hover.small) \/ In t Hover.large).
  { intros. rewrite Hover_add_In, Hover_remove_In. tauto. }
  assert (Hend : forall cl t,
    In t (Hover.add Hover.small (Hover.remove Hover.large cl)) <->
    (In t cl /\ ~ In t Hover.large) \/ In t Hover.small).
  { intros. rewrite Hover_add_In, Hover_remove_In. tauto. }
  split.
  { intros cl. eexists. split; [reflexivity|]. split; [apply Hstart|].
    intros H. now apply Hover_add_NoDup, Hover_remove_NoDup. }
  split.
  { intros cl. eexists. split; [reflexivity|]. split; [apply Hend|].
    intros H. now apply Hover_add_NoDup, Hover_remove_NoDup. }
  split.
  { intros cl Hs Hl. eexists. split; [reflexivity|].
    intros t. rewrite Hend, Hstart.
    assert (Hdisj : In t Hover.small -> ~ In t Hover.large).
    { simpl. intros [<- | [<- | []]] [H | [H | [H | []]]]; discriminate. }
    specialize (Hs t). specialize (Hl t).
    destruct (in_dec String.string_dec t Hover.small);
      destruct (in_dec String.string_dec t Hover.large); tauto. }
  split.
  - eexists. split; [reflexivity|]. vm_compute.
    do 3 apply perm_skip.
    apply (Permutation_app_comm (_ :: _ :: _ :: _ :: nil) (_ :: _ :: nil)).
  - eexists. split; [reflexivity|]. vm_compute.
    do 3 apply perm_skip.
    apply (Permutation_app_comm (_ :: _ :: _ :: _ :: _ :: _ :: _ :: nil)
             (_ :: _ :: nil)).
Qed.

Lemma Hover_hover_part001_Some cl :
  Hover.hover_part001 (Some cl)
  = Some (Hover.add Hover.small_lg
            (Hover.remove Hover.large_lg
               (Hover.add Hover.large_lg
                  (Hover.remove Hover.small_lg cl)))).
Proof. reflexivity. Qed.

(** X13: part_001 toggles the [lg:]-prefixed size classes, while its
    cursor is rendered with the plain [w-5 h-5] and no [lg:w-5 lg:h-5].
    Whatever the class list, [hoverStart] keeps [w-5] and [h-5] if they are
    there, and after a hover [lg:w-5] and [lg:h-5] are listed; so the first
    hover does not give back the rendered class list but appends those two
    classes to it, and every later hover gives back what the first one
    left. *)
Theorem X13_part001_hover_adds_lg_classes :
  (forall cl t,
      In t Hover.small -> In t cl ->
      exists cl',
        Hover.hoverStart_part001 (Some cl) = Some cl' /\ In t cl') /\
  (forall cl, exists cl',
      Hover.hover_part001 (Some cl) = Some cl' /\
      (forall t, In t cl' <->
                 (In t cl /\ ~ In t Hover.large_lg) \/ In t Hover.small_lg)) /\
  Hover.hover_part001 (Some Hover.cursorClassName_part001)
  = Some (Hover.cursorClassName_part001 ++ Hover.small_lg) /\
  Hover.hover_part001
    (Hover.hover_part001 (Some Hover.cursorClassName_part001))
  = Hover.hover_part001 (Some Hover.cursorClassName_part001) /\
  (forall cl cl' cl'',
      Hover.hover_part001 (Some cl) = Some cl' ->
      Hover.hover_part001 (Some cl') = Some cl'' ->
      forall t, In t cl'' <-> In t cl').
Proof.
  assert (Hdisj : forall t, In t Hover.small_lg -> ~ In t Hover.large_lg).
  { simpl. intros t [<- | [<- | []]] [H | [H | [H | []]]]; discriminate. }
  assert (Hhover : forall cl t,
    In t (Hover.add Hover.small_lg
            (Hover.remove Hover.large_lg
               (Hover.add Hover.large_lg (Hover.remove Hover.small_lg cl))))
    <-> (In t cl /\ ~ In t Hover.large_lg) \/ In t Hover.small_lg).
  { intros cl t.
    rewrite Hover_add_In, Hover_remove_In, Hover_add_In, Hover_remove_In.
    specialize (Hdisj t).
    destruct (in_dec String.string_dec t Hover.small_lg);
      destruct (in_dec String.string_dec t Hover.large_lg); tauto. }
  split.
  { intros cl t Ht Hin. eexists. split; [reflexivity|].
    rewrite Hover_add_In, Hover_remove_In. left. split; [exact Hin|].
    simpl in *. intros [H | [H | []]];
      destruct Ht as [<- | [<- | []]]; discriminate. }
  split.
  { intros cl. eexists. split; [reflexivity|]. apply Hhover. }
  split; [vm_compute; reflexivity|].
  split; [vm_compute; reflexivity|].
  intros cl cl' cl'' H1 H2 t.
  rewrite Hover_hover_part001_Some in H1, H2.
  assert (E1 : Hover.add Hover.small_lg
                 (Hover.remove Hover.large_lg
                    (Hover.add Hover.large_lg
                       (Hover.remove Hover.small_lg cl))) = cl')
    by congruence.
  assert (E2 : Hover.add Hover.small_lg
                 (Hover.remove Hover.large_lg
                    (Hover.add Hover.large_lg
                       (Hover.remove Hover.small_lg cl'))) = cl'')
    by congruence.
  rewrite <- E2, (Hhover cl' t), <- E1, (Hhover cl t).
  pose proof (Hdisj t) as Hd.
  set (A := In t Hover.small_lg) in *.
  set (B := In t Hover.large_lg) in *.
  set (C := In t cl) in *.
  clearbody A B C. tauto.
Qed.

Lemma X13_witness :
  exists cl',
    Hover.hoverStart_part001 (Some Hover.cursorClassName_part001) = Some cl'
    /\ In (hd String.EmptyString Hover.small) cl'.
Proof.
  apply (proj1 X13_part001_hover_adds_lg_classes).
  - simpl. now left.
  - vm_compute. tauto.
Defined.

Lemma X12_witness :
  exists cl',
    Hover.hover (Some Hover.cursorClassName_part000) = Some cl' /\
    (forall t, In t cl' <-> In t Hover.cursorClassName_part000).
Proof.
  apply (proj1 (proj2 (proj2 (proj2 (proj2 X12_hover_swaps_size_classes))))).
  - intros t [<- | [<- | []]]; vm_compute; tauto.
  - intros t [<- | [<- | [<- | []]]] H; vm_compute in H;
      repeat (destruct H as [H | H]; [discriminate|]); exact H.
Defined.

(** ** Listeners, timers and the frame request across a mount *)

Lemma Lifecycle_add_In l h x :
  In x (Lifecycle.listeners (Lifecycle.addEventListener l h))
  <-> In x (Lifecycle.listeners h) \/ x = l.
Proof.
  unfold Lifecycle.addEventListener. simpl.
  destruct (in_dec Lifecycle.Listener_eq_dec l (Lifecycle.listeners h)).
  - split; [now left | intros [H | ->]; assumption].
  - rewrite in_app_iff. simpl. intuition.
Qed.

Lemma Lifecycle_remove_In l h x :
  In x (Lifecycle.listeners (Lifecycle.removeEventListener l h))
  <-> In x (Lifecycle.listeners h) /\ x <> l.
Proof.
  unfold Lifecycle.removeEventListener. simpl. split.
  - apply in_remove.
  - intros [H1 H2]. now apply in_in_remove.
Qed.

Lemma Lifecycle_attach_frame targets h :
  Lifecycle.timers (Lifecycle.attachHoverEvents targets h)
  = Lifecycle.timers h /\
  Lifecycle.frameRequested (Lifecycle.attachHoverEvents targets h)
  = Lifecycle.frameRequested h.
Proof.
  unfold Lifecycle.attachHoverEvents. revert h.
  induction targets as [|el targets IH]; intros h; simpl; [tauto|].
  destruct (IH (Lifecycle.addEventListener (Lifecycle.onLeave el)
                  (Lifecycle.addEventListener (Lifecycle.onEnter el) h)))
    as [-> ->].
  split; reflexivity.
Qed.

Lemma Lifecycle_detach_frame targets h :
  Lifecycle.timers (Lifecycle.detachHoverEvents targets h)
  = Lifecycle.timers h /\
  Lifecycle.frameRequested (Lifecycle.detachHoverEvents targets h)
  = Lifecycle.frameRequested h.
Proof.
  unfold Lifecycle.detachHoverEvents. revert h.
  induction targets as [|el targets IH]; intros h; simpl; [tauto|].
  destruct (IH (Lifecycle.removeEventListener (Lifecycle.onLeave el)
                  (Lifecycle.removeEventListener (Lifecycle.onEnter el) h)))
    as [-> ->].
  split; reflexivity.
Qed.

Lemma Lifecycle_attach_In targets h x :
  In x (Lifecycle.listeners (Lifecycle.attachHoverEvents targets h))
  <-> In x (Lifecycle.listeners h) \/
      exists el, In el targets /\
                 (x = Lifecycle.onEnter el \/ x = Lifecycle.onLeave el).
Proof.
  unfold Lifecycle.attachHoverEvents. revert h.
  induction targets as [|el targets IH]; intros h; simpl.
  - split; [now left | intros [H | (el & [] & _)]; exact H].
  - rewrite IH, !Lifecycle_add_In. split.
    + intros [[[H | ->] | ->] | (e & He & Hx)].
      * now left.
      * right. exists el. tauto.
      * right. exists el. tauto.
      * right. exists e. tauto.
    + intros [H | (e & [<- | He] & Hx)].
      * tauto.
      * tauto.
      * right. exists e. tauto.
Qed.

Lemma Lifecycle_detach_In targets h x :
  In x (Lifecycle.listeners (Lifecycle.detachHoverEvents targets h))
  <-> In x (Lifecycle.listeners h) /\
      forall el, In el targets ->
                 x <> Lifecycle.onEnter el /\ x <> Lifecycle.onLeave el.
Proof.
  unfold Lifecycle.detachHoverEvents. revert h.
  induction targets as [|el targets IH]; intros h; simpl.
  - split; [intros H; split; [exact H | intros _ []] | tauto].
  - rewrite IH, !Lifecycle_remove_In. split.
    + intros [[[H H1] H2] H3]. split; [exact H|].
      intros e [<- | He]; [tauto | now apply H3].
    + intros [H H1]. split; [split; [split|]|].
      * exact H.
      * apply (H1 el). now left.
      * apply (H1 el). now left.
      * intros e He. apply H1. now right.
Qed.

(** Removing and adding the component's own listeners leaves the
    listeners of other code where they are, in their order. *)
Lemma Lifecycle_filter_remove l L :
  Lifecycle.isForeign l = false ->
  filter Lifecycle.isForeign (remove Lifecycle.Listener_eq_dec l L)
  = filter Lifecycle.isForeign L.
Proof.
  intros Hl. induction L as [|a L IH]; simpl; [reflexivity|].
  destruct (Lifecycle.Listener_eq_dec l a) as [<- | Hne].
  - rewrite Hl. exact IH.
  - simpl. now rewrite IH.
Qed.

Lemma Lifecycle_filter_add l h :
  Lifecycle.isForeign l = false ->
  filter Lifecycle.isForeign
    (Lifecycle.listeners (Lifecycle.addEventListener l h))
  = filter Lifecycle.isForeign (Lifecycle.listeners h).
Proof.
  intros Hl. unfold Lifecycle.addEventListener. simpl.
  destruct (in_dec Lifecycle.Listener_eq_dec l (Lifecycle.listeners h));
    [reflexivity|].
  rewrite filter_app. simpl. rewrite Hl. apply app_nil_r.
Qed.

Lemma Lifecycle_filter_attach targets h :
  filter Lifecycle.isForeign
    (Lifecycle.listeners (Lifecycle.attachHoverEvents targets h))
  = filter Lifecycle.isForeign (Lifecycle.listeners h).
Proof.
  unfold Lifecycle.attachHoverEvents. revert h.
  induction targets as [|el targets IH]; intros h; simpl; [reflexivity|].
  rewrite IH, !Lifecycle_filter_add; reflexivity.
Qed.

Lemma Lifecycle_filter_detach targets h :
  filter Lifecycle.isForeign
    (Lifecycle.listeners (Lifecycle.detachHoverEvents targets h))
  = filter Lifecycle.isForeign (Lifecycle.listeners h).
Proof.
  unfold Lifecycle.detachHoverEvents. revert h.
  induction targets as [|el targets IH]; intros h; simpl; [reflexivity|].
  rewrite IH. unfold Lifecycle.removeEventListener. simpl.
  rewrite !Lifecycle_filter_remove; reflexivity.
Qed.

Lemma filter_all {A : Type} (f : A -> bool) (L : list A) :
  (forall x, In x L -> f x = true) -> filter f L = L.
Proof.
  induction L as [|a L IH]; intros H; simpl; [reflexivity|].
  rewrite (H a (or_introl eq_refl)). f_equal. apply IH.
  intros x Hx. apply H. now right.
Qed.

(** Steps through the host operations that leave the listeners, or that
    remove one, without opening [addEventListener]. *)
Tactic Notation "lifecycle_cbn" :=
  cbn [Lifecycle.listeners Lifecycle.timers Lifecycle.frameRequested
       Lifecycle.removeEventListener Lifecycle.cancelAnimationFrame
       Lifecycle.requestAnimationFrame Lifecycle.setTimeout].
Tactic Notation "lifecycle_cbn" "in" hyp(H) :=
  cbn [Lifecycle.listeners Lifecycle.timers Lifecycle.frameRequested
       Lifecycle.removeEventListener Lifecycle.cancelAnimationFrame
       Lifecycle.requestAnimationFrame Lifecycle.setTimeout] in H.

(** X14: in App.tsx, unmounting after mounting leaves the host with
    exactly the listeners it had before (those of other code, in their
    order): the three window listeners and every hover listener are
    removed, and the frame request is cancelled.  The three timers the
    mount has set are still pending. *)
Theorem X14_AppTsx_unmount_restores_listeners
  (targets : list nat) (h0 : Lifecycle.Host) :
  Forall (fun l => Lifecycle.isForeign l = true) (Lifecycle.listeners h0) ->
  let h := Lifecycle.unmount_AppTsx targets
             (Lifecycle.mount_AppTsx targets h0) in
  Lifecycle.listeners h = Lifecycle.listeners h0 /\
  Lifecycle.frameRequested h = false /\
  Lifecycle.timers h
  = Lifecycle.timers h0
    ++ [(Lifecycle.timerSetIntroLoaded, 100%nat);
        (Lifecycle.timerCalculateLayout, 100%nat);
        (Lifecycle.timerCalculateLayout, 500%nat)].
Proof.
  intros Hf. cbv zeta.
  rewrite Forall_forall in Hf.
  unfold Lifecycle.unmount_AppTsx, Lifecycle.mount_AppTsx.
  set (m := Lifecycle.onWindow Lifecycle.mousemove Lifecycle.onMouseMove).
  set (r := Lifecycle.onWindow Lifecycle.resize Lifecycle.calculateLayout).
  set (w := Lifecycle.onWindow Lifecycle.wheel Lifecycle.handleWheel).
  split; [|split].
  - match goal with
    | |- Lifecycle.listeners ?hf = _ =>
        assert (Hall : forall x, In x (Lifecycle.listeners hf) ->
                                 Lifecycle.isForeign x = true)
    end; [|rewrite <- (filter_all _ _ Hall)].
    2: { rewrite Lifecycle_filter_detach. lifecycle_cbn.
         rewrite !Lifecycle_filter_remove by reflexivity.
         rewrite Lifecycle_filter_add by reflexivity. lifecycle_cbn.
         rewrite Lifecycle_filter_add by reflexivity.
         rewrite Lifecycle_filter_attach.
         rewrite Lifecycle_filter_add by reflexivity. lifecycle_cbn.
         apply filter_all. exact Hf. }
    { intros x Hx.
      apply Lifecycle_detach_In in Hx. destruct Hx as [Hx Hhover].
      lifecycle_cbn in Hx.
      apply in_remove in Hx. destruct Hx as [Hx Hw].
      apply in_remove in Hx. destruct Hx as [Hx Hr].
      apply in_remove in Hx. destruct Hx as [Hx Hm].
      apply Lifecycle_add_In in Hx. destruct Hx as [Hx | ->]; [|tauto].
      lifecycle_cbn in Hx.
      apply Lifecycle_add_In in Hx. destruct Hx as [Hx | ->]; [|tauto].
      apply Lifecycle_attach_In in Hx.
      destruct Hx as [Hx | (el & Hel & Hx)].
      * apply Lifecycle_add_In in Hx. destruct Hx as [Hx | ->]; [|tauto].
        apply Hf. exact Hx.
      * destruct (Hhover el Hel). tauto. }
  - destruct (Lifecycle_detach_frame targets
                (Lifecycle.cancelAnimationFrame
                   (Lifecycle.removeEventListener w
                      (Lifecycle.removeEventListener r
                         (Lifecycle.removeEventListener m
                            (Lifecycle.mount_AppTsx targets h0))))))
      as [_ Hfr].
    unfold Lifecycle.mount_AppTsx in Hfr. fold m r w in Hfr.
    rewrite Hfr. reflexivity.
  - destruct (Lifecycle_detach_frame targets
                (Lifecycle.cancelAnimationFrame
                   (Lifecycle.removeEventListener w
                      (Lifecycle.removeEventListener r
                         (Lifecycle.removeEventListener m
                            (Lifecycle.mount_AppTsx targets h0))))))
      as [Ht _].
    unfold Lifecycle.mount_AppTsx in Ht. fold m r w in Ht.
    rewrite Ht. simpl.
    destruct (Lifecycle_attach_frame targets
                (Lifecycle.addEventListener m
                   (Lifecycle.setTimeout Lifecycle.timerSetIntroLoaded 100 h0)))
      as [Ht' _].
    rewrite Ht'. simpl. rewrite <- !app_assoc. reflexivity.
Qed.

(** Two hover targets, and a host on which other code listens for
    [resize]. *)
Lemma X14_witness :
  let other :=
    {| Lifecycle.target := Lifecycle.Window;
       Lifecycle.type := Lifecycle.resize;
       Lifecycle.callback := Lifecycle.foreign 0 |} in
  let h0 :=
    {| Lifecycle.listeners := [other]; Lifecycle.timers := [];
       Lifecycle.frameRequested := false |} in
  Lifecycle.listeners
    (Lifecycle.unmount_AppTsx [1; 2]%nat
       (Lifecycle.mount_AppTsx [1; 2]%nat h0))
  = [other].
Proof.
  cbv zeta.
  refine (proj1 (X14_AppTsx_unmount_restores_listeners [1; 2]%nat _ _)).
  repeat constructor.
Defined.

Lemma Lifecycle_window_not_hover t cb el :
  Lifecycle.onWindow t cb <> Lifecycle.onEnter el /\
  Lifecycle.onWindow t cb <> Lifecycle.onLeave el.
Proof. split; discriminate. Qed.

Lemma Lifecycle_mount_part000_listeners h0 x :
  In x (Lifecycle.listeners (Lifecycle.mount_part000 h0)) <->
  In x (Lifecycle.listeners h0) \/
  x = Lifecycle.onWindow Lifecycle.mousemove Lifecycle.onMouseMove \/
  x = Lifecycle.onWindow Lifecycle.resize Lifecycle.calculateLayout \/
  x = Lifecycle.onWindow Lifecycle.wheel Lifecycle.handleWheel.
Proof.
  unfold Lifecycle.mount_part000. lifecycle_cbn.
  rewrite Lifecycle_add_In. lifecycle_cbn.
  rewrite Lifecycle_add_In. lifecycle_cbn.
  rewrite Lifecycle_add_In. tauto.
Qed.

Lemma Lifecycle_mount_part001_listeners h0 x :
  In x (Lifecycle.listeners (Lifecycle.mount_part001 h0)) <->
  In x (Lifecycle.listeners h0) \/
  x = Lifecycle.onWindow Lifecycle.resize Lifecycle.checkLayout \/
  x = Lifecycle.onWindow Lifecycle.mousemove Lifecycle.onMouseMove \/
  x = Lifecycle.onWindow Lifecycle.resize Lifecycle.calculateLayout \/
  x = Lifecycle.onWindow Lifecycle.wheel Lifecycle.handleWheel.
Proof.
  unfold Lifecycle.mount_part001. lifecycle_cbn.
  rewrite Lifecycle_add_In. lifecycle_cbn.
  rewrite Lifecycle_add_In. lifecycle_cbn.
  rewrite Lifecycle_add_In. lifecycle_cbn.
  rewrite Lifecycle_add_In. tauto.
Qed.

Lemma Lifecycle_unmount_part000_listeners h x :
  In x (Lifecycle.listeners (Lifecycle.unmount_part000 h)) <->
  In x (Lifecycle.listeners h) /\
  x <> Lifecycle.onWindow Lifecycle.mousemove Lifecycle.onMouseMove /\
  x <> Lifecycle.onWindow Lifecycle.resize Lifecycle.calculateLayout /\
  x <> Lifecycle.onWindow Lifecycle.wheel Lifecycle.handleWheel.
Proof.
  unfold Lifecycle.unmount_part000. lifecycle_cbn. split.
  - intros Hx.
    apply in_remove in Hx. destruct Hx as [Hx Hw].
    apply in_remove in Hx. destruct Hx as [Hx Hr].
    apply in_remove in Hx. destruct Hx as [Hx Hm]. tauto.
  - intros (Hx & Hm & Hr & Hw).
    repeat (apply in_in_remove; [assumption|]). exact Hx.
Qed.

Lemma Lifecycle_unmount_part001_listeners h x :
  In x (Lifecycle.listeners (Lifecycle.unmount_part001 h)) <->
  In x (Lifecycle.listeners h) /\
  x <> Lifecycle.onWindow Lifecycle.resize Lifecycle.checkLayout /\
  x <> Lifecycle.onWindow Lifecycle.mousemove Lifecycle.onMouseMove /\
  x <> Lifecycle.onWindow Lifecycle.resize Lifecycle.calculateLayout /\
  x <> Lifecycle.onWindow Lifecycle.wheel Lifecycle.handleWheel.
Proof.
  unfold Lifecycle.unmount_part001. lifecycle_cbn. split.
  - intros Hx.
    apply in_remove in Hx. destruct Hx as [Hx Hw].
    apply in_remove in Hx. destruct Hx as [Hx Hr].
    apply in_remove in Hx. destruct Hx as [Hx Hm].
    apply in_remove in Hx. destruct Hx as [Hx Hc]. tauto.
  - intros (Hx & Hc & Hm & Hr & Hw).
    repeat (apply in_in_remove; [assumption|]). exact Hx.
Qed.

(** Clearing a timer that is not among the first pending ones takes out
    its first later occurrence. *)
Lemma Lifecycle_clearFirst_fresh t pending between rest :
  ~ In t pending -> ~ In t between ->
  Lifecycle.clearFirst t (pending ++ between ++ t :: rest)
  = pending ++ between ++ rest.
Proof.
  intros H1 H2.
  rewrite !app_assoc. revert H1 H2.
  assert (G : forall L, ~ In t L ->
                        Lifecycle.clearFirst t (L ++ t :: rest) = L ++ rest).
  { induction L as [|a L IH]; intros H; cbn [app Lifecycle.clearFirst].
    - destruct (Lifecycle.Timer_eq_dec t t); [reflexivity | congruence].
    - destruct (Lifecycle.Timer_eq_dec t a) as [<- | _].
      + exfalso. apply H. now left.
      + f_equal. apply IH. intros H'. apply H. now right. }
  intros H1 H2. apply G. rewrite in_app_iff. tauto.
Qed.

(** What a firing [attachHoverEvents] timer registers. *)
Lemma Lifecycle_fire_attach_listeners d x :
  In (Lifecycle.timerAttachHoverEvents, 500%nat)
     (Lifecycle.timers (Lifecycle.host d)) ->
  In x (Lifecycle.listeners
          (Lifecycle.host
             (Lifecycle.fire Lifecycle.timerAttachHoverEvents 500 d))) <->
  In x (Lifecycle.listeners (Lifecycle.host d)) \/
  exists el, In el (Lifecycle.querySelectorAll_hoverTarget d) /\
             (x = Lifecycle.onEnter el \/ x = Lifecycle.onLeave el).
Proof.
  intros Hp. unfold Lifecycle.fire.
  destruct (in_dec Lifecycle.Timer_eq_dec _ _) as [_ | Hn];
    [|contradiction].
  cbn [Lifecycle.host]. rewrite Lifecycle_attach_In. lifecycle_cbn.
  reflexivity.
Qed.

(** X15: in part_000 and part_001 the hover listeners are attached by a
    500ms timer whose cleanup function is dropped, and no timer is ever
    cleared.  Unmounting removes the window listeners and cancels the
    frame request but leaves every timer pending.  When the timer has
    fired while the component was mounted, the hover listeners of every
    target are still registered after the unmount; when it fires only
    after the unmount, it finds no target in the document and registers
    nothing. *)
Theorem X15_hover_listeners_outlive_unmount
  (els : list nat) (d0 : Lifecycle.Document) :
  Forall (fun l => Lifecycle.isForeign l = true)
         (Lifecycle.listeners (Lifecycle.host d0)) ->
  ~ In (Lifecycle.timerAttachHoverEvents, 500%nat)
       (Lifecycle.timers (Lifecycle.host d0)) ->
  let h0 := Lifecycle.host d0 in
  let attach := Lifecycle.fire Lifecycle.timerAttachHoverEvents 500 in
  let hover x :=
    exists el, In el els /\
               (x = Lifecycle.onEnter el \/ x = Lifecycle.onLeave el) in
  (let d := Lifecycle.remove_part000 (Lifecycle.render_part000 els d0) in
   (forall x, In x (Lifecycle.listeners (Lifecycle.host d))
              <-> In x (Lifecycle.listeners h0)) /\
   Lifecycle.frameRequested (Lifecycle.host d) = false /\
   Lifecycle.timers (Lifecycle.host d)
   = Lifecycle.timers h0
     ++ [(Lifecycle.timerSetIntroLoaded, 100%nat);
         (Lifecycle.timerAttachHoverEvents, 500%nat);
         (Lifecycle.timerCalculateLayout, 100%nat);
         (Lifecycle.timerCalculateLayout, 500%nat)]) /\
  (let d := Lifecycle.remove_part000
              (attach (Lifecycle.render_part000 els d0)) in
   (forall x, In x (Lifecycle.listeners (Lifecycle.host d))
              <-> In x (Lifecycle.listeners h0) \/ hover x) /\
   Lifecycle.timers (Lifecycle.host d)
   = Lifecycle.timers h0
     ++ [(Lifecycle.timerSetIntroLoaded, 100%nat);
         (Lifecycle.timerCalculateLayout, 100%nat);
         (Lifecycle.timerCalculateLayout, 500%nat)]) /\
  (let d := attach (Lifecycle.remove_part000
                      (Lifecycle.render_part000 els d0)) in
   (forall x, In x (Lifecycle.listeners (Lifecycle.host d))
              <-> In x (Lifecycle.listeners h0)) /\
   Lifecycle.timers (Lifecycle.host d)
   = Lifecycle.timers h0
     ++ [(Lifecycle.timerSetIntroLoaded, 100%nat);
         (Lifecycle.timerCalculateLayout, 100%nat);
         (Lifecycle.timerCalculateLayout, 500%nat)]) /\
  (let d := Lifecycle.remove_part001 (Lifecycle.render_part001 els d0) in
   (forall x, In x (Lifecycle.listeners (Lifecycle.host d))
              <-> In x (Lifecycle.listeners h0)) /\
   Lifecycle.frameRequested (Lifecycle.host d) = false /\
   Lifecycle.timers (Lifecycle.host d)
   = Lifecycle.timers h0
     ++ [(Lifecycle.timerSetIntroLoaded, 100%nat);
         (Lifecycle.timerAttachHoverEvents, 500%nat);
         (Lifecycle.timerCalculateLayout, 500%nat)]) /\
  (let d := Lifecycle.remove_part001
              (attach (Lifecycle.render_part001 els d0)) in
   forall x, In x (Lifecycle.listeners (Lifecycle.host d))
             <-> In x (Lifecycle.listeners h0) \/ hover x) /\
  (let d := attach (Lifecycle.remove_part001
                      (Lifecycle.render_part001 els d0)) in
   forall x, In x (Lifecycle.listeners (Lifecycle.host d))
             <-> In x (Lifecycle.listeners h0)).
Proof.
  intros Hf Hfresh. cbv zeta. rewrite Forall_forall in Hf.
  assert (Hown : forall x t cb,
             In x (Lifecycle.listeners (Lifecycle.host d0)) ->
             Lifecycle.isForeign (Lifecycle.onWindow t cb) = false ->
             x <> Lifecycle.onWindow t cb).
  { intros x t cb Hx Hcb ->. rewrite (Hf _ Hx) in Hcb. discriminate. }
  assert (Hhov : forall x t cb,
             (exists el, In el els /\
                (x = Lifecycle.onEnter el \/ x = Lifecycle.onLeave el)) ->
             x <> Lifecycle.onWindow t cb).
  { intros x t cb (el & _ & [-> | ->]) E; symmetry in E; revert E;
      apply Lifecycle_window_not_hover. }
  assert (T000 : Lifecycle.timers (Lifecycle.mount_part000 (Lifecycle.host d0))
                 = Lifecycle.timers (Lifecycle.host d0)
                   ++ [(Lifecycle.timerSetIntroLoaded, 100%nat);
                       (Lifecycle.timerAttachHoverEvents, 500%nat);
                       (Lifecycle.timerCalculateLayout, 100%nat);
                       (Lifecycle.timerCalculateLayout, 500%nat)]).
  { unfold Lifecycle.mount_part000. simpl. rewrite <- !app_assoc.
    reflexivity. }
  assert (T001 : Lifecycle.timers (Lifecycle.mount_part001 (Lifecycle.host d0))
                 = Lifecycle.timers (Lifecycle.host d0)
                   ++ [(Lifecycle.timerSetIntroLoaded, 100%nat);
                       (Lifecycle.timerAttachHoverEvents, 500%nat);
                       (Lifecycle.timerCalculateLayout, 500%nat)]).
  { unfold Lifecycle.mount_part001. simpl. rewrite <- !app_assoc.
    reflexivity. }
  assert (Hclear : forall rest,
             Lifecycle.clearFirst (Lifecycle.timerAttachHoverEvents, 500%nat)
               (Lifecycle.timers (Lifecycle.host d0)
                  ++ (Lifecycle.timerSetIntroLoaded, 100%nat)
                     :: (Lifecycle.timerAttachHoverEvents, 500%nat) :: rest)
             = Lifecycle.timers (Lifecycle.host d0)
               ++ (Lifecycle.timerSetIntroLoaded, 100%nat) :: rest).
  { intros rest.
    apply (Lifecycle_clearFirst_fresh _ _
             [(Lifecycle.timerSetIntroLoaded, 100%nat)] rest Hfresh).
    intros [E | []]. discriminate. }
  assert (P000 : In (Lifecycle.timerAttachHoverEvents, 500%nat)
                   (Lifecycle.timers
                      (Lifecycle.mount_part000 (Lifecycle.host d0)))).
  { rewrite T000. apply in_or_app. right. simpl. tauto. }
  assert (P001 : In (Lifecycle.timerAttachHoverEvents, 500%nat)
                   (Lifecycle.timers
                      (Lifecycle.mount_part001 (Lifecycle.host d0)))).
  { rewrite T001. apply in_or_app. right. simpl. tauto. }
  assert (H000 : forall x,
    In x (Lifecycle.listeners
            (Lifecycle.unmount_part000
               (Lifecycle.mount_part000 (Lifecycle.host d0))))
    <-> In x (Lifecycle.listeners (Lifecycle.host d0))).
  { intros x. rewrite Lifecycle_unmount_part000_listeners,
      Lifecycle_mount_part000_listeners.
    split; [tauto|]. intros Hx.
    pose proof (Hown x Lifecycle.mousemove Lifecycle.onMouseMove Hx eq_refl).
    pose proof (Hown x Lifecycle.resize Lifecycle.calculateLayout Hx eq_refl).
    pose proof (Hown x Lifecycle.wheel Lifecycle.handleWheel Hx eq_refl).
    tauto. }
  assert (H001 : forall x,
    In x (Lifecycle.listeners
            (Lifecycle.unmount_part001
               (Lifecycle.mount_part001 (Lifecycle.host d0))))
    <-> In x (Lifecycle.listeners (Lifecycle.host d0))).
  { intros x. rewrite Lifecycle_unmount_part001_listeners,
      Lifecycle_mount_part001_listeners.
    split; [tauto|]. intros Hx.
    pose proof (Hown x Lifecycle.resize Lifecycle.checkLayout Hx eq_refl).
    pose proof (Hown x Lifecycle.mousemove Lifecycle.onMouseMove Hx eq_refl).
    pose proof (Hown x Lifecycle.resize Lifecycle.calculateLayout Hx eq_refl).
    pose proof (Hown x Lifecycle.wheel Lifecycle.handleWheel Hx eq_refl).
    tauto. }
  split; [|split; [|split; [|split; [|split]]]].
  - cbn [Lifecycle.remove_part000 Lifecycle.render_part000 Lifecycle.host].
    split; [exact H000|]. split; [reflexivity|].
    unfold Lifecycle.unmount_part000. lifecycle_cbn. exact T000.
  - split.
    + intros x.
      cbn [Lifecycle.remove_part000 Lifecycle.host].
      rewrite Lifecycle_unmount_part000_listeners.
      rewrite Lifecycle_fire_attach_listeners by exact P000.
      cbn [Lifecycle.render_part000 Lifecycle.host
           Lifecycle.querySelectorAll_hoverTarget Lifecycle.rendered].
      rewrite Lifecycle_mount_part000_listeners.
      split.
      * tauto.
      * intros [Hx | Hx].
        -- pose proof (Hown x Lifecycle.mousemove Lifecycle.onMouseMove
                         Hx eq_refl).
           pose proof (Hown x Lifecycle.resize Lifecycle.calculateLayout
                         Hx eq_refl).
           pose proof (Hown x Lifecycle.wheel Lifecycle.handleWheel
                         Hx eq_refl).
           tauto.
        -- pose proof (Hhov x Lifecycle.mousemove Lifecycle.onMouseMove Hx).
           pose proof (Hhov x Lifecycle.resize Lifecycle.calculateLayout Hx).
           pose proof (Hhov x Lifecycle.wheel Lifecycle.handleWheel Hx).
           tauto.
    + cbn [Lifecycle.remove_part000 Lifecycle.host].
      unfold Lifecycle.unmount_part000. lifecycle_cbn.
      unfold Lifecycle.fire.
      destruct (in_dec Lifecycle.Timer_eq_dec _ _) as [_ | Hn];
        [|exfalso; apply Hn; exact P000].
      cbn [Lifecycle.host]. rewrite (proj1 (Lifecycle_attach_frame _ _)).
      lifecycle_cbn.
      cbn [Lifecycle.render_part000 Lifecycle.host].
      rewrite T000. apply Hclear.
  - assert (P : In (Lifecycle.timerAttachHoverEvents, 500%nat)
                  (Lifecycle.timers
                     (Lifecycle.host
                        (Lifecycle.remove_part000
                           (Lifecycle.render_part000 els d0))))).
    { cbn [Lifecycle.remove_part000 Lifecycle.render_part000 Lifecycle.host].
      unfold Lifecycle.unmount_part000. lifecycle_cbn. exact P000. }
    split.
    + intros x.
      rewrite Lifecycle_fire_attach_listeners by exact P.
      cbn [Lifecycle.remove_part000 Lifecycle.render_part000 Lifecycle.host
           Lifecycle.querySelectorAll_hoverTarget Lifecycle.rendered].
      rewrite H000. split; [|tauto].
      intros [Hx | (el & [] & _)]. exact Hx.
    + unfold Lifecycle.fire.
      destruct (in_dec Lifecycle.Timer_eq_dec _ _) as [_ | Hn];
        [|exfalso; apply Hn; exact P].
      cbn [Lifecycle.host]. rewrite (proj1 (Lifecycle_attach_frame _ _)).
      lifecycle_cbn.
      cbn [Lifecycle.remove_part000 Lifecycle.render_part000 Lifecycle.host].
      unfold Lifecycle.unmount_part000. lifecycle_cbn.
      rewrite T000. apply Hclear.
  - cbn [Lifecycle.remove_part001 Lifecycle.render_part001 Lifecycle.host].
    split; [exact H001|]. split; [reflexivity|].
    unfold Lifecycle.unmount_part001. lifecycle_cbn. exact T001.
  - intros x.
    cbn [Lifecycle.remove_part001 Lifecycle.host].
    rewrite Lifecycle_unmount_part001_listeners.
    rewrite Lifecycle_fire_attach_listeners by exact P001.
    cbn [Lifecycle.render_part001 Lifecycle.host
         Lifecycle.querySelectorAll_hoverTarget Lifecycle.rendered].
    rewrite Lifecycle_mount_part001_listeners.
    split.
    + tauto.
    + intros [Hx | Hx].
      * pose proof (Hown x Lifecycle.resize Lifecycle.checkLayout
                      Hx eq_refl).
        pose proof (Hown x Lifecycle.mousemove Lifecycle.onMouseMove
                      Hx eq_refl).
        pose proof (Hown x Lifecycle.resize Lifecycle.calculateLayout
                      Hx eq_refl).
        pose proof (Hown x Lifecycle.wheel Lifecycle.handleWheel
                      Hx eq_refl).
        tauto.
      * pose proof (Hhov x Lifecycle.resize Lifecycle.checkLayout Hx).
        pose proof (Hhov x Lifecycle.mousemove Lifecycle.onMouseMove Hx).
        pose proof (Hhov x Lifecycle.resize Lifecycle.calculateLayout Hx).
        pose proof (Hhov x Lifecycle.wheel Lifecycle.handleWheel Hx).
        tauto.
  - assert (P : In (Lifecycle.timerAttachHoverEvents, 500%nat)
                  (Lifecycle.timers
                     (Lifecycle.host
                        (Lifecycle.remove_part001
                           (Lifecycle.render_part001 els d0))))).
    { cbn [Lifecycle.remove_part001 Lifecycle.render_part001 Lifecycle.host].
      unfold Lifecycle.unmount_part001. lifecycle_cbn. exact P001. }
    intros x.
    rewrite Lifecycle_fire_attach_listeners by exact P.
    cbn [Lifecycle.remove_part001 Lifecycle.render_part001 Lifecycle.host
         Lifecycle.querySelectorAll_hoverTarget Lifecycle.rendered].
    rewrite H001. split; [|tauto].
    intros [Hx | (el & [] & _)]. exact Hx.
Qed.

(** The timer fires while part_000 shows one hover target, element 7;
    then the component is unmounted. *)
Lemma X15_witness :
  let d0 :=
    {| Lifecycle.host :=
         {| Lifecycle.listeners := []; Lifecycle.timers := [];
            Lifecycle.frameRequested := false |};
       Lifecycle.rendered := None |} in
  In (Lifecycle.onEnter 7)
    (Lifecycle.listeners
       (Lifecycle.host
          (Lifecycle.remove_part000
             (Lifecycle.fire Lifecycle.timerAttachHoverEvents 500
                (Lifecycle.render_part000 [7]%nat d0))))) /\
  ~ In (Lifecycle.onEnter 7)
      (Lifecycle.listeners
         (Lifecycle.host
            (Lifecycle.fire Lifecycle.timerAttachHoverEvents 500
               (Lifecycle.remove_part000
                  (Lifecycle.render_part000 [7]%nat d0))))).
Proof.
  cbv zeta.
  pose proof (X15_hover_listeners_outlive_unmount [7]%nat
                {| Lifecycle.host :=
                     {| Lifecycle.listeners := []; Lifecycle.timers := [];
                        Lifecycle.frameRequested := false |};
                   Lifecycle.rendered := None |}
                (Forall_nil _) (fun H => H)) as H.
  cbv zeta in H. destruct H as (_ & (Hbefore & _) & (Hafter & _) & _).
  split.
  - apply Hbefore. right. exists 7%nat. split; [now left | now left].
  - intros Hin. apply Hafter in Hin. exact Hin.
Defined.

(** ** copyEmail *)

(** What holds of the button after any events, for a button rendered as
    [b]. *)
Lemma Clipboard_invariant b events :
  let s := Clipboard.run events (Clipboard.rendered b) in
  (Clipboard.btn s = b /\ Clipboard.pendingTimers s = 0%nat) \/
  (Clipboard.btn s = Clipboard.onFulfilled b /\
   Clipboard.pendingTimers s <> 0%nat) \/
  Clipboard.btn s = Clipboard.onTimeout b.
Proof.
  cbv zeta.
  assert (Hgen : forall s,
    ((Clipboard.btn s = b /\ Clipboard.pendingTimers s = 0%nat) \/
     (Clipboard.btn s = Clipboard.onFulfilled b /\
      Clipboard.pendingTimers s <> 0%nat) \/
     Clipboard.btn s = Clipboard.onTimeout b) ->
    let s' := Clipboard.run events s in
    (Clipboard.btn s' = b /\ Clipboard.pendingTimers s' = 0%nat) \/
    (Clipboard.btn s' = Clipboard.onFulfilled b /\
     Clipboard.pendingTimers s' <> 0%nat) \/
    Clipboard.btn s' = Clipboard.onTimeout b).
  { induction events as [|e events IH]; intros s Hs; [exact Hs|].
    cbv zeta. simpl. apply IH. clear IH.
    destruct e; simpl.
    - exact Hs.
    - destruct (Clipboard.pendingWrites s); [exact Hs|]. simpl.
      right. left. split; [reflexivity | discriminate].
    - destruct (Clipboard.pendingWrites s); [exact Hs|]. exact Hs.
    - destruct (Clipboard.pendingTimers s) eqn:E; [rewrite E; exact Hs|].
      simpl. right. right. reflexivity. }
  apply Hgen. left. split; reflexivity.
Qed.

Lemma Clipboard_run_app events events' s :
  Clipboard.run (events ++ events') s
  = Clipboard.run events' (Clipboard.run events s).
Proof. apply fold_left_app. Qed.

(** X16: whatever the button showed when rendered and whatever happened
    before, a click whose clipboard write is fulfilled makes the button
    read [Copied] in colour [#0f0f0f], and the timer that follows makes
    it read [Email]: the text it had before the copy is not put back.  A
    click whose write is rejected leaves the button as it was, and so
    does any run of events without a fulfilled write.  The button never
    shows anything but its rendered text, [Copied] or [Email], and with
    no timer pending it is as rendered or reads [Email].  When a second
    copy goes through before the first copy's timer, that timer puts
    [Email] back while the second copy's timer is still pending. *)
Theorem X16_copyEmail_label (b : Clipboard.Button)
  (events : list Clipboard.Event) :
  let s := Clipboard.run events (Clipboard.rendered b) in
  let after more :=
    Clipboard.btn (Clipboard.run (events ++ more) (Clipboard.rendered b)) in
  let copied :=
    {| Clipboard.innerText := "Copied"%string;
       Clipboard.color := "#0f0f0f"%string |} in
  let email :=
    {| Clipboard.innerText := "Email"%string;
       Clipboard.color := "#0f0f0f"%string |} in
  after [Clipboard.Click; Clipboard.Fulfilled] = copied /\
  after [Clipboard.Click; Clipboard.Fulfilled; Clipboard.TimerFired]
  = email /\
  after [Clipboard.Click] = Clipboard.btn s /\
  after [Clipboard.Click; Clipboard.Rejected] = Clipboard.btn s /\
  (~ In Clipboard.Fulfilled events -> Clipboard.btn s = b) /\
  (Clipboard.btn s = b \/ Clipboard.btn s = copied \/
   Clipboard.btn s = email) /\
  (Clipboard.pendingTimers s = 0%nat ->
   Clipboard.btn s = b \/ Clipboard.btn s = email) /\
  (let s' :=
     Clipboard.run
       (events ++ [Clipboard.Click; Clipboard.Fulfilled; Clipboard.Click;
                   Clipboard.Fulfilled; Clipboard.TimerFired])
       (Clipboard.rendered b) in
   Clipboard.btn s' = email /\ (1 <= Clipboard.pendingTimers s')%nat).
Proof.
  cbv zeta. rewrite !Clipboard_run_app.
  set (s := Clipboard.run events (Clipboard.rendered b)).
  split; [reflexivity|]. split; [reflexivity|]. split; [reflexivity|].
  split; [reflexivity|].
  split.
  { subst s. intros Hno.
    assert (Hgen : forall s,
      Clipboard.pendingTimers s = 0%nat ->
      Clipboard.btn (Clipboard.run events s) = Clipboard.btn s).
    { induction events as [|e events IH]; intros s Hs; [reflexivity|].
      assert (Hno' : ~ In Clipboard.Fulfilled events)
        by (intros Hin; apply Hno; now right).
      simpl. destruct e; simpl.
      - now rewrite IH.
      - exfalso. apply Hno. now left.
      - destruct (Clipboard.pendingWrites s); now rewrite IH.
      - rewrite Hs. now rewrite IH. }
    now rewrite Hgen. }
  pose proof (Clipboard_invariant b events) as Hinv. cbv zeta in Hinv.
  fold s in Hinv. unfold Clipboard.onFulfilled, Clipboard.onTimeout in Hinv.
  split; [tauto|]. split; [tauto|].
  split; [reflexivity|]. simpl. lia.
Qed.

(** A button rendered as [Email]: a rejected copy, then one that goes
    through. *)
Lemma X16_witness :
  let b :=
    {| Clipboard.innerText := "Email"%string;
       Clipboard.color := String.EmptyString |} in
  Clipboard.btn
    (Clipboard.run
       ([Clipboard.Click; Clipboard.Rejected]
        ++ [Clipboard.Click; Clipboard.Fulfilled])
       (Clipboard.rendered b))
  = {| Clipboard.innerText := "Copied"%string;
       Clipboard.color := "#0f0f0f"%string |}.
Proof.
  cbv zeta.
  exact (proj1 (X16_copyEmail_label
                  {| Clipboard.innerText := "Email"%string;
                     Clipboard.color := String.EmptyString |}
                  [Clipboard.Click; Clipboard.Rejected])).
Defined.

(** ** Parallax of the FLOW text *)

Lemma Part000_flowParallax_some dom v :
  Part000.flowParallax dom = Some v <->
  exists r,
    Part000.flowSlide dom = Some r /\ Part000.flowText dom = true /\
    0 < Part000.right r /\ Part000.left r < Part000.innerWidth dom /\
    v = - (Part000.innerWidth dom - (Part000.left r + Part000.width r / 2)) * 0.2.
Proof.
  unfold Part000.flowParallax. split.
  - destruct (Part000.flowSlide dom) as [r|]; [|discriminate].
    destruct (Part000.flowText dom); [|discriminate].
    destruct (Qle_bool (Part000.right r) 0) eqn:E1; [discriminate|].
    destruct (Qle_bool (Part000.innerWidth dom) (Part000.left r)) eqn:E2;
      [discriminate|].
    cbn [negb andb]. intros [= <-].
    apply Qle_bool_false in E1. apply Qle_bool_false in E2.
    exists r. repeat split; assumption.
  - intros (r & -> & -> & H1 & H2 & ->).
    apply Qlt_not_le in H1. apply Qlt_not_le in H2.
    destruct (Qle_bool (Part000.right r) 0) eqn:E1;
      [apply Qle_bool_iff in E1; contradiction|].
    destruct (Qle_bool (Part000.innerWidth dom) (Part000.left r)) eqn:E2;
      [apply Qle_bool_iff in E2; contradiction|].
    reflexivity.
Qed.

Lemma AppTsx_flowParallax_some dom v :
  AppTsx.flowParallax dom = Some v <->
  exists r,
    AppTsx.flowSlide dom = Some r /\ AppTsx.flowText dom = true /\
    0 < AppTsx.right r /\ AppTsx.left r < AppTsx.innerWidth dom /\
    v = - (AppTsx.innerWidth dom - (AppTsx.left r + AppTsx.width r / 2)) * 0.25.
Proof.
  unfold AppTsx.flowParallax. split.
  - destruct (AppTsx.flowSlide dom) as [r|]; [|discriminate].
    destruct (AppTsx.flowText dom); [|discriminate].
    destruct (Qle_bool (AppTsx.right r) 0) eqn:E1; [discriminate|].
    destruct (Qle_bool (AppTsx.innerWidth dom) (AppTsx.left r)) eqn:E2;
      [discriminate|].
    cbn [negb andb]. intros [= <-].
    apply Qle_bool_false in E1. apply Qle_bool_false in E2.
    exists r. repeat split; assumption.
  - intros (r & -> & -> & H1 & H2 & ->).
    apply Qlt_not_le in H1. apply Qlt_not_le in H2.
    destruct (Qle_bool (AppTsx.right r) 0) eqn:E1;
      [apply Qle_bool_iff in E1; contradiction|].
    destruct (Qle_bool (AppTsx.innerWidth dom) (AppTsx.left r)) eqn:E2;
      [apply Qle_bool_iff in E2; contradiction|].
    reflexivity.
Qed.

Lemma Part001_flowParallax_some dom v :
  Part001.flowParallax dom = Some v <->
  exists r,
    Part001.flowSlide dom = Some r /\ Part001.flowText dom = true /\
    0 < Part001.right r /\ Part001.left r < Part001.innerWidth dom /\
    v = - (Part001.innerWidth dom - (Part001.left r + Part001.width r / 2)) * 0.2.
Proof.
  unfold Part001.flowParallax. split.
  - destruct (Part001.flowSlide dom) as [r|]; [|discriminate].
    destruct (Part001.flowText dom); [|discriminate].
    destruct (Qle_bool (Part001.right r) 0) eqn:E1; [discriminate|].
    destruct (Qle_bool (Part001.innerWidth dom) (Part001.left r)) eqn:E2;
      [discriminate|].
    cbn [negb andb]. intros [= <-].
    apply Qle_bool_false in E1. apply Qle_bool_false in E2.
    exists r. repeat split; assumption.
  - intros (r & -> & -> & H1 & H2 & ->).
    apply Qlt_not_le in H1. apply Qlt_not_le in H2.
    destruct (Qle_bool (Part001.right r) 0) eqn:E1;
      [apply Qle_bool_iff in E1; contradiction|].
    destruct (Qle_bool (Part001.innerWidth dom) (Part001.left r)) eqn:E2;
      [apply Qle_bool_iff in E2; contradiction|].
    reflexivity.
Qed.

(** X17: in each variant a frame writes the FLOW text's [translateX]
    exactly when both refs are attached and the slide overlaps the viewport
    horizontally ([right > 0] and [left < innerWidth]); part_001 does so
    below the 1024px breakpoint as well.  The value written is minus a
    fifth (App.tsx: a quarter) of the distance from the slide's centre to
    the right edge of the viewport: it is not positive while the centre is
    left of that edge and not negative once it is beyond it, and when the
    slide is farther right in one frame than in another (same viewport
    and slide width) the text is not farther left. *)
Theorem X17_parallax_follows_slide :
  (forall dom p,
      let written := Part000.flowTextTransform (snd (Part000.animate dom p)) in
      (forall v, written = Some v <->
         exists r,
           Part000.flowSlide dom = Some r /\ Part000.flowText dom = true /\
           0 < Part000.right r /\ Part000.left r < Part000.innerWidth dom /\
           v = - (Part000.innerWidth dom
                  - (Part000.left r + Part000.width r / 2)) * 0.2) /\
      (forall r v,
         Part000.flowSlide dom = Some r -> written = Some v ->
         (Part000.left r + Part000.width r / 2 <= Part000.innerWidth dom -> v <= 0) /\
         (Part000.innerWidth dom <= Part000.left r + Part000.width r / 2 -> 0 <= v)) /\
      (forall dom' p' r r' v v',
         Part000.flowSlide dom = Some r -> Part000.flowSlide dom' = Some r' ->
         Part000.innerWidth dom' == Part000.innerWidth dom ->
         Part000.width r' == Part000.width r ->
         Part000.left r <= Part000.left r' ->
         written = Some v ->
         Part000.flowTextTransform (snd (Part000.animate dom' p')) = Some v' ->
         v <= v')) /\
  (forall dom p,
      let written := AppTsx.flowTextTransform (snd (AppTsx.animate dom p)) in
      (forall v, written = Some v <->
         exists r,
           AppTsx.flowSlide dom = Some r /\ AppTsx.flowText dom = true /\
           0 < AppTsx.right r /\ AppTsx.left r < AppTsx.innerWidth dom /\
           v = - (AppTsx.innerWidth dom
                  - (AppTsx.left r + AppTsx.width r / 2)) * 0.25) /\
      (forall r v,
         AppTsx.flowSlide dom = Some r -> written = Some v ->
         (AppTsx.left r + AppTsx.width r / 2 <= AppTsx.innerWidth dom -> v <= 0) /\
         (AppTsx.innerWidth dom <= AppTsx.left r + AppTsx.width r / 2 -> 0 <= v)) /\
      (forall dom' p' r r' v v',
         AppTsx.flowSlide dom = Some r -> AppTsx.flowSlide dom' = Some r' ->
         AppTsx.innerWidth dom' == AppTsx.innerWidth dom ->
         AppTsx.width r' == AppTsx.width r ->
         AppTsx.left r <= AppTsx.left r' ->
         written = Some v ->
         AppTsx.flowTextTransform (snd (AppTsx.animate dom' p')) = Some v' ->
         v <= v')) /\
  (forall dom p,
      let written := Part001.flowTextTransform (snd (Part001.animate dom p)) in
      (forall v, written = Some v <->
         exists r,
           Part001.flowSlide dom = Some r /\ Part001.flowText dom = true /\
           0 < Part001.right r /\ Part001.left r < Part001.innerWidth dom /\
           v = - (Part001.innerWidth dom
                  - (Part001.left r + Part001.width r / 2)) * 0.2) /\
      (forall r v,
         Part001.flowSlide dom = Some r -> written = Some v ->
         (Part001.left r + Part001.width r / 2 <= Part001.innerWidth dom -> v <= 0) /\
         (Part001.innerWidth dom <= Part001.left r + Part001.width r / 2 -> 0 <= v)) /\
      (forall dom' p' r r' v v',
         Part001.flowSlide dom = Some r -> Part001.flowSlide dom' = Some r' ->
         Part001.innerWidth dom' == Part001.innerWidth dom ->
         Part001.width r' == Part001.width r ->
         Part001.left r <= Part001.left r' ->
         written = Some v ->
         Part001.flowTextTransform (snd (Part001.animate dom' p')) = Some v' ->
         v <= v')).
Proof.
  split; [|split].
  - intros dom p written.
    assert (Hw : written = Part000.flowParallax dom).
    { subst written. unfold Part000.animate. reflexivity. }
    split; [|split].
    + intros v. rewrite Hw. apply Part000_flowParallax_some.
    + intros r v Hr Hv. rewrite Hw in Hv.
      apply Part000_flowParallax_some in Hv.
      destruct Hv as (r0 & Hr0 & _ & _ & _ & ->).
      assert (r0 = r) by congruence. subst r0.
      split; intros H; lra.
    + intros dom' p' r r' v v' Hr Hr' Hvw Hwd Hl Hv Hv'.
      rewrite Hw in Hv. apply Part000_flowParallax_some in Hv.
      destruct Hv as (r0 & Hr0 & _ & _ & _ & ->).
      assert (r0 = r) by congruence. subst r0.
      assert (Hw' : Part000.flowTextTransform (snd (Part000.animate dom' p'))
                    = Part000.flowParallax dom').
      { unfold Part000.animate. reflexivity. }
      rewrite Hw' in Hv'. apply Part000_flowParallax_some in Hv'.
      destruct Hv' as (r0 & Hr0' & _ & _ & _ & ->).
      assert (r0 = r') by congruence. subst r0.
      assert (Hh : Part000.width r' / 2 == Part000.width r / 2)
        by (rewrite Hwd; reflexivity).
      lra.
  - intros dom p written.
    assert (Hw : written = AppTsx.flowParallax dom).
    { subst written. unfold AppTsx.animate. reflexivity. }
    split; [|split].
    + intros v. rewrite Hw. apply AppTsx_flowParallax_some.
    + intros r v Hr Hv. rewrite Hw in Hv.
      apply AppTsx_flowParallax_some in Hv.
      destruct Hv as (r0 & Hr0 & _ & _ & _ & ->).
      assert (r0 = r) by congruence. subst r0.
      split; intros H; lra.
    + intros dom' p' r r' v v' Hr Hr' Hvw Hwd Hl Hv Hv'.
      rewrite Hw in Hv. apply AppTsx_flowParallax_some in Hv.
      destruct Hv as (r0 & Hr0 & _ & _ & _ & ->).
      assert (r0 = r) by congruence. subst r0.
      assert (Hw' : AppTsx.flowTextTransform (snd (AppTsx.animate dom' p'))
                    = AppTsx.flowParallax dom').
      { unfold AppTsx.animate. reflexivity. }
      rewrite Hw' in Hv'. apply AppTsx_flowParallax_some in Hv'.
      destruct Hv' as (r0 & Hr0' & _ & _ & _ & ->).
      assert (r0 = r') by congruence. subst r0.
      assert (Hh : AppTsx.width r' / 2 == AppTsx.width r / 2)
        by (rewrite Hwd; reflexivity).
      lra.
  - intros dom p written.
    assert (Hw : written = Part001.flowParallax dom).
    { subst written. unfold Part001.animate. destruct (Part001.horizontal _); reflexivity. }
    split; [|split].
    + intros v. rewrite Hw. apply Part001_flowParallax_some.
    + intros r v Hr Hv. rewrite Hw in Hv.
      apply Part001_flowParallax_some in Hv.
      destruct Hv as (r0 & Hr0 & _ & _ & _ & ->).
      assert (r0 = r) by congruence. subst r0.
      split; intros H; lra.
    + intros dom' p' r r' v v' Hr Hr' Hvw Hwd Hl Hv Hv'.
      rewrite Hw in Hv. apply Part001_flowParallax_some in Hv.
      destruct Hv as (r0 & Hr0 & _ & _ & _ & ->).
      assert (r0 = r) by congruence. subst r0.
      assert (Hw' : Part001.flowTextTransform (snd (Part001.animate dom' p'))
                    = Part001.flowParallax dom').
      { unfold Part001.animate. destruct (Part001.horizontal _); reflexivity. }
      rewrite Hw' in Hv'. apply Part001_flowParallax_some in Hv'.
      destruct Hv' as (r0 & Hr0' & _ & _ & _ & ->).
      assert (r0 = r') by congruence. subst r0.
      assert (Hh : Part001.width r' / 2 == Part001.width r / 2)
        by (rewrite Hwd; reflexivity).
      lra.
Qed.

(** part_001 in a 800px viewport (below the breakpoint): a slide 640px
    wide whose left edge is 480px into the viewport. *)
Lemma X17_witness :
  let dom :=
    {| Part001.innerWidth := 800; Part001.container := Some 4000;
       Part001.cursorEl := true;
       Part001.flowSlide :=
         Some {| Part001.left := 480; Part001.right := 1120;
                 Part001.width := 640 |};
       Part001.flowText := true; Part001.progressThumb := true |} in
  let r := {| Part001.left := 480; Part001.right := 1120;
              Part001.width := 640 |} in
  Part001.flowTextTransform (snd (Part001.animate dom Part001.initialPage))
  = Some (- (800 - (480 + 640 / 2)) * 0.2) /\
  - (800 - (480 + 640 / 2)) * 0.2 <= 0.
Proof.
  cbv zeta. split; [reflexivity|].
  refine (proj1 (proj1 (proj2 (proj2 (proj2 X17_parallax_follows_slide)
    {| Part001.innerWidth := 800; Part001.container := Some 4000;
       Part001.cursorEl := true;
       Part001.flowSlide :=
         Some {| Part001.left := 480; Part001.right := 1120;
                 Part001.width := 640 |};
       Part001.flowText := true; Part001.progressThumb := true |}
    Part001.initialPage))
    {| Part001.left := 480; Part001.right := 1120; Part001.width := 640 |}
    _ eq_refl eq_refl) _).
  vm_compute. discriminate.
Defined.

(** ** More on Reveal *)

Lemma Reveal_notifications_existsb thr batches s :
  Reveal.observing s = true -> Reveal.isVisible s = false ->
  Reveal.isVisible (Reveal.notifications thr batches s)
  = existsb (Reveal.headReaches thr) batches.
Proof.
  revert s. induction batches as [|b batches IH]; intros s Ho Hv.
  - exact Hv.
  - unfold Reveal.notifications in *. simpl.
    rewrite (Reveal_notify_head thr b s Ho).
    destruct (Reveal.headReaches thr b).
    + fold (Reveal.notifications thr batches
              {| Reveal.isVisible := true; Reveal.observing := false |}).
      now rewrite Reveal_notifications_disconnected.
    + now apply IH.
Qed.

(** X18: a mounted Reveal is visible after a sequence of notifications
    exactly when the first sample of some notification reached the
    threshold; the samples that come later in a batch never matter, so two
    sequences of notifications whose batches begin alike leave the same
    visibility.  When every sample is notified on its own, it is visible
    exactly when some sample reached the threshold. *)
Theorem X18_reveal_iff_some_sample_reached :
  (forall thr batches,
      Reveal.isVisible
        (Reveal.notifications thr batches (Reveal.mount true Reveal.initial))
      = existsb (Reveal.headReaches thr) batches) /\
  (forall thr batches batches',
      map (@hd_error Q) batches = map (@hd_error Q) batches' ->
      Reveal.isVisible
        (Reveal.notifications thr batches (Reveal.mount true Reveal.initial))
      = Reveal.isVisible
          (Reveal.notifications thr batches'
             (Reveal.mount true Reveal.initial))) /\
  (forall thr ratios,
      Reveal.isVisible
        (Reveal.samples thr ratios (Reveal.mount true Reveal.initial))
      = existsb (Qle_bool thr) ratios).
Proof.
  assert (H : forall thr batches,
    Reveal.isVisible
      (Reveal.notifications thr batches (Reveal.mount true Reveal.initial))
    = existsb (Reveal.headReaches thr) batches)
    by (intros; now apply Reveal_notifications_existsb).
  split; [exact H|]. split.
  - intros thr batches batches' Hhd. rewrite !H.
    revert batches' Hhd.
    induction batches as [|b batches IH]; intros [|b' batches'] Hhd;
      try discriminate; [reflexivity|].
    simpl in Hhd. injection Hhd as Hb Hrest.
    simpl. rewrite (IH _ Hrest). f_equal.
    destruct b, b'; simpl in *; try discriminate; [reflexivity|].
    now injection Hb as ->.
  - intros thr ratios.
    assert (E : Reveal.samples thr ratios (Reveal.mount true Reveal.initial)
                = Reveal.notifications thr (map (fun r => [r]) ratios)
                    (Reveal.mount true Reveal.initial)).
    { unfold Reveal.samples, Reveal.notifications.
      generalize (Reveal.mount true Reveal.initial).
      induction ratios as [|r ratios IH]; intros s; [reflexivity|].
      simpl. apply IH. }
    rewrite E, H. clear E. induction ratios as [|r ratios IH]; [reflexivity|].
    cbn [existsb map Reveal.headReaches]. now rewrite IH.
Qed.

(** Two notifications against threshold 0.6: the first begins below the
    threshold (its second sample is ignored), the second begins above. *)
Lemma X18_witness :
  Reveal.isVisible
    (Reveal.notifications 0.6 [[0.1; 0.9]; [0.75; 0.2]]
       (Reveal.mount true Reveal.initial))
  = true.
Proof.
  exact (eq_trans
           (proj1 X18_reveal_iff_some_sample_reached 0.6
              [[0.1; 0.9]; [0.75; 0.2]])
           eq_refl).
Defined.

(** X19: a Reveal whose ref is null when its effect runs observes
    nothing and never becomes visible, whatever entries the host produces;
    and once a Reveal is unmounted no entry changes it any more. *)
Theorem X19_reveal_unobserved_is_inert :
  (forall entries,
      Reveal.deliveries entries (Reveal.mount false Reveal.initial)
      = Reveal.mount false Reveal.initial) /\
  (forall entries s,
      Reveal.deliveries entries (Reveal.unmount s) = Reveal.unmount s) /\
  (forall thr ratios,
      Reveal.isVisible
        (Reveal.samples thr ratios (Reveal.mount false Reveal.initial))
      = false).
Proof.
  assert (H : forall entries s,
            Reveal.observing s = false -> Reveal.deliveries entries s = s).
  { intros entries s Hs. unfold Reveal.deliveries.
    induction entries as [|e entries IH]; simpl; [reflexivity|].
    unfold Reveal.deliver at 2. rewrite Hs. exact IH. }
  split; [intros; now apply H|]. split; [intros; now apply H|].
  intros thr ratios. now rewrite Reveal_samples_disconnected.
Qed.
